(** * Church Song App: the storage adapter, the catalog editor and the batch
    interface of [application.py], embedded in Rocq.

    A Python [str] is a sequence of code points; here it is the [string] of
    the bytes of their UTF-8 encodings, one after the other, a surrogate that
    stands alone being written with the three bytes of its value ([utf8]).
    [chars] cuts such a string back into its code points.  The backing file
    holds bytes: writing a [str] to it encodes the [str], which fails when it
    holds a surrogate, and reading decodes the bytes, which fails when they
    are not well-formed UTF-8 ([valid_utf8]); a [str] and its encoding being
    the same [string], both steps are tests.

    The built-ins [str.strip], [str.splitlines] and [int] are given on all of
    Unicode as CPython 3.11 has it (Unicode 14): the white space, the line
    boundaries and the decimal digits are the tables below.  [str.lower],
    [repr] on floats and containers, the encoding of the standard output and
    the depth of nesting the interpreter lets [json.load] reach are
    parameters of the development ([runtime]).

    [json.dump] and [json.load] are calls into the library: the development
    gives the serializer, with the chunks it writes one by one, and the
    scanner, with its limits on the digits of an integer and on nesting, shows
    that the scanner reads back what the serializer writes for a catalog, and
    that it never stops for want of fuel.

    Effects are explicit: a [world] holds the backing file, whether the host
    lets it be opened, the message boxes shown and the texts printed; the
    functions of the program run in a state and exception monad over it.
    What the user does (the texts typed in a form, the row selected, the
    answer to a question) is an argument of the handler it triggers. *)

From Stdlib Require Import String Ascii List ZArith NArith Bool Arith Lia.
From Stdlib Require Import DecimalString.
From Stdlib Require DecimalNat.
Import ListNotations.
Local Open Scope list_scope.
Local Open Scope string_scope.

Set Warnings "-register-all".

(* ================================================================== *)
(** ** Code points and their bytes *)
(* ================================================================== *)

Definition code (c : ascii) : nat := nat_of_ascii c.

Definition in_range (lo hi : nat) (c : ascii) : bool :=
  (lo <=? code c)%nat && (code c <=? hi)%nat.

Definition byte (n : N) : ascii := ascii_of_N n.

(** The UTF-8 bytes of a code point; a surrogate gets the three bytes of its
    value. *)
Definition utf8 (cp : N) : string :=
  (if cp <? 128 then String (byte cp) ""
   else if cp <? 2048 then
     String (byte (192 + cp / 64)) (String (byte (128 + cp mod 64)) "")
   else if cp <? 65536 then
     String (byte (224 + cp / 4096))
       (String (byte (128 + (cp / 64) mod 64))
          (String (byte (128 + cp mod 64)) ""))
   else
     String (byte (240 + cp / 262144))
       (String (byte (128 + (cp / 4096) mod 64))
          (String (byte (128 + (cp / 64) mod 64))
             (String (byte (128 + cp mod 64)) ""))))%N.

(** The bytes 0x80..0xBF continue a code point; any other byte starts one. *)
Definition is_continuation (c : ascii) : bool := in_range 128 191 c.

Definition starts_continuation (s : string) : bool :=
  match s with
  | String c _ => is_continuation c
  | EmptyString => false
  end.

(** The code points of a string, each as its bytes: a byte that starts a code
    point, with the continuation bytes that follow it. *)
Fixpoint chars (s : string) : list string :=
  match s with
  | EmptyString => []
  | String c r =>
      match chars r with
      | ch :: rest =>
          if starts_continuation ch then String c ch :: rest
          else String c "" :: ch :: rest
      | [] => [String c ""]
      end
  end.

(** [''.join(l)] *)
Fixpoint cat (l : list string) : string :=
  match l with
  | [] => EmptyString
  | x :: l' => x ++ cat l'
  end.

(** What [chars] returns is a run of code points: each is a byte with
    continuation bytes after it, and none but the first starts with a
    continuation byte. *)
Fixpoint all_continuation (s : string) : bool :=
  match s with
  | EmptyString => true
  | String c r => is_continuation c && all_continuation r
  end.

Definition proper (ch : string) : Prop :=
  match ch with
  | String _ r => all_continuation r = true
  | EmptyString => False
  end.

Inductive chunked : list string -> Prop :=
| chunked_nil : chunked []
| chunked_one (ch : string) : proper ch -> chunked [ch]
| chunked_cons (ch ch' : string) (l : list string) :
    proper ch -> starts_continuation ch' = false -> chunked (ch' :: l) ->
    chunked (ch :: ch' :: l).

(** A code point on its own, by the table of well-formed UTF-8 byte
    sequences: no byte that cannot start one, no longer form of a shorter
    one, no surrogate, nothing beyond U+10FFFF. *)
Definition valid_char (ch : string) : bool :=
  match ch with
  | String a EmptyString => (code a <? 128)%nat
  | String a (String b EmptyString) => in_range 194 223 a && is_continuation b
  | String a (String b (String c EmptyString)) =>
      is_continuation c &&
      ((code a =? 224)%nat && in_range 160 191 b
       || in_range 225 236 a && is_continuation b
       || (code a =? 237)%nat && in_range 128 159 b
       || in_range 238 239 a && is_continuation b)
  | String a (String b (String c (String d EmptyString))) =>
      is_continuation c && is_continuation d &&
      ((code a =? 240)%nat && in_range 144 191 b
       || in_range 241 243 a && is_continuation b
       || (code a =? 244)%nat && in_range 128 143 b)
  | _ => false
  end.

(** As bytes: the text decodes under [encoding="utf-8"].  As a [str]: it
    encodes, that is, it holds no surrogate. *)
Definition valid_utf8 (s : string) : bool := forallb valid_char (chars s).

(** [s.isascii()] *)
Fixpoint isascii (s : string) : bool :=
  match s with
  | EmptyString => true
  | String c r => (code c <? 128)%nat && isascii r
  end.

Definition is_char_in (points : list N) (ch : string) : bool :=
  existsb (fun cp => (ch =? utf8 cp)%string) points.

(* ================================================================== *)
(** ** The string built-ins of Python *)
(* ================================================================== *)

(** The code points [str.isspace] holds of. *)
Definition space_points : list N :=
  [9; 10; 11; 12; 13; 28; 29; 30; 31; 32; 133; 160; 5760;
   8192; 8193; 8194; 8195; 8196; 8197; 8198; 8199; 8200; 8201; 8202;
   8232; 8233; 8239; 8287; 12288]%N.

Definition isspace (ch : string) : bool := is_char_in space_points ch.

(** The line boundaries of [str.splitlines]. *)
Definition break_points : list N :=
  [10; 11; 12; 13; 28; 29; 30; 133; 8232; 8233]%N.

Definition islinebreak (ch : string) : bool := is_char_in break_points ch.

(** The first of the ten digits of each script: the code points [int] reads
    as digits are these and the nine that follow each. *)
Definition digit_zeros : list N :=
  [48; 1632; 1776; 1984; 2406; 2534; 2662; 2790; 2918; 3046; 3174; 3302;
   3430; 3558; 3664; 3792; 3872; 4160; 4240; 6112; 6160; 6470; 6608; 6784;
   6800; 6992; 7088; 7232; 7248; 42528; 43216; 43264; 43472; 43504; 43600;
   44016; 65296; 66720; 68912; 69734; 69872; 69942; 70096; 70384; 70736;
   70864; 71248; 71360; 71472; 71904; 72016; 72784; 73040; 73120; 92768;
   92864; 93008; 120782; 120792; 120802; 120812; 120822; 123200;
   123632; 125264; 130032]%N.

Definition decimal_table : list (string * N) :=
  flat_map (fun zero => map (fun k => (utf8 (zero + k), k)) [0; 1; 2; 3; 4; 5; 6; 7; 8; 9]%N)
    digit_zeros.

(** The value of a decimal digit, [None] for any other code point. *)
Definition decimal_of_char (ch : string) : option N :=
  option_map snd (find (fun entry => (fst entry =? ch)%string) decimal_table).

Fixpoint lstrip_chars (sp : string -> bool) (l : list string) : list string :=
  match l with
  | [] => []
  | ch :: r => if sp ch then lstrip_chars sp r else l
  end.

Fixpoint rstrip_chars (sp : string -> bool) (l : list string) : list string :=
  match l with
  | [] => []
  | ch :: r =>
      match rstrip_chars sp r with
      | [] => if sp ch then [] else [ch]
      | r' => ch :: r'
      end
  end.

(** [s.strip()] *)
Definition py_strip (s : string) : string :=
  cat (rstrip_chars isspace (lstrip_chars isspace (chars s))).

(** Truth value of a string: [not s] is [is_empty s]. *)
Definition is_empty (s : string) : bool :=
  match s with EmptyString => true | _ => false end.

(** [s.startswith(p)], returning what follows the prefix. *)
Fixpoint strip_prefix (p s : string) : option string :=
  match p, s with
  | EmptyString, _ => Some s
  | String a p', String b s' => if (a =? b)%char then strip_prefix p' s' else None
  | String _ _, EmptyString => None
  end.

Definition startswith (p s : string) : bool :=
  match strip_prefix p s with Some _ => true | None => false end.

(** [q in s]: [q] occurs in [s] as a substring.  An occurrence of the bytes
    of one [str] in those of another is an occurrence of its code points,
    since a code point starts with a byte that continues none. *)
Fixpoint py_in (q s : string) : bool :=
  startswith q s ||
  match s with
  | EmptyString => false
  | String _ r => py_in q r
  end.

(** [s.split(sep, 1)] when [sep] occurs: what precedes and what follows its
    first occurrence; [None] when it does not occur ([split] then returns the
    one-element list [[s]]). *)
Fixpoint py_split1 (sep s : string) : option (string * string) :=
  match strip_prefix sep s with
  | Some rest => Some (EmptyString, rest)
  | None =>
      match s with
      | EmptyString => None
      | String c r =>
          match py_split1 sep r with
          | Some (a, b) => Some (String c a, b)
          | None => None
          end
      end
  end.

Definition CR : string := String "013" "".
Definition LF : string := String "010" "".

(** The lines of a text given by its code points: a carriage return followed
    by a line feed is one boundary, and a final boundary opens no empty last
    line. *)
Fixpoint splitlines_chars (l : list string) : list string :=
  match l with
  | [] => []
  | ch :: r =>
      if islinebreak ch then
        EmptyString ::
        match r with
        | d :: r' =>
            if (ch =? CR)%string && (d =? LF)%string then splitlines_chars r'
            else splitlines_chars r
        | [] => []
        end
      else
        match splitlines_chars r with
        | [] => [ch]
        | l0 :: ls => (ch ++ l0) :: ls
        end
  end.

(** [s.splitlines()] *)
Definition py_splitlines (s : string) : list string := splitlines_chars (chars s).

(** [str(n)] for a natural number and for an integer. *)
Definition str_nat (n : nat) : string := NilEmpty.string_of_uint (Nat.to_uint n).
Definition str_Z (z : Z) : string := NilZero.string_of_int (Z.to_int z).

Definition isdigit (c : ascii) : bool := in_range 48 57 c.

(** What [int] makes of a code point before it reads the literal: an ASCII
    character stays; beyond ASCII, white space becomes a blank, a decimal
    digit the ASCII digit of its value, and anything else a question mark,
    which no literal holds. *)
Definition ascii_of_char (ch : string) : ascii :=
  match ch with
  | String c EmptyString => if (code c <? 128)%nat then c else "?"%char
  | _ =>
      if isspace ch then " "%char
      else
        match decimal_of_char ch with
        | Some d => byte (48 + d)
        | None => "?"%char
        end
  end.

Definition int_text (s : string) : string :=
  string_of_list_ascii (map ascii_of_char (chars s)).

(** The white space [int] skips around an ASCII literal. *)
Definition isspace_int (c : ascii) : bool :=
  in_range 9 13 c || (code c =? 32)%nat.

Fixpoint lstrip_with (sp : ascii -> bool) (s : string) : string :=
  match s with
  | EmptyString => EmptyString
  | String c r => if sp c then lstrip_with sp r else s
  end.

Fixpoint rstrip_with (sp : ascii -> bool) (s : string) : string :=
  match s with
  | EmptyString => EmptyString
  | String c r =>
      match rstrip_with sp r with
      | EmptyString => if sp c then EmptyString else String c EmptyString
      | r' => String c r'
      end
  end.

(** Decimal digits, with the single underscores [int] allows between them:
    [int_digits acc prev_digit s]. *)
Fixpoint int_digits (acc : Z) (after_digit : bool) (s : string) : option Z :=
  match s with
  | EmptyString => if after_digit then Some acc else None
  | String c r =>
      if isdigit c then int_digits (10 * acc + Z.of_nat (code c - 48)) true r
      else if (code c =? 95)%nat && after_digit then
        match r with
        | String d _ => if isdigit d then int_digits acc false r else None
        | EmptyString => None
        end
      else None
  end.

Fixpoint count_digits (s : string) : nat :=
  match s with
  | EmptyString => 0
  | String c r => (if isdigit c then 1 else 0) + count_digits r
  end.

(** [sys.get_int_max_str_digits()], as the interpreter starts. *)
Definition max_str_digits : nat := 4300.

(** [int(s)]: [None] stands for [ValueError], which a literal of more than
    [max_str_digits] digits raises as well. *)
Definition py_int (s : string) : option Z :=
  let text := rstrip_with isspace_int (lstrip_with isspace_int (int_text s)) in
  if (max_str_digits <? count_digits text)%nat then None
  else
    match text with
    | String c r =>
        if (code c =? 45)%nat then option_map Z.opp (int_digits 0 false r)
        else if (code c =? 43)%nat then int_digits 0 false r
        else int_digits 0 false (String c r)
    | EmptyString => None
    end.

(* ================================================================== *)
(** ** JSON values as the [json] module of Python sees them *)
(* ================================================================== *)

(** A float is kept as the class Python puts its literal in: the decimal
    [m * 10^e] stands for the double nearest to it. *)
Inductive pyfloat : Type :=
| FNaN
| FInf (neg : bool)
| FZero (neg : bool)
| FDec (neg : bool) (m : N) (e : Z).

(** A [dict] keeps its keys in insertion order. *)
Inductive json : Type :=
| JNull
| JBool (b : bool)
| JInt (z : Z)
| JFloat (f : pyfloat)
| JStr (s : string)
| JList (l : list json)
| JDict (d : list (string * json)).

(** [d[k] = v]: a key already present keeps its place. *)
Fixpoint dict_set (d : list (string * json)) (k : string) (v : json)
  : list (string * json) :=
  match d with
  | [] => [(k, v)]
  | (k', v') :: d' => if (k' =? k)%string then (k, v) :: d' else (k', v') :: dict_set d' k v
  end.

Fixpoint dict_lookup (d : list (string * json)) (k : string) : option json :=
  match d with
  | [] => None
  | (k', v) :: d' => if (k' =? k)%string then Some v else dict_lookup d' k
  end.

(** [item.get(k)]: [None] of Python, here [JNull], when the key is absent. *)
Definition dict_get (d : list (string * json)) (k : string) : json :=
  match dict_lookup d k with
  | Some v => v
  | None => JNull
  end.

(** Truth value testing. *)
Definition truthy (v : json) : bool :=
  match v with
  | JNull => false
  | JBool b => b
  | JInt z => negb (z =? 0)%Z
  | JFloat (FZero _) => false
  | JFloat _ => true
  | JStr s => negb (is_empty s)
  | JList l => match l with [] => false | _ => true end
  | JDict d => match d with [] => false | _ => true end
  end.

(** [a or b] *)
Definition py_or (a b : json) : json := if truthy a then a else b.

(** *** The float a decimal literal denotes *)

(** Half of the least positive double is [2^-1075]; what does not exceed it
    rounds to zero.  Half way from the greatest double to [2^1024] is
    [2^1024 - 2^970]; what reaches it rounds to infinity. *)
Definition float_of_decimal (neg : bool) (m : N) (e : Z) : pyfloat :=
  let mz := Z.of_N m in
  let top := (2 ^ 1024 - 2 ^ 970)%Z in
  if (0 <=? e)%Z then
    if (mz =? 0)%Z then FZero neg
    else if (top <=? mz * 10 ^ e)%Z then FInf neg
    else FDec neg m e
  else
    if (mz * 2 ^ 1075 <=? 10 ^ (- e))%Z then FZero neg
    else if (top * 10 ^ (- e) <=? mz)%Z then FInf neg
    else FDec neg m e.

(** *** The text [json.dumps(v, indent=2, ensure_ascii=False)] writes:
    string literals, indentation, separators *)

Definition quote : ascii := "034".
Definition backslash : ascii := "\".

Definition hexdigit (n : nat) : ascii :=
  if (n <? 10)%nat then ascii_of_nat (48 + n) else ascii_of_nat (87 + n).

(** One character of a string literal: the quote, the backslash and the
    control characters are escaped, everything else is written as it is (so
    the bytes of a code point beyond ASCII are). *)
Definition escape_char (c : ascii) : string :=
  if (c =? quote)%char then String backslash (String quote "")
  else if (c =? backslash)%char then String backslash (String backslash "")
  else if (code c =? 10)%nat then String backslash "n"
  else if (code c =? 13)%nat then String backslash "r"
  else if (code c =? 9)%nat then String backslash "t"
  else if (code c =? 8)%nat then String backslash "b"
  else if (code c =? 12)%nat then String backslash "f"
  else if (code c <? 32)%nat then
    String backslash ("u00" ++ String (hexdigit (code c / 16)) (String (hexdigit (code c mod 16)) ""))
  else String c "".

Fixpoint escape (s : string) : string :=
  match s with
  | EmptyString => EmptyString
  | String c r => escape_char c ++ escape r
  end.

Definition encode_string (s : string) : string :=
  String quote (escape s ++ String quote "").

Fixpoint spaces (n : nat) : string :=
  match n with
  | O => EmptyString
  | S n' => String " " (spaces n')
  end.

Definition newline_indent (level : nat) : string :=
  String "010" (spaces (2 * level)).

Fixpoint join (sep : string) (l : list string) : string :=
  match l with
  | [] => EmptyString
  | [x] => x
  | x :: l' => x ++ sep ++ join sep l'
  end.

(** *** Parsing: [json.loads(s)] *)

(** Why the scanner gives up: the text is no JSON ([JSONDecodeError]); an
    integer literal has more digits than [int] converts ([ValueError]); the
    values are nested deeper than the interpreter follows
    ([RecursionError]).  [NoFuel] belongs to the embedding and never comes
    out of [json_loads] ([json_loads_has_fuel] below). *)
Inductive scan_error : Type :=
| Malformed
| IntTooLong (digits : nat)
| TooDeep (in_object : bool)
| NoFuel.

(** What a scanner returns: a value and the text that follows it, or an
    error. *)
Inductive scanned (A : Type) : Type :=
| Scanned (a : A) (rest : string)
| Failed (e : scan_error).

Arguments Scanned {A} a rest.
Arguments Failed {A} e.

Definition is_json_ws (c : ascii) : bool :=
  (code c =? 32)%nat || (code c =? 9)%nat || (code c =? 10)%nat || (code c =? 13)%nat.

Definition skip_ws (s : string) : string := lstrip_with is_json_ws s.

Definition hexval (c : ascii) : option N :=
  if in_range 48 57 c then Some (N.of_nat (code c - 48))
  else if in_range 97 102 c then Some (N.of_nat (code c - 87))
  else if in_range 65 70 c then Some (N.of_nat (code c - 55))
  else None.

Definition hex4 (a b c d : ascii) : option N :=
  match hexval a, hexval b, hexval c, hexval d with
  | Some x, Some y, Some z, Some w => Some (((x * 16 + y) * 16 + z) * 16 + w)%N
  | _, _, _, _ => None
  end.

Definition is_high_surrogate (cp : N) : bool := ((55296 <=? cp) && (cp <=? 56319))%N.
Definition is_low_surrogate (cp : N) : bool := ((56320 <=? cp) && (cp <=? 57343))%N.
Definition join_surrogates (hi lo : N) : N :=
  (65536 + (hi - 55296) * 1024 + (lo - 56320))%N.

Definition simple_escape (e : ascii) : option ascii :=
  if (e =? quote)%char then Some quote
  else if (e =? backslash)%char then Some backslash
  else if (e =? "/")%char then Some "/"%char
  else if (e =? "b")%char then Some "008"%char
  else if (e =? "f")%char then Some "012"%char
  else if (e =? "n")%char then Some "010"%char
  else if (e =? "r")%char then Some "013"%char
  else if (e =? "t")%char then Some "009"%char
  else None.

Definition prepend (p : string) (r : option (string * string)) : option (string * string) :=
  match r with
  | Some (s, rest) => Some (p ++ s, rest)
  | None => None
  end.

(** The body of a string literal, after its opening quote: the decoded string
    and what follows the closing quote; [None] when the literal is
    malformed.  An escaped surrogate followed by an escaped low surrogate is
    the code point the pair stands for; one that stands alone stays. *)
Fixpoint scan_string (s : string) : option (string * string) :=
  match s with
  | EmptyString => None
  | String c r =>
      if (c =? quote)%char then Some (EmptyString, r)
      else if (c =? backslash)%char then
        match r with
        | EmptyString => None
        | String e r1 =>
            if (e =? "u")%char then
              match r1 with
              | String h1 (String h2 (String h3 (String h4 r5))) =>
                  match hex4 h1 h2 h3 h4 with
                  | None => None
                  | Some hi =>
                      if is_high_surrogate hi then
                        match r5 with
                        | String b (String u (String l1 (String l2 (String l3 (String l4 r11))))) =>
                            if (b =? backslash)%char && (u =? "u")%char then
                              match hex4 l1 l2 l3 l4 with
                              | None => None
                              | Some lo =>
                                  if is_low_surrogate lo
                                  then prepend (utf8 (join_surrogates hi lo)) (scan_string r11)
                                  else prepend (utf8 hi) (scan_string r5)
                              end
                            else prepend (utf8 hi) (scan_string r5)
                        | _ => prepend (utf8 hi) (scan_string r5)
                        end
                      else prepend (utf8 hi) (scan_string r5)
                  end
              | _ => None
              end
            else
              match simple_escape e with
              | Some ch => prepend (String ch "") (scan_string r1)
              | None => None
              end
        end
      else if (code c <? 32)%nat then None
      else prepend (String c "") (scan_string r)
  end.

Fixpoint span_digits (s : string) : string * string :=
  match s with
  | EmptyString => (EmptyString, EmptyString)
  | String c r =>
      if isdigit c then let '(d, r') := span_digits r in (String c d, r')
      else (EmptyString, s)
  end.

Fixpoint digits_value (acc : N) (d : string) : N :=
  match d with
  | EmptyString => acc
  | String c r => digits_value (10 * acc + N.of_nat (code c - 48)) r
  end.

Definition signed (neg : bool) (z : Z) : Z := if neg then (- z)%Z else z.

(** The pieces of a number: an optional minus sign; a zero, or a digit string
    that does not start with one; an optional fraction, a dot and digits; an
    optional exponent, [e] or [E], an optional sign and digits.  A piece that
    does not match takes nothing. *)
Definition scan_sign (s : string) : bool * string :=
  match s with
  | String c r => if (c =? "-")%char then (true, r) else (false, s)
  | EmptyString => (false, s)
  end.

Definition scan_int_part (s : string) : option (string * string) :=
  match s with
  | String c r =>
      if isdigit c then
        Some (if (c =? "0")%char then (String c EmptyString, r) else span_digits s)
      else None
  | EmptyString => None
  end.

Definition scan_frac (s : string) : string * string :=
  match s with
  | String p t =>
      if (p =? ".")%char then
        let '(fd, t') := span_digits t in
        if is_empty fd then (EmptyString, s) else (fd, t')
      else (EmptyString, s)
  | EmptyString => (EmptyString, s)
  end.

Definition scan_exp (s : string) : option Z * string :=
  match s with
  | String p t =>
      if (p =? "e")%char || (p =? "E")%char then
        let '(eneg, t1) :=
          match t with
          | String g t0 =>
              if (g =? "-")%char then (true, t0)
              else if (g =? "+")%char then (false, t0)
              else (false, t)
          | EmptyString => (false, t)
          end in
        let '(ed, t2) := span_digits t1 in
        if is_empty ed then (None, s)
        else (Some (signed eneg (Z.of_N (digits_value 0 ed))), t2)
      else (None, s)
  | EmptyString => (None, s)
  end.

(** A number: an [int] when it has neither fraction nor exponent, made by
    [int] of its text and so within [max_str_digits] digits; a [float]
    otherwise. *)
Definition scan_number (s : string) : scanned json :=
  let '(neg, s1) := scan_sign s in
  match scan_int_part s1 with
  | Some (ip, s2) =>
      let '(frac, s3) := scan_frac s2 in
      let '(ex, s4) := scan_exp s3 in
      match is_empty frac, ex with
      | true, None =>
          if (max_str_digits <? String.length ip)%nat
          then Failed (IntTooLong (String.length ip))
          else Scanned (JInt (signed neg (Z.of_N (digits_value 0 ip)))) s4
      | _, _ =>
          let e := match ex with Some x => x | None => 0%Z end in
          Scanned (JFloat (float_of_decimal neg (digits_value 0 (ip ++ frac))
                             (e - Z.of_nat (String.length frac)))) s4
      end
  | None => Failed Malformed
  end.

Definition keyword (k : string) (v : json) (s : string) : scanned json :=
  match strip_prefix k s with
  | Some rest => Scanned v rest
  | None => Failed Malformed
  end.

(** The recursive descent of the scanner.  [depth] is the number of arrays
    and objects it may still enter, one inside the other.  [fuel] makes the
    recursion structural: twice the characters of the text are more than it
    uses ([parse_has_fuel] below). *)
Fixpoint parse_value (fuel depth : nat) (s : string) {struct fuel} : scanned json :=
  match fuel with
  | O => Failed NoFuel
  | S fuel' =>
      match s with
      | EmptyString => Failed Malformed
      | String c r =>
          if (c =? quote)%char then
            match scan_string r with
            | Some (x, rest) => Scanned (JStr x) rest
            | None => Failed Malformed
            end
          else if (c =? "{")%char then
            match depth with
            | O => Failed (TooDeep true)
            | S depth' =>
                match skip_ws r with
                | String c' r' =>
                    if (c' =? "}")%char then Scanned (JDict []) r'
                    else
                      match parse_members fuel' depth' (String c' r') with
                      | Scanned kvs rest =>
                          Scanned
                            (JDict (fold_left (fun d kv => dict_set d (fst kv) (snd kv)) kvs []))
                            rest
                      | Failed e => Failed e
                      end
                | EmptyString => Failed Malformed
                end
            end
          else if (c =? "[")%char then
            match depth with
            | O => Failed (TooDeep false)
            | S depth' =>
                match skip_ws r with
                | String c' r' =>
                    if (c' =? "]")%char then Scanned (JList []) r'
                    else
                      match parse_elements fuel' depth' (String c' r') with
                      | Scanned vs rest => Scanned (JList vs) rest
                      | Failed e => Failed e
                      end
                | EmptyString => Failed Malformed
                end
            end
          else if (c =? "n")%char then keyword "null" JNull s
          else if (c =? "t")%char then keyword "true" (JBool true) s
          else if (c =? "f")%char then keyword "false" (JBool false) s
          else if (c =? "N")%char then keyword "NaN" (JFloat FNaN) s
          else if (c =? "I")%char then keyword "Infinity" (JFloat (FInf false)) s
          else if startswith "-Infinity" s then keyword "-Infinity" (JFloat (FInf true)) s
          else scan_number s
      end
  end

(** The elements of an array after its bracket, up to the closing one. *)
with parse_elements (fuel depth : nat) (s : string) {struct fuel}
  : scanned (list json) :=
  match fuel with
  | O => Failed NoFuel
  | S fuel' =>
      match parse_value fuel' depth s with
      | Scanned v rest =>
          match skip_ws rest with
          | String c r =>
              if (c =? "]")%char then Scanned [v] r
              else if (c =? ",")%char then
                match parse_elements fuel' depth (skip_ws r) with
                | Scanned vs rest' => Scanned (v :: vs) rest'
                | Failed e => Failed e
                end
              else Failed Malformed
          | EmptyString => Failed Malformed
          end
      | Failed e => Failed e
      end
  end

(** The members of an object after its brace, up to the closing one. *)
with parse_members (fuel depth : nat) (s : string) {struct fuel}
  : scanned (list (string * json)) :=
  match fuel with
  | O => Failed NoFuel
  | S fuel' =>
      match s with
      | String q r =>
          if (q =? quote)%char then
            match scan_string r with
            | Some (k, rest) =>
                match skip_ws rest with
                | String c r1 =>
                    if (c =? ":")%char then
                      match parse_value fuel' depth (skip_ws r1) with
                      | Scanned v rest1 =>
                          match skip_ws rest1 with
                          | String c2 r2 =>
                              if (c2 =? "}")%char then Scanned [(k, v)] r2
                              else if (c2 =? ",")%char then
                                match parse_members fuel' depth (skip_ws r2) with
                                | Scanned kvs rest2 => Scanned ((k, v) :: kvs) rest2
                                | Failed e => Failed e
                                end
                              else Failed Malformed
                          | EmptyString => Failed Malformed
                          end
                      | Failed e => Failed e
                      end
                    else Failed Malformed
                | EmptyString => Failed Malformed
                end
            | None => Failed Malformed
            end
          else Failed Malformed
      | EmptyString => Failed Malformed
      end
  end.

(** The scanner on a whole text, entering at most [limit] arrays and objects
    one inside the other: white space may surround the value and nothing
    else may follow it. *)
Definition scan_text (limit : nat) (s : string) : json + scan_error :=
  match parse_value (S (2 * String.length s)) limit (skip_ws s) with
  | Scanned v rest => if is_empty (skip_ws rest) then inl v else inr Malformed
  | Failed e => inr e
  end.
(* ================================================================== *)
(** ** The host: backing file, message boxes, standard output *)
(* ================================================================== *)

Inductive dialog : Type :=
| ShowError (title msg : string)
| ShowWarning (title msg : string)
| ShowInfo (title msg : string)
| AskYesNo (title msg : string).

(** [file] is what [songs.json] holds, [None] while the file is absent.
    [read_error] and [write_error] hold the error the host answers when the
    file is opened for reading or for writing, [None] when it lets it be
    opened.  [stdout] holds the texts printed, one for each call of
    [print]. *)
Record world : Type := mkWorld {
  file : option string;
  read_error : option string;
  write_error : option string;
  dialogs : list dialog;
  stdout : list string
}.

Inductive exn : Type :=
| OSError (msg : string)
| JSONDecodeError (msg : string)
| ValueError (msg : string)
| IndexError (msg : string)
| UnicodeEncodeError (msg : string)
| UnicodeDecodeError (msg : string)
| RecursionError (msg : string).

(** [str(e)] *)
Definition exn_str (e : exn) : string :=
  match e with
  | OSError m | JSONDecodeError m | ValueError m | IndexError m
  | UnicodeEncodeError m | UnicodeDecodeError m | RecursionError m => m
  end.

(** [JSONDecodeError], [UnicodeEncodeError] and [UnicodeDecodeError] are
    subclasses of [ValueError]. *)
Definition is_ValueError (e : exn) : bool :=
  match e with
  | ValueError _ | JSONDecodeError _ | UnicodeEncodeError _ | UnicodeDecodeError _ => true
  | _ => false
  end.

Inductive result (A : Type) : Type :=
| Returned (a : A)
| Raised (e : exn).

Arguments Returned {A} a.
Arguments Raised {A} e.

(** A computation of the program: it reads and changes the world and either
    returns or raises. *)
Definition M (A : Type) : Type := world -> result A * world.

Definition ret {A : Type} (a : A) : M A := fun w => (Returned a, w).

Definition raise {A : Type} (e : exn) : M A := fun w => (Raised e, w).

Definition bind {A B : Type} (c : M A) (k : A -> M B) : M B :=
  fun w =>
    match c w with
    | (Returned a, w') => k a w'
    | (Raised e, w') => (Raised e, w')
    end.

(** [try: c  except Exception as e: h e] *)
Definition try_except {A : Type} (c : M A) (h : exn -> M A) : M A :=
  fun w =>
    match c w with
    | (Returned a, w') => (Returned a, w')
    | (Raised e, w') => h e w'
    end.

(** [try: c  except ValueError: h] *)
Definition try_except_ValueError {A : Type} (c : M A) (h : M A) : M A :=
  fun w =>
    match c w with
    | (Returned a, w') => (Returned a, w')
    | (Raised e, w') => if is_ValueError e then h w' else (Raised e, w')
    end.

Notation "x <- c ;; k" := (bind c (fun x => k))
  (at level 61, c at next level, right associativity).
Notation "c ;; k" := (bind c (fun _ => k))
  (at level 61, right associativity).

Definition SONGS_FILE : string := "songs.json".

(** [os.path.exists(SONGS_FILE)] *)
Definition path_exists : M bool :=
  fun w => (Returned (match file w with Some _ => true | None => false end), w).

(** The chunks that reach the file: those before the first that does not
    encode. *)
Fixpoint encodable_chunks (chunks : list string) : list string :=
  match chunks with
  | [] => []
  | x :: r => if valid_utf8 x then x :: encodable_chunks r else []
  end.

(** [with open(SONGS_FILE, "w", encoding="utf-8") as f:] and then
    [f.write(chunk)] for each chunk in turn.  Opening the file empties it.
    A chunk that holds a surrogate does not encode: its [write] raises, and
    the file is closed holding the chunks written before it.  The wording of
    the error is not kept. *)
Definition write_chunks (chunks : list string) : M unit :=
  fun w =>
    match write_error w with
    | Some msg => (Raised (OSError msg), w)
    | None =>
        let w' :=
          mkWorld (Some (cat (encodable_chunks chunks)))
            (read_error w) (write_error w) (dialogs w) (stdout w) in
        if forallb valid_utf8 chunks then (Returned tt, w')
        else (Raised (UnicodeEncodeError "surrogates not allowed"), w')
    end.

(** [with open(SONGS_FILE, "r", encoding="utf-8") as f: f.read()]: bytes that
    are not well-formed UTF-8 do not decode.  The wording of the error is not
    kept. *)
Definition read_text : M string :=
  fun w =>
    match read_error w, file w with
    | Some msg, _ => (Raised (OSError msg), w)
    | None, Some bytes =>
        if valid_utf8 bytes then (Returned bytes, w)
        else (Raised (UnicodeDecodeError "invalid start byte"), w)
    | None, None => (Raised (OSError "No such file or directory"), w)
    end.

Definition show (d : dialog) : M unit :=
  fun w =>
    (Returned tt,
     mkWorld (file w) (read_error w) (write_error w) (dialogs w ++ [d]) (stdout w)).

Definition showerror (title msg : string) : M unit := show (ShowError title msg).
Definition showwarning (title msg : string) : M unit := show (ShowWarning title msg).
Definition showinfo (title msg : string) : M unit := show (ShowInfo title msg).

(** [messagebox.askyesno(title, msg)], the user answering [answer]. *)
Definition askyesno (title msg : string) (answer : bool) : M bool :=
  show (AskYesNo title msg) ;; ret answer.

(* ================================================================== *)
(** ** The part of the runtime that is a parameter *)
(* ================================================================== *)

(** What the development takes from the interpreter as it finds it:
    - [py_repr]: [repr] on the values whose text is not computed here, floats
      that are finite and not zero, lists and dicts;
    - [py_lower]: [str.lower], the case mapping of the Unicode database;
    - [stdout_encodes]: whether the encoding of the standard output has the
      text (asked only of text that is not ASCII);
    - [spare_depth]: how many arrays and objects, one inside the other,
      [json.load] can enter beyond the two of a catalog before the recursion
      limit stops it. *)
Record runtime : Type := mkRuntime {
  py_repr : json -> string;
  py_lower : string -> string;
  stdout_encodes : string -> bool;
  spare_depth : nat
}.

(** [str.lower] on ASCII text: the letters A to Z become a to z. *)
Definition lower_char (c : ascii) : ascii :=
  if in_range 65 90 c then ascii_of_nat (code c + 32) else c.

Fixpoint ascii_lower (s : string) : string :=
  match s with
  | EmptyString => EmptyString
  | String c r => String (lower_char c) (ascii_lower r)
  end.

(** The runtime of the closed examples at the end of the file: CPython 3.11
    as it starts, on a terminal in UTF-8, as far as the examples go.  They
    lower-case ASCII text only, where [str.lower] is [ascii_lower], and none
    reaches a value whose text [repr] would have to give.  With the recursion
    limit of 1000, [json.load] called from [load_songs] enters 992 arrays and
    objects. *)
Definition example_runtime : runtime :=
  mkRuntime (fun _ => EmptyString) ascii_lower valid_utf8 990.

Section Runtime.

Variable py : runtime.

(** [print(text)]: the text goes to the standard output in the encoding of
    the stream, and a text the stream cannot encode raises.  ASCII text is
    taken to encode on any stream.  The wording of the error is not kept. *)
Definition can_print (text : string) : bool :=
  isascii text || stdout_encodes py text.

Definition print (text : string) : M unit :=
  fun w =>
    if can_print text then
      (Returned tt,
       mkWorld (file w) (read_error w) (write_error w) (dialogs w) (stdout w ++ [text]))
    else (Raised (UnicodeEncodeError "character maps to <undefined>"), w).

(** [repr(f)] of a float. *)
Definition float_repr (f : pyfloat) : string :=
  match f with
  | FNaN => "nan"
  | FInf false => "inf"
  | FInf true => "-inf"
  | FZero false => "0.0"
  | FZero true => "-0.0"
  | FDec _ _ _ => py_repr py (JFloat f)
  end.

(** [str(v)] *)
Definition py_str (v : json) : string :=
  match v with
  | JStr s => s
  | JNull => "None"
  | JBool true => "True"
  | JBool false => "False"
  | JInt z => str_Z z
  | JFloat f => float_repr f
  | JList _ | JDict _ => py_repr py v
  end.

(** A float in a JSON text: [repr] but for the three that JSON names. *)
Definition encode_float (f : pyfloat) : string :=
  match f with
  | FNaN => "NaN"
  | FInf false => "Infinity"
  | FInf true => "-Infinity"
  | _ => float_repr f
  end.

Fixpoint encode (level : nat) (v : json) : string :=
  match v with
  | JNull => "null"
  | JBool true => "true"
  | JBool false => "false"
  | JInt z => str_Z z
  | JFloat f => encode_float f
  | JStr s => encode_string s
  | JList [] => "[]"
  | JList l =>
      "[" ++ newline_indent (S level)
          ++ join ("," ++ newline_indent (S level)) (map (encode (S level)) l)
          ++ newline_indent level ++ "]"
  | JDict [] => "{}"
  | JDict d =>
      "{" ++ newline_indent (S level)
          ++ join ("," ++ newline_indent (S level))
               (map (fun kv => let '(k, x) := kv in
                               encode_string k ++ ": " ++ encode (S level) x) d)
          ++ newline_indent level ++ "}"
  end.

(** [json.dumps(v, indent=2, ensure_ascii=False)] *)
Definition json_dumps (v : json) : string := encode 0 v.

(** The text of a value that is neither an array nor an object. *)
Definition encode_scalar (v : json) : string :=
  match v with
  | JList _ | JDict _ => EmptyString
  | _ => encode 0 v
  end.

(** The chunks [json.dump(v, f, indent=2, ensure_ascii=False)] writes, as
    the generator of the encoder yields them: in an array the bracket or the
    comma, with the line break and the indentation, comes in one chunk with
    the item that follows when that item is neither an array nor an object;
    in an object the brace, the indentation, the comma, each key, the colon
    and each value that is neither an array nor an object are chunks of
    their own. *)
Fixpoint iterencode (level : nat) (v : json) : list string :=
  match v with
  | JList [] => ["[]"]
  | JList (x :: l) =>
      let item (buf : string) (y : json) : list string :=
        match y with
        | JList _ | JDict _ => buf :: iterencode (S level) y
        | _ => [buf ++ encode_scalar y]
        end in
      (item ("[" ++ newline_indent (S level))%string x
       ++ flat_map (item ("," ++ newline_indent (S level))%string) l
       ++ [newline_indent level; "]"])%list
  | JDict [] => ["{}"]
  | JDict (kx :: d) =>
      let member (kv : string * json) : list string :=
        encode_string (fst kv) :: ": " :: iterencode (S level) (snd kv) in
      ("{" :: newline_indent (S level) :: member kx
       ++ flat_map (fun kv => ("," ++ newline_indent (S level))%string :: member kv) d
       ++ [newline_indent level; "}"])%list
  | _ => [encode_scalar v]
  end.

(** [json.dump(v, f, indent=2, ensure_ascii=False)] on the backing file. *)
Definition json_dump (v : json) : M unit := write_chunks (iterencode 0 v).

(** [json.loads(s)] as [load_songs] reaches it. *)
Definition json_loads (s : string) : json + scan_error :=
  scan_text (S (S (spare_depth py))) s.

(** The exception the scanner's giving up is.  The wording of
    [JSONDecodeError] is not kept. *)
Definition scan_exn (e : scan_error) : exn :=
  match e with
  | IntTooLong n =>
      ValueError
        ("Exceeds the limit (4300 digits) for integer string conversion: value has "
         ++ str_nat n ++ " digits; use sys.set_int_max_str_digits() to increase the limit")
  | TooDeep true =>
      RecursionError
        "maximum recursion depth exceeded while decoding a JSON object from a unicode string"
  | TooDeep false =>
      RecursionError
        "maximum recursion depth exceeded while decoding a JSON array from a unicode string"
  | Malformed | NoFuel => JSONDecodeError "Expecting value"
  end.

(** [json.load(f)] on the backing file. *)
Definition json_load : M json :=
  text <- read_text ;;
  match json_loads text with
  | inl v => ret v
  | inr e => raise (scan_exn e)
  end.

(* ================================================================== *)
(** ** The storage adapter *)
(* ================================================================== *)

(** A song in memory is always the dict [{"title": t, "number": n}] of two
    strings. *)
Record song : Type := mkSong { title : string; number : string }.

Definition song_eqb (a b : song) : bool :=
  (title a =? title b)%string && (number a =? number b)%string.

Definition song_json (s : song) : json :=
  JDict [("title", JStr (title s)); ("number", JStr (number s))].

(** The body of the [for item in data] loop of [load_songs]. *)
Definition normalize_item (normalized : list song) (item : json) : list song :=
  match item with
  | JDict d =>
      let title := py_or (py_or (dict_get d "title") (dict_get d "name")) (JStr "") in
      let number := py_or (py_or (dict_get d "number") (dict_get d "num")) (JStr "") in
      (normalized ++ [mkSong (py_str title) (py_str number)])%list
  | JStr s => (normalized ++ [mkSong s ""])%list
  | _ => normalized
  end.

(** The missing file is created by [json.dump([], f, indent=2)], whose one
    chunk is the same under either setting of [ensure_ascii]. *)
Definition load_songs : M (list song) :=
  ex <- path_exists ;;
  if negb ex then
    json_dump (JList []) ;;
    ret []
  else
    try_except
      (data <- json_load ;;
       match data with
       | JList items => ret (fold_left normalize_item items [])
       | _ => ret []
       end)
      (fun e =>
         showerror "Error" ("Failed to load " ++ SONGS_FILE ++ ": " ++ exn_str e) ;;
         ret []).

Definition save_songs (songs : list song) : M unit :=
  try_except
    (json_dump (JList (map song_json songs)))
    (fun e => showerror "Error" ("Failed to save " ++ SONGS_FILE ++ ": " ++ exn_str e)).

(* ================================================================== *)
(** ** The entry form *)
(* ================================================================== *)

(** What the user does with the form: closes it, or confirms it with the two
    entries holding these texts. *)
Inductive form_input : Type :=
| Cancel
| Submit (title_var num_var : string).

(** [AddEditDialog.apply]: the [result] of the dialog. *)
Definition AddEditDialog_apply (title_var num_var : string) : M (option song) :=
  let title := py_strip title_var in
  let number := py_strip num_var in
  if is_empty title then
    showwarning "Validation" "Title cannot be empty" ;;
    ret None
  else ret (Some (mkSong title number)).

(** [AddEditDialog(...)].result: [None] unless the form is confirmed. *)
Definition AddEditDialog (user : form_input) : M (option song) :=
  match user with
  | Cancel => ret None
  | Submit title_var num_var => AddEditDialog_apply title_var num_var
  end.

(* ================================================================== *)
(** ** The catalog editor *)
(* ================================================================== *)

Record SongApp : Type := mkSongApp {
  songs : list song;
  filtered : list song;
  search_var : string;
  listbox : list string;
  total_lbl : string
}.

Definition _format_item (s : song) : string :=
  let num := number s in
  if negb (is_empty num) then title s ++ " — " ++ num
  else title s.

Definition _refresh_list (app : SongApp) : SongApp :=
  mkSongApp (songs app) (filtered app) (search_var app)
    (map _format_item (filtered app))
    (str_nat (length (filtered app))).

Definition _on_search (app : SongApp) : SongApp :=
  let q := py_strip (py_lower py (search_var app)) in
  let filtered' :=
    if is_empty q then songs app
    else filter (fun s => py_in q (py_lower py (title s)) || py_in q (py_lower py (number s)))
           (songs app) in
  _refresh_list
    (mkSongApp (songs app) filtered' (search_var app) (listbox app) (total_lbl app)).

(** The user types [text] in the search box; the trace on the variable runs
    [_on_search]. *)
Definition type_search (text : string) (app : SongApp) : SongApp :=
  _on_search (mkSongApp (songs app) (filtered app) text (listbox app) (total_lbl app)).

Definition set_songs (l : list song) (app : SongApp) : SongApp :=
  mkSongApp l (filtered app) (search_var app) (listbox app) (total_lbl app).

Definition _auto_save (app : SongApp) : M unit :=
  try_except (save_songs (songs app)) (fun _ => ret tt).

Definition SongApp_init : M SongApp :=
  songs <- load_songs ;;
  ret (_refresh_list (mkSongApp songs songs "" [] "0")).

Definition _on_add (user : form_input) (app : SongApp) : M SongApp :=
  result <- AddEditDialog user ;;
  match result with
  | Some r =>
      let app1 := _on_search (set_songs (songs app ++ [r]) app) in
      _auto_save app1 ;;
      ret app1
  | None => ret app
  end.

(** [l.index(x)] *)
Fixpoint index_of (x : song) (l : list song) : option nat :=
  match l with
  | [] => None
  | y :: l' => if song_eqb y x then Some 0 else option_map S (index_of x l')
  end.

(** [sel] is the row selected in the list box, if any. *)
Definition _selected_index (sel : option nat) (app : SongApp) : M (option nat) :=
  match sel with
  | None => ret None
  | Some idx =>
      match nth_error (filtered app) idx with
      | None => raise (IndexError "list index out of range")
      | Some item =>
          match index_of item (songs app) with
          | Some real_idx => ret (Some real_idx)
          | None => ret None
          end
      end
  end.

(** [l[i] = x] *)
Fixpoint set_nth (i : nat) (x : song) (l : list song) : list song :=
  match l, i with
  | [], _ => []
  | _ :: l', O => x :: l'
  | y :: l', S i' => y :: set_nth i' x l'
  end.

(** [del l[i]] *)
Fixpoint del_nth (i : nat) (l : list song) : list song :=
  match l, i with
  | [], _ => []
  | _ :: l', O => l'
  | y :: l', S i' => y :: del_nth i' l'
  end.

Definition _on_edit (sel : option nat) (user : form_input) (app : SongApp) : M SongApp :=
  real_idx <- _selected_index sel app ;;
  match real_idx with
  | None =>
      showinfo "Edit" "Select a song to edit (double-click or select + Edit)" ;;
      ret app
  | Some i =>
      match nth_error (songs app) i with
      | None => raise (IndexError "list index out of range")
      | Some _ =>
          result <- AddEditDialog user ;;
          match result with
          | Some r =>
              let app1 := _on_search (set_songs (set_nth i r (songs app)) app) in
              _auto_save app1 ;;
              ret app1
          | None => ret app
          end
      end
  end.

Definition _on_delete (sel : option nat) (confirm : bool) (app : SongApp) : M SongApp :=
  real_idx <- _selected_index sel app ;;
  match real_idx with
  | None =>
      showinfo "Delete" "Select a song to delete" ;;
      ret app
  | Some i =>
      match nth_error (songs app) i with
      | None => raise (IndexError "list index out of range")
      | Some s =>
          yes <- askyesno "Delete" ("Delete '" ++ title s ++ "'?") confirm ;;
          if yes then
            let app1 := _on_search (set_songs (del_nth i (songs app)) app) in
            _auto_save app1 ;;
            ret app1
          else ret app
      end
  end.

Definition _on_save (app : SongApp) : M unit :=
  save_songs (songs app) ;;
  showinfo "Save"
    ("Saved " ++ str_nat (length (songs app)) ++ " songs to " ++ SONGS_FILE).

(** The body of the [for line in text.splitlines()] loop of [_on_import]. *)
Definition import_line (new : list song) (line : string) : M (list song) :=
  let line := py_strip line in
  if is_empty line then ret new
  else if py_in " - " line then
    match py_split1 " - " line with
    | Some (title, num) => ret (new ++ [mkSong (py_strip title) (py_strip num)])%list
    | None => raise (ValueError "not enough values to unpack (expected 2, got 1)")
    end
  else ret (new ++ [mkSong line ""])%list.

Fixpoint for_each {A B : Type} (body : B -> A -> M B) (l : list A) (acc : B) : M B :=
  match l with
  | [] => ret acc
  | x :: l' => acc' <- body acc x ;; for_each body l' acc'
  end.

(** [text] is what [askstring] returns: [None] when the dialog is closed. *)
Definition _on_import (text : option string) (app : SongApp) : M SongApp :=
  match text with
  | None => ret app
  | Some text =>
      if is_empty text then ret app
      else
        new <- for_each import_line (py_splitlines text) [] ;;
        let app1 := _on_search (set_songs (songs app ++ new) app) in
        _auto_save app1 ;;
        showinfo "Import" ("Imported " ++ str_nat (length new) ++ " songs") ;;
        ret app1
  end.

(* ================================================================== *)
(** ** The batch interface *)
(* ================================================================== *)

Definition newline : string := String "010" "".

Definition usage : string :=
  "Church Song App - CLI" ++ newline ++ "Usage:" ++ newline
  ++ "  --list         list songs" ++ newline
  ++ "  --add 'Title' [Number]   add a song" ++ newline
  ++ "  --remove N     remove by index (use --list to see indexes)".

(** One line of [--list]. *)
Definition list_line (i : nat) (s : song) : string :=
  str_nat i ++ ": " ++ title s ++ " "
  ++ (if negb (is_empty (number s)) then "- " ++ number s else "").

(** [for i, s in enumerate(songs): print(...)], counting from [i]. *)
Fixpoint print_songs (i : nat) (l : list song) : M unit :=
  match l with
  | [] => ret tt
  | s :: l' => print (list_line i s) ;; print_songs (S i) l'
  end.

(** [run_cli], with [args] standing for [sys.argv[2:]]. *)
Definition run_cli (args : list string) : M unit :=
  songs <- load_songs ;;
  match args with
  | [] => print usage
  | arg0 :: rest =>
      if (arg0 =? "--list")%string then print_songs 0 songs
      else if (arg0 =? "--add")%string && (2 <=? length args)%nat then
        let title := nth 1 args "" in
        let number := if (3 <=? length args)%nat then nth 2 args "" else "" in
        let songs := (songs ++ [mkSong title number])%list in
        save_songs songs ;;
        print ("Added: " ++ title)
      else if (arg0 =? "--remove")%string && (length args =? 2)%nat then
        try_except_ValueError
          (match py_int (nth 1 args "") with
           | None => raise (ValueError "invalid literal for int() with base 10")
           | Some idx =>
               if (0 <=? idx)%Z && (idx <? Z.of_nat (length songs))%Z then
                 match nth_error songs (Z.to_nat idx) with
                 | Some removed =>
                     save_songs (del_nth (Z.to_nat idx) songs) ;;
                     print ("Removed: " ++ title removed)
                 | None => raise (IndexError "pop index out of range")
                 end
               else print "Index out of range"
           end)
          (print "Invalid index")
      else print "Unknown CLI command"
  end.

(** [__main__], with [argv] standing for [sys.argv[1:]]: the batch interface
    under [--cli], the editor otherwise (its event loop is driven by the
    handlers above). *)
Definition main (argv : list string) : M unit :=
  match argv with
  | flag :: args =>
      if (flag =? "--cli")%string then run_cli args
      else SongApp_init ;; ret tt
  | [] => SongApp_init ;; ret tt
  end.

(* ================================================================== *)
(** ** Notions the statements below are written in *)
(* ================================================================== *)

(** [a] and [b] are what precedes and what follows the first occurrence of
    [sep] in [s]. *)
Definition first_occurrence (sep s a b : string) : Prop :=
  s = a ++ sep ++ b /\
  forall a' b', s = a' ++ sep ++ b' -> String.length a <= String.length a'.

(** The catalog as [json.dump] receives it. *)
Definition catalog_json (songs : list song) : json := JList (map song_json songs).

(** The text of the elements of a non-empty catalog, one song per element. *)
Definition elements_text (l : list song) : string :=
  join ("," ++ newline_indent 1) (map (encode 1) (map song_json l)).

(** The chunks [json.dump] writes for the songs after the first. *)
Definition more_chunks (l : list song) : list string :=
  flat_map (fun s => ("," ++ newline_indent 1) :: iterencode 1 (song_json s)) l.

(** An entry of the file that [load_songs] keeps: a mapping or a string. *)
Definition recognized (item : json) : bool :=
  match item with
  | JDict _ | JStr _ => true
  | _ => false
  end.

(** The text of a field: the value under [k] when it is there and true, else
    the value under [fallback] when it is there and true, else the empty
    string; [str] makes it a string. *)
Definition field_value (d : list (string * json)) (k fallback : string) : string :=
  let second :=
    match dict_lookup d fallback with
    | Some v' => if truthy v' then py_str v' else ""
    | None => ""
    end in
  match dict_lookup d k with
  | Some v => if truthy v then py_str v else second
  | None => second
  end.

(** The records an entry of the file gives: one for a mapping, one for a
    string, none for anything else. *)
Definition entry_records (item : json) : list song :=
  match item with
  | JDict d => [mkSong (field_value d "title" "name") (field_value d "number" "num")]
  | JStr s => [mkSong s ""]
  | _ => []
  end.

(** Normalization as the specification words it: the field when it is
    present, else the legacy field when it is present, else the empty string,
    coerced to a string. *)
Definition spec_field (d : list (string * json)) (k fallback : string) : string :=
  match dict_lookup d k with
  | Some v => py_str v
  | None =>
      match dict_lookup d fallback with
      | Some v' => py_str v'
      | None => ""
      end
  end.

Definition spec_entry_records (item : json) : list song :=
  match item with
  | JDict d => [mkSong (spec_field d "title" "name") (spec_field d "number" "num")]
  | JStr s => [mkSong s ""]
  | _ => []
  end.

Definition spec_load (data : json) : list song :=
  match data with
  | JList items => flat_map spec_entry_records items
  | _ => []
  end.

(** [q] occurs in [s], letter case apart. *)
Definition contains_ci (q s : string) : bool := py_in (py_lower py q) (py_lower py s).

Definition matches (q : string) (s : song) : bool :=
  contains_ci q (title s) || contains_ci q (number s).

(** The filtered view as the specification words it: the records, in catalog
    order, whose title or number contains the query. *)
Definition spec_search (q : string) (catalog : list song) : list song :=
  filter (matches q) catalog.

(** The text of the search box as the search uses it: lower-cased, then
    trimmed. *)
Definition search_key (text : string) : string := py_strip (py_lower py text).

(** The lower-cased title or the lower-cased number contains the key. *)
Definition selects (key : string) (s : song) : bool :=
  py_in key (py_lower py (title s)) || py_in key (py_lower py (number s)).

(** The records, in catalog order, the text of the search box selects. *)
Definition view_of (text : string) (catalog : list song) : list song :=
  filter (selects (search_key text)) catalog.

(** The title and the number of the record encode in UTF-8: they hold no
    surrogate. *)
Definition encodable_song (s : song) : bool :=
  valid_utf8 (title s) && valid_utf8 (number s).

Definition encodable (catalog : list song) : bool := forallb encodable_song catalog.

(** What a line of an import text gives, on its trimmed form: nothing when
    it is blank; title and number around the first separator when it has one;
    the whole of it as title otherwise. *)
Inductive line_record : string -> list song -> Prop :=
| line_blank (l : string) :
    py_strip l = "" ->
    line_record l []
| line_titled (l a b : string) :
    first_occurrence " - " (py_strip l) a b ->
    line_record l [mkSong (py_strip a) (py_strip b)]
| line_plain (l : string) :
    py_strip l <> "" ->
    py_in " - " (py_strip l) = false ->
    line_record l [mkSong (py_strip l) ""].

(** A line of an import text as the specification words it: the separator is
    looked for in the line as it stands. *)
Definition spec_import_line (line : string) : list song :=
  if is_empty (py_strip line) then []
  else if py_in " - " line then
    match py_split1 " - " line with
    | Some (a, b) => [mkSong (py_strip a) (py_strip b)]
    | None => []
    end
  else [mkSong (py_strip line) ""].

Definition spec_import (text : string) : list song :=
  flat_map spec_import_line (py_splitlines text).

(** The lines of [--list] for the songs [l], counted from [i]. *)
Fixpoint list_lines (i : nat) (l : list song) : list string :=
  match l with
  | [] => []
  | s :: l' => list_line i s :: list_lines (S i) l'
  end.

(** What stands on the standard output: each text printed, and the line
    feed [print] ends it with. *)
Definition output (w : world) : string :=
  cat (map (fun text => text ++ newline) (stdout w)).

(** The world once [lines] are printed. *)
Definition printed (lines : list string) (w : world) : world :=
  mkWorld (file w) (read_error w) (write_error w) (dialogs w) (stdout w ++ lines).

(** The world once [d] is shown. *)
Definition shown (d : dialog) (w : world) : world :=
  mkWorld (file w) (read_error w) (write_error w) (dialogs w ++ [d]) (stdout w).

(** The world once [text] is written to the backing file. *)
Definition written (text : string) (w : world) : world :=
  mkWorld (Some text) (read_error w) (write_error w) (dialogs w) (stdout w).

(** *** Inputs of the examples *)

(** A world where nothing has happened yet, the backing file holding
    [content] ([None]: no file). *)
Definition fresh (content : option string) : world :=
  mkWorld content None None [] [].

Definition two_songs : list song :=
  [mkSong "Amazing Grace" "12"; mkSong "How Great" ""].

Definition three_songs : list song :=
  [mkSong "Amazing Grace" "12"; mkSong "How Great" ""; mkSong "Rock of Ages" "7"].

(** The text [[{"name": "Amazing Grace", "num": "12"}]]. *)
Definition legacy_text : string :=
  "[{" ++ encode_string "name" ++ ": " ++ encode_string "Amazing Grace" ++ ", "
  ++ encode_string "num" ++ ": " ++ encode_string "12" ++ "}]".

(** The text [["Rock of Ages", 5, {"title": "A"}, null]]. *)
Definition mixed_text : string :=
  "[" ++ encode_string "Rock of Ages" ++ ", 5, {" ++ encode_string "title" ++ ": "
  ++ encode_string "A" ++ "}, null]".

(** The text [[{"title": "A", "number": 0}]]. *)
Definition zero_number_text : string :=
  "[{" ++ encode_string "title" ++ ": " ++ encode_string "A" ++ ", "
  ++ encode_string "number" ++ ": 0}]".

(** A title that is one surrogate, U+D800, and the text [["\ud800", "A"]],
    which holds it escaped. *)
Definition lone_surrogate : string := utf8 55296.

Definition surrogate_text : string :=
  "[" ++ String quote (String backslash "ud800") ++ String quote ", "
  ++ encode_string "A" ++ "]".

(** The text [["a\nb"]]: a title of two lines, the line feed escaped. *)
Definition two_line_text : string :=
  "[" ++ String quote ("a" ++ String backslash "nb") ++ String quote "]".

(** The text [["A", 11...1]], the integer written with 4301 digits. *)
Fixpoint ones (n : nat) : string :=
  match n with
  | O => EmptyString
  | S n' => String "1" (ones n')
  end.

Definition long_integer_text : string :=
  "[" ++ encode_string "A" ++ ", " ++ ones 4301 ++ "]".

Definition import_text : string :=
  "Holy Holy Holy - 100" ++ newline ++ "Just As I Am".

Definition empty_app : SongApp := mkSongApp [] [] "" [] "0".

(** Running a computation: unfold the monad and the primitives of the host
    that do not depend on the text they are given. *)
Ltac run :=
  cbv beta iota delta
    [bind ret raise try_except try_except_ValueError show showerror showwarning
     showinfo askyesno path_exists negb file read_error write_error dialogs stdout].

(* ================================================================== *)
(** ** The editor as a whole: what the user can do, and what is kept *)
(* ================================================================== *)

(** What [_build_ui] binds: the trace on the search box to [_on_search], the
    buttons to [_on_add], [_on_edit], [_on_delete], [_on_save] and
    [_on_import], and a double click in the list box to [_on_edit].  An event
    carries what the user does in the dialogs the handler opens. *)
Inductive event : Type :=
| TypeSearch (text : string)
| ClickAdd (user : form_input)
| ClickEdit (sel : option nat) (user : form_input)
| ClickDelete (sel : option nat) (confirm : bool)
| ClickSave
| ClickImport (text : option string).

Definition handle (e : event) (app : SongApp) : M SongApp :=
  match e with
  | TypeSearch text => ret (type_search text app)
  | ClickAdd user => _on_add user app
  | ClickEdit sel user => _on_edit sel user app
  | ClickDelete sel confirm => _on_delete sel confirm app
  | ClickSave => _on_save app ;; ret app
  | ClickImport text => _on_import text app
  end.

(** The states of the editor started on the world [w0]: the one [__init__]
    builds, and those the handlers lead to.  A handler that raises has not
    touched the editor yet; the event loop reports the exception and goes
    on. *)
Inductive reachable (w0 : world) : SongApp -> world -> Prop :=
| reach_init (app : SongApp) (w : world) :
    SongApp_init w0 = (Returned app, w) ->
    reachable w0 app w
| reach_step (app : SongApp) (w : world) (e : event) (app' : SongApp) (w' : world) :
    reachable w0 app w ->
    handle e app w = (Returned app', w') ->
    reachable w0 app' w'
| reach_raise (app : SongApp) (w : world) (e : event) (x : exn) (w' : world) :
    reachable w0 app w ->
    handle e app w = (Raised x, w') ->
    reachable w0 app w'.

(** The filtered view is what the text of the search box selects, and the
    list box and the counter show the filtered view. *)
Definition view_ok (app : SongApp) : Prop :=
  filtered app = view_of (search_var app) (songs app)
  /\ listbox app = map _format_item (filtered app)
  /\ total_lbl app = str_nat (length (filtered app)).

(** The rows of the filtered view are records of the catalog, and the list
    box shows them. *)
Definition rows_ok (app : SongApp) : Prop :=
  (forall s, In s (filtered app) -> In s (songs app))
  /\ listbox app = map _format_item (filtered app).

(** A row of the list box is selected, or none is. *)
Definition selection_ok (sel : option nat) (app : SongApp) : Prop :=
  match sel with
  | None => True
  | Some idx => idx < length (listbox app)
  end.

Definition event_ok (e : event) (app : SongApp) : Prop :=
  match e with
  | ClickEdit sel _ | ClickDelete sel _ => selection_ok sel app
  | _ => True
  end.

(** A record as the entry form and the import produce it. *)
Definition trimmed_record (r : song) : Prop :=
  title r <> "" /\ py_strip (title r) = title r /\ py_strip (number r) = number r.

(** [w'] differs from [w] by message boxes at most. *)
Definition notice (w w' : world) : Prop :=
  file w' = file w /\ read_error w' = read_error w
  /\ write_error w' = write_error w /\ stdout w' = stdout w.

(** Between [w] and [w'] the catalog [l] was saved, and nothing else was
    done but showing message boxes. *)
Definition saved (l : list song) (w w' : world) : Prop :=
  exists w1 w2, notice w w1 /\ save_songs l w1 = (Returned tt, w2) /\ notice w2 w'.

(** The arguments with which [run_cli] goes on to change the catalog. *)
Definition mutating (args : list string) : bool :=
  match args with
  | [] => false
  | arg0 :: _ =>
      ((arg0 =? "--add")%string && (2 <=? length args)%nat)
      || ((arg0 =? "--remove")%string && (length args =? 2)%nat)
  end.

(** The lines of a text that are not blank. *)
Definition nonblank_lines (text : string) : list string :=
  filter (fun l => negb (is_empty (py_strip l))) (py_splitlines text).

(** *** Further inputs of the examples *)

Definition grace : song := mkSong "Amazing Grace" "12".

(** The editor as [__init__] builds it on an empty catalog, and after the
    first song is added. *)
Definition started_app : SongApp := _refresh_list (mkSongApp [] [] "" [] "0").
Definition added_app : SongApp := _on_search (set_songs [grace] started_app).

(** The editor on two songs with a query that keeps the second. *)
Definition searched_app : SongApp := type_search "great" (set_songs two_songs empty_app).

(** What [mixed_text] loads as. *)
Definition mixed_catalog : list song := [mkSong "Rock of Ages" ""; mkSong "A" ""].

Definition refused : world := mkWorld None None (Some "Permission denied") [] [].

(* ================================================================== *)
(** ** Facts on strings and on the string built-ins *)
(* ================================================================== *)

Lemma append_nil_r (s : string) : s ++ "" = s.
Proof. induction s as [|c s IH]; simpl; [reflexivity | now rewrite IH]. Qed.

Lemma append_assoc (a b c : string) : (a ++ b) ++ c = a ++ (b ++ c).
Proof. induction a as [|x a IH]; simpl; [reflexivity | now rewrite IH]. Qed.

Lemma length_append (a b : string) :
  String.length (a ++ b) = (String.length a + String.length b)%nat.
Proof. induction a as [|x a IH]; simpl; [reflexivity | now rewrite IH]. Qed.

Lemma is_empty_true (s : string) : is_empty s = true <-> s = "".
Proof. destruct s; simpl; split; congruence. Qed.

Lemma is_empty_false (s : string) : is_empty s = false <-> s <> "".
Proof. destruct s; simpl; split; congruence. Qed.

(** *** Prefixes, occurrences and the first occurrence *)

Lemma strip_prefix_spec (p s r : string) :
  strip_prefix p s = Some r <-> s = p ++ r.
Proof.
  revert s; induction p as [|a p IH]; intros s; simpl.
  - split; congruence.
  - destruct s as [|b s]; [split; discriminate|].
    destruct (Ascii.eqb_spec a b) as [->|Hab].
    + rewrite IH. split; congruence.
    + split; [discriminate | intros H; inversion H; congruence].
Qed.

Lemma startswith_spec (p s : string) :
  startswith p s = true <-> exists r, s = p ++ r.
Proof.
  unfold startswith. destruct (strip_prefix p s) as [r|] eqn:E.
  - apply strip_prefix_spec in E. split; eauto.
  - split; [discriminate|]. intros [r Hr].
    apply strip_prefix_spec in Hr. congruence.
Qed.

(** [q in s] holds exactly when [s] is some [a ++ q ++ b]. *)
Lemma py_in_spec (q s : string) :
  py_in q s = true <-> exists a b, s = a ++ q ++ b.
Proof.
  induction s as [|c s IH].
  - simpl. rewrite orb_false_r, startswith_spec. split.
    + intros [r Hr]. exists "", r. exact Hr.
    + intros [a [b H]]. destruct a; simpl in H; [eauto | discriminate].
  - simpl. rewrite orb_true_iff, startswith_spec, IH. split.
    + intros [[r Hr] | [a [b H]]].
      * exists "", r. exact Hr.
      * exists (String c a), b. simpl. now rewrite H.
    + intros [a [b H]]. destruct a as [|x a]; simpl in H.
      * left. eauto.
      * right. inversion H. eauto.
Qed.

Lemma py_in_empty (s : string) : py_in "" s = true.
Proof. apply py_in_spec. exists "", s. reflexivity. Qed.

Lemma py_split1_first (sep s a b : string) :
  py_split1 sep s = Some (a, b) -> first_occurrence sep s a b.
Proof.
  revert a b; induction s as [|c s IH]; intros a b; simpl.
  - destruct (strip_prefix sep "") as [r|] eqn:E; [|discriminate].
    intros H; inversion H; subst. apply strip_prefix_spec in E.
    split; [exact E | simpl; intros; lia].
  - destruct (strip_prefix sep (String c s)) as [r|] eqn:E.
    + intros H; inversion H; subst. apply strip_prefix_spec in E.
      split; [exact E | simpl; intros; lia].
    + destruct (py_split1 sep s) as [[a0 b0]|] eqn:E0; [|discriminate].
      intros H; inversion H; subst.
      destruct (IH a0 b eq_refl) as [Hs Hmin]. split.
      * simpl. now rewrite <- Hs.
      * intros a' b' H'. destruct a' as [|x a']; simpl in H'.
        -- apply strip_prefix_spec in H'. congruence.
        -- inversion H' as [[Hc Hr]]. simpl. apply le_n_S. eapply Hmin. exact Hr.
Qed.

Lemma py_split1_in (sep s : string) :
  py_in sep s = true -> exists a b, py_split1 sep s = Some (a, b).
Proof.
  induction s as [|c s IH]; simpl; unfold startswith.
  - destruct (strip_prefix sep ""); [eauto | discriminate].
  - destruct (strip_prefix sep (String c s)); [eauto|]. simpl.
    intros H. destruct (IH H) as [a [b ->]]. eauto.
Qed.

Lemma py_split1_not_in (sep s : string) :
  py_in sep s = false -> py_split1 sep s = None.
Proof.
  intros H. destruct (py_split1 sep s) as [[a b]|] eqn:E; [|reflexivity].
  apply py_split1_first in E. destruct E as [E _].
  assert (py_in sep s = true) by (apply py_in_spec; eauto). congruence.
Qed.

(** *** Code points *)

Lemma cat_app (a b : list string) : cat (a ++ b) = cat a ++ cat b.
Proof.
  induction a as [|x a IH]; cbn [cat List.app append]; [reflexivity|].
  now rewrite IH, append_assoc.
Qed.

(** The code points of a string make up the string. *)
Lemma cat_chars (s : string) : cat (chars s) = s.
Proof.
  induction s as [|c s IH]; [reflexivity|]. cbn [chars].
  destruct (chars s) as [|ch rest].
  - cbn [cat] in *. subst s. reflexivity.
  - destruct (starts_continuation ch); cbn [cat append] in *; now rewrite IH.
Qed.

(** The first code point starts with the first byte. *)
Lemma chars_head (c : ascii) (r : string) :
  exists r0 rest, chars (String c r) = String c r0 :: rest.
Proof.
  cbn [chars]. destruct (chars r) as [|ch rest]; [eauto|].
  destruct (starts_continuation ch); eauto.
Qed.

Lemma chars_head_starts (t : string) :
  starts_continuation t = false ->
  match chars t with
  | ch :: _ => starts_continuation ch = false
  | [] => True
  end.
Proof.
  destruct t as [|c r]; [intros _; exact I|]. intros H.
  destruct (chars_head c r) as [r0 [rest ->]]. exact H.
Qed.

Lemma all_continuation_starts (s : string) :
  all_continuation s = true -> s <> "" -> starts_continuation s = true.
Proof.
  destruct s as [|c r]; [congruence|]. cbn [all_continuation starts_continuation].
  intros H _. apply andb_true_iff in H. tauto.
Qed.

Lemma chunked_inv (ch : string) (l : list string) :
  chunked (ch :: l) ->
  proper ch /\ chunked l
  /\ match l with x :: _ => starts_continuation x = false | [] => True end.
Proof.
  intros H. inversion H; subst; repeat split; auto; constructor.
Qed.

Lemma chunked_build (ch : string) (l : list string) :
  proper ch -> chunked l ->
  match l with x :: _ => starts_continuation x = false | [] => True end ->
  chunked (ch :: l).
Proof.
  intros Hp Hl Hs. destruct l as [|x l]; constructor; auto.
Qed.

Lemma chars_chunked (s : string) : chunked (chars s).
Proof.
  induction s as [|c s IH]; [constructor|]. cbn [chars].
  destruct (chars s) as [|ch rest]; [constructor; reflexivity|].
  destruct (chunked_inv _ _ IH) as [Hp [Hrest Hs]].
  destruct (starts_continuation ch) eqn:E.
  - apply chunked_build; [|exact Hrest | exact Hs].
    destruct ch as [|d r]; [contradiction|].
    cbn [proper all_continuation starts_continuation] in *. now rewrite E, Hp.
  - apply chunked_build; [reflexivity | exact IH | exact E].
Qed.

Lemma chars_continuation_app (r t : string) :
  all_continuation r = true ->
  starts_continuation t = false ->
  chars (r ++ t) = match r with EmptyString => chars t | _ => r :: chars t end.
Proof.
  intros Hr Ht. induction r as [|d r IH]; [reflexivity|].
  cbn [all_continuation] in Hr. apply andb_true_iff in Hr. destruct Hr as [Hd Hr].
  cbn [append chars]. rewrite (IH Hr).
  destruct r as [|e r'].
  - pose proof (chars_head_starts t Ht) as Hh.
    destruct (chars t) as [|ch rest]; [reflexivity|]. now rewrite Hh.
  - rewrite (all_continuation_starts _ Hr) by discriminate. reflexivity.
Qed.

Lemma chars_proper_app (ch t : string) :
  proper ch ->
  starts_continuation t = false ->
  chars (ch ++ t) = ch :: chars t.
Proof.
  destruct ch as [|c r]; [contradiction|]. cbn [proper]. intros Hr Ht.
  cbn [append chars]. rewrite (chars_continuation_app r t Hr Ht).
  destruct r as [|e r'].
  - pose proof (chars_head_starts t Ht) as Hh.
    destruct (chars t) as [|x rest]; [reflexivity|]. now rewrite Hh.
  - rewrite (all_continuation_starts _ Hr) by discriminate. reflexivity.
Qed.

Lemma proper_starts (ch t : string) :
  proper ch -> starts_continuation (ch ++ t) = starts_continuation ch.
Proof. destruct ch; [contradiction | reflexivity]. Qed.

(** A run of code points is the code points of its bytes. *)
Lemma chars_cat (l : list string) : chunked l -> chars (cat l) = l.
Proof.
  induction 1 as [|ch Hp|ch ch' l Hp Hs Hl IH]; [reflexivity | |].
  - cbn [cat]. now rewrite (chars_proper_app ch "" Hp eq_refl).
  - cbn [cat] in *. rewrite chars_proper_app; [now rewrite IH | exact Hp |].
    destruct (chunked_inv _ _ Hl) as [Hp' _]. now rewrite proper_starts.
Qed.

Lemma chars_app (a b : string) :
  starts_continuation b = false -> chars (a ++ b) = (chars a ++ chars b)%list.
Proof.
  intros Hb. induction a as [|c a IH]; [reflexivity|].
  cbn [append chars]. rewrite IH.
  destruct (chars a) as [|ch rest] eqn:E; cbn [List.app].
  - pose proof (chars_head_starts b Hb) as Hh.
    destruct (chars b) as [|x rest]; [reflexivity|]. now rewrite Hh.
  - destruct (starts_continuation ch); reflexivity.
Qed.

(** *** Trimming *)

Lemma lstrip_chars_head (sp : string -> bool) (l : list string) (ch : string) (r : list string) :
  lstrip_chars sp l = ch :: r -> sp ch = false.
Proof.
  induction l as [|x l IH]; cbn [lstrip_chars]; [discriminate|].
  destruct (sp x) eqn:E; [exact IH|]. intros H; inversion H; subst. exact E.
Qed.

Lemma lstrip_chars_fix (sp : string -> bool) (ch : string) (r : list string) :
  sp ch = false -> lstrip_chars sp (ch :: r) = ch :: r.
Proof. intros H. cbn [lstrip_chars]. now rewrite H. Qed.

Lemma rstrip_chars_cons (sp : string -> bool) (ch : string) (r : list string) :
  sp ch = false -> exists r', rstrip_chars sp (ch :: r) = ch :: r'.
Proof.
  intros H. cbn [rstrip_chars]. destruct (rstrip_chars sp r); rewrite ?H; eauto.
Qed.

Lemma rstrip_chars_head (sp : string -> bool) (l : list string) (ch : string) (r : list string) :
  rstrip_chars sp l = ch :: r -> exists r0, l = ch :: r0.
Proof.
  destruct l as [|x l]; cbn [rstrip_chars]; [discriminate|].
  destruct (rstrip_chars sp l); [destruct (sp x)|]; intros H; inversion H; eauto.
Qed.

Lemma rstrip_chars_idem (sp : string -> bool) (l : list string) :
  rstrip_chars sp (rstrip_chars sp l) = rstrip_chars sp l.
Proof.
  induction l as [|ch l IH]; cbn [rstrip_chars]; [reflexivity|].
  destruct (rstrip_chars sp l) as [|d r'] eqn:E.
  - destruct (sp ch) eqn:Ec; cbn [rstrip_chars]; [reflexivity | now rewrite Ec].
  - cbn [rstrip_chars] in *. now rewrite IH.
Qed.

Lemma lstrip_chars_chunked (sp : string -> bool) (l : list string) :
  chunked l -> chunked (lstrip_chars sp l).
Proof.
  induction l as [|ch l IH]; cbn [lstrip_chars]; [auto|].
  intros H. destruct (sp ch); [|exact H].
  apply IH. now destruct (chunked_inv _ _ H) as [_ [Hl _]].
Qed.

Lemma rstrip_chars_chunked (sp : string -> bool) (l : list string) :
  chunked l -> chunked (rstrip_chars sp l).
Proof.
  induction l as [|ch l IH]; cbn [rstrip_chars]; [auto|].
  intros H. destruct (chunked_inv _ _ H) as [Hp [Hl Hs]].
  destruct (rstrip_chars sp l) as [|d r'] eqn:E.
  - destruct (sp ch); constructor. exact Hp.
  - apply chunked_build; [exact Hp | now apply IH|].
    destruct (rstrip_chars_head _ _ _ _ E) as [r0 ->]. exact Hs.
Qed.

(** The code points of what [strip] returns. *)
Lemma py_strip_chars (s : string) :
  chars (py_strip s) = rstrip_chars isspace (lstrip_chars isspace (chars s)).
Proof.
  unfold py_strip. apply chars_cat.
  apply rstrip_chars_chunked, lstrip_chars_chunked, chars_chunked.
Qed.

(** What [strip] returns starts with no white space. *)
Lemma py_strip_head (s ch : string) (r : list string) :
  chars (py_strip s) = ch :: r -> isspace ch = false.
Proof.
  rewrite py_strip_chars. intros H.
  destruct (rstrip_chars_head _ _ _ _ H) as [r0 H0].
  eapply lstrip_chars_head; eauto.
Qed.

Lemma py_strip_idem (s : string) : py_strip (py_strip s) = py_strip s.
Proof.
  unfold py_strip at 1. rewrite py_strip_chars.
  destruct (rstrip_chars isspace (lstrip_chars isspace (chars s))) as [|ch r] eqn:E.
  - unfold py_strip. now rewrite E.
  - assert (Hc : isspace ch = false).
    { destruct (rstrip_chars_head _ _ _ _ E) as [r0 H0].
      eapply lstrip_chars_head; eauto. }
    rewrite (lstrip_chars_fix _ _ _ Hc), <- E, rstrip_chars_idem.
    reflexivity.
Qed.

(** A string whose first code point is no white space is not trimmed to
    nothing. *)
Lemma py_strip_unspaced (a ch : string) (r : list string) :
  chars a = ch :: r -> isspace ch = false -> py_strip a <> "".
Proof.
  intros Ha Hc. unfold py_strip. rewrite Ha, (lstrip_chars_fix _ _ _ Hc).
  destruct (rstrip_chars_cons isspace ch r Hc) as [r' ->].
  pose proof (chars_chunked a) as Hk. rewrite Ha in Hk.
  destruct (chunked_inv _ _ Hk) as [Hp _].
  destruct ch; [contradiction | discriminate].
Qed.

(** What precedes the separator in a trimmed text is not blank. *)
Lemma py_strip_before_separator (l a b : string) :
  py_strip l = a ++ " - " ++ b -> py_strip a <> "".
Proof.
  intros H.
  assert (Hch : chars (py_strip l) = (chars a ++ chars (" - " ++ b))%list)
    by (rewrite H; now apply chars_app).
  destruct a as [|x a].
  - exfalso. cbn [List.app] in Hch.
    change (" - " ++ b) with (String " " "" ++ String "-" (String " " b)) in Hch.
    rewrite chars_app in Hch by reflexivity.
    apply py_strip_head in Hch. revert Hch. vm_compute. discriminate.
  - destruct (chars_head x a) as [r0 [rest Ha]].
    rewrite Ha in Hch. cbn [List.app] in Hch.
    apply (py_strip_unspaced _ _ _ Ha). eapply py_strip_head. exact Hch.
Qed.

(** *** Well-formed UTF-8 *)

Ltac bool_arith H :=
  repeat (rewrite ?andb_true_iff, ?orb_true_iff, ?Nat.leb_le, ?Nat.ltb_lt, ?Nat.eqb_eq in H).

(** A code point starts with a byte that continues none. *)
Lemma valid_char_lead (c : ascii) (r : string) :
  valid_char (String c r) = true -> is_continuation c = false.
Proof.
  intros H. destruct (is_continuation c) eqn:E; [exfalso|reflexivity].
  unfold is_continuation, in_range in E. bool_arith E.
  destruct r as [|b [|c' [|d [|? ?]]]]; cbn [valid_char] in H; try discriminate;
    unfold in_range in H; bool_arith H; intuition lia.
Qed.

Lemma valid_char_lead_high (c : ascii) (r : string) :
  valid_char (String c r) = true -> r <> "" -> (code c <? 128)%nat = false.
Proof.
  intros H Hr. apply Nat.ltb_ge.
  destruct r as [|b [|c' [|d [|? ?]]]]; cbn [valid_char] in H; try congruence;
    unfold in_range in H; bool_arith H; intuition lia.
Qed.

Lemma is_continuation_high (c : ascii) :
  is_continuation c = true -> (code c <? 128)%nat = false.
Proof.
  unfold is_continuation, in_range. intros H. bool_arith H. apply Nat.ltb_ge. lia.
Qed.

Lemma valid_utf8_starts (s : string) :
  valid_utf8 s = true -> starts_continuation s = false.
Proof.
  destruct s as [|c r]; [reflexivity|]. unfold valid_utf8.
  destruct (chars_head c r) as [r0 [rest ->]]. cbn [forallb starts_continuation].
  intros H. apply andb_true_iff in H. destruct H as [H _].
  eapply valid_char_lead; eauto.
Qed.

Lemma valid_utf8_app (a b : string) :
  valid_utf8 a = true -> valid_utf8 b = true -> valid_utf8 (a ++ b) = true.
Proof.
  intros Ha Hb. unfold valid_utf8 in *.
  rewrite chars_app by now apply valid_utf8_starts.
  rewrite forallb_app, Ha, Hb. reflexivity.
Qed.

Lemma valid_utf8_cat (l : list string) :
  forallb valid_utf8 l = true -> valid_utf8 (cat l) = true.
Proof.
  induction l as [|x l IH]; [reflexivity|]. cbn [forallb cat].
  intros H. apply andb_true_iff in H. destruct H as [Hx Hl].
  apply valid_utf8_app; auto.
Qed.

Lemma chars_proper (ch : string) : proper ch -> chars ch = [ch].
Proof.
  intros Hp. rewrite <- (append_nil_r ch) at 1.
  now rewrite (chars_proper_app ch "" Hp eq_refl).
Qed.

Lemma chunked_proper (l : list string) : chunked l -> Forall proper l.
Proof. induction 1; [constructor | repeat constructor; auto | constructor; auto]. Qed.

(** *** String literals of JSON encode when the string does *)

Lemma escape_app (a b : string) : escape (a ++ b) = escape a ++ escape b.
Proof.
  induction a as [|c a IH]; [reflexivity|]. cbn [append escape].
  now rewrite IH, append_assoc.
Qed.

Lemma escape_cat (l : list string) : escape (cat l) = cat (map escape l).
Proof.
  induction l as [|x l IH]; [reflexivity|]. cbn [cat map].
  now rewrite escape_app, IH.
Qed.

Lemma escape_char_valid (c : ascii) :
  (code c <? 128)%nat = true -> valid_utf8 (escape_char c) = true.
Proof.
  destruct c as [[] [] [] [] [] [] [] []]; intros H;
    solve [reflexivity | vm_compute in H; discriminate H].
Qed.

Lemma escape_char_high (c : ascii) :
  (code c <? 128)%nat = false -> escape_char c = String c "".
Proof.
  destruct c as [[] [] [] [] [] [] [] []]; intros H;
    solve [reflexivity | vm_compute in H; discriminate H].
Qed.

Lemma escape_continuation (r : string) : all_continuation r = true -> escape r = r.
Proof.
  induction r as [|c r IH]; [reflexivity|]. cbn [all_continuation escape].
  intros H. apply andb_true_iff in H. destruct H as [Hc Hr].
  rewrite (escape_char_high c (is_continuation_high c Hc)), (IH Hr). reflexivity.
Qed.

Lemma chars_lead (c : ascii) (r : string) :
  starts_continuation r = false -> chars (String c r) = String c "" :: chars r.
Proof.
  intros H. change (String c r) with (String c "" ++ r).
  now rewrite chars_app.
Qed.

Lemma valid_utf8_app_eq (x y : string) :
  starts_continuation y = false ->
  valid_utf8 (x ++ y) = valid_utf8 x && valid_utf8 y.
Proof.
  intros Hy. unfold valid_utf8. now rewrite chars_app, forallb_app.
Qed.

Lemma chars_cons (c : ascii) (r : string) :
  chars (String c r)
  = match chars r with
    | ch :: rest =>
        if starts_continuation ch then String c ch :: rest
        else String c "" :: ch :: rest
    | [] => [String c ""]
    end.
Proof. reflexivity. Qed.

(** An ASCII byte is a code point on its own. *)
Lemma valid_char_ascii_lead (c : ascii) (r : string) :
  (code c <? 128)%nat = true -> r <> "" -> valid_char (String c r) = false.
Proof.
  intros Hc Hr. destruct (valid_char (String c r)) eqn:E; [|reflexivity].
  rewrite (valid_char_lead_high c r E Hr) in Hc. discriminate.
Qed.

Lemma valid_ascii_cons (c : ascii) (r : string) :
  (code c <? 128)%nat = true ->
  valid_utf8 (String c r) = negb (starts_continuation r) && valid_utf8 r.
Proof.
  intros Hc. destruct (starts_continuation r) eqn:E; cbn [negb andb].
  - destruct r as [|d r1]; [discriminate|]. cbn [starts_continuation] in E.
    unfold valid_utf8. rewrite chars_cons.
    destruct (chars_head d r1) as [r0 [rest ->]].
    cbn [starts_continuation]. rewrite E. cbn [forallb].
    rewrite valid_char_ascii_lead by (auto; discriminate). reflexivity.
  - unfold valid_utf8. rewrite chars_lead by exact E.
    cbn [forallb valid_char]. now rewrite Hc.
Qed.

Lemma isascii_cons_starts (c : ascii) (r : string) :
  (code c <? 128)%nat = true -> starts_continuation (String c r) = false.
Proof.
  intros H. cbn [starts_continuation]. unfold is_continuation, in_range.
  apply Nat.ltb_lt in H. apply andb_false_iff. left. apply Nat.leb_gt. exact H.
Qed.

Lemma valid_ascii_app (a r : string) :
  isascii a = true -> a <> "" ->
  valid_utf8 (a ++ r) = negb (starts_continuation r) && valid_utf8 r.
Proof.
  induction a as [|c a IH]; [congruence|]. intros Ha _.
  cbn [isascii] in Ha. apply andb_true_iff in Ha. destruct Ha as [Hc Ha].
  cbn [append]. rewrite (valid_ascii_cons c _ Hc).
  destruct a as [|c' a'].
  - reflexivity.
  - rewrite (IH Ha) by discriminate.
    pose proof Ha as Ha'. cbn [isascii] in Ha'. apply andb_true_iff in Ha'.
    destruct Ha' as [Hc' _]. cbn [append].
    now rewrite (isascii_cons_starts c' _ Hc').
Qed.

Lemma escape_char_ascii (c : ascii) :
  (code c <? 128)%nat = true ->
  isascii (escape_char c) = true /\ escape_char c <> "".
Proof.
  destruct c as [[] [] [] [] [] [] [] []]; intros H;
    solve [split; [reflexivity | discriminate] | vm_compute in H; discriminate H].
Qed.

Lemma starts_continuation_escape (r : string) :
  starts_continuation (escape r) = starts_continuation r.
Proof.
  destruct r as [|d r1]; [reflexivity|].
  destruct d as [[] [] [] [] [] [] [] []]; reflexivity.
Qed.

Lemma escape_nonempty (r : string) : r <> "" -> escape r <> "".
Proof.
  destruct r as [|d r1]; [congruence|]. intros _.
  destruct d as [[] [] [] [] [] [] [] []]; discriminate.
Qed.

(** A code point written in a string literal encodes exactly when it is
    well formed. *)
Lemma valid_escape_chunk (ch : string) :
  proper ch -> valid_utf8 (escape ch) = valid_char ch.
Proof.
  destruct ch as [|a r]; [contradiction|]. cbn [proper]. intros Hp.
  change (escape (String a r)) with (escape_char a ++ escape r).
  rewrite (escape_continuation _ Hp).
  destruct (code a <? 128)%nat eqn:Ha.
  - destruct (escape_char_ascii a Ha) as [Hasc Hne].
    rewrite (valid_ascii_app _ r Hasc Hne).
    destruct r as [|b r'].
    + cbn [valid_char]. now rewrite Ha.
    + rewrite (all_continuation_starts _ Hp) by discriminate.
      rewrite valid_char_ascii_lead by (auto; discriminate). reflexivity.
  - rewrite (escape_char_high a Ha). cbn [append]. unfold valid_utf8.
    rewrite (chars_proper (String a r)) by exact Hp.
    cbn [forallb]. apply andb_true_r.
Qed.

Lemma starts_continuation_app (a b : string) :
  a <> "" -> starts_continuation (a ++ b) = starts_continuation a.
Proof. destruct a; [congruence | reflexivity]. Qed.

(** A string literal encodes exactly when the string does. *)
Lemma valid_utf8_escape (t : string) : valid_utf8 (escape t) = valid_utf8 t.
Proof.
  rewrite <- (cat_chars t) at 1. rewrite escape_cat. unfold valid_utf8 at 2.
  pose proof (chars_chunked t) as Hk.
  induction Hk as [|ch Hp|ch ch' l Hp Hs Hl IH]; [reflexivity | |].
  - cbn [map cat forallb]. rewrite append_nil_r, andb_true_r.
    now apply valid_escape_chunk.
  - cbn [map cat forallb] in *.
    rewrite valid_utf8_app_eq.
    + now rewrite IH, (valid_escape_chunk ch Hp).
    + destruct (chunked_inv _ _ Hl) as [Hp' _].
      rewrite starts_continuation_app
        by (apply escape_nonempty; destruct ch'; [contradiction | discriminate]).
      now rewrite starts_continuation_escape.
Qed.

Lemma valid_utf8_encode_string (t : string) :
  valid_utf8 (encode_string t) = valid_utf8 t.
Proof.
  unfold encode_string.
  change (String quote (escape t ++ String quote ""))
    with (String quote "" ++ (escape t ++ String quote "")).
  rewrite valid_ascii_app by (reflexivity || discriminate).
  rewrite valid_utf8_app_eq by reflexivity.
  change (valid_utf8 (String quote "")) with true. rewrite andb_true_r.
  rewrite valid_utf8_escape.
  destruct t as [|c r]; [reflexivity|].
  rewrite starts_continuation_app by (apply escape_nonempty; discriminate).
  rewrite starts_continuation_escape.
  destruct (starts_continuation (String c r)) eqn:E; [|reflexivity].
  cbn [negb andb]. destruct (valid_utf8 (String c r)) eqn:Ev; [|reflexivity].
  apply valid_utf8_starts in Ev. congruence.
Qed.

(** *** Trimming keeps a text well formed *)

Lemma forallb_lstrip_chars (f sp : string -> bool) (l : list string) :
  forallb f l = true -> forallb f (lstrip_chars sp l) = true.
Proof.
  induction l as [|x l IH]; [reflexivity|]. cbn [forallb lstrip_chars].
  intros H. destruct (sp x); [|exact H].
  apply andb_true_iff in H. now apply IH.
Qed.

Lemma forallb_rstrip_chars (f sp : string -> bool) (l : list string) :
  forallb f l = true -> forallb f (rstrip_chars sp l) = true.
Proof.
  induction l as [|x l IH]; [reflexivity|]. cbn [forallb rstrip_chars].
  intros H. apply andb_true_iff in H. destruct H as [Hx Hl].
  specialize (IH Hl). destruct (rstrip_chars sp l) as [|y r].
  - destruct (sp x); [reflexivity|]. cbn [forallb]. now rewrite Hx.
  - cbn [forallb] in *. now rewrite Hx, IH.
Qed.

Lemma valid_utf8_strip (t : string) :
  valid_utf8 t = true -> valid_utf8 (py_strip t) = true.
Proof.
  unfold valid_utf8. rewrite py_strip_chars. intros H.
  now apply forallb_rstrip_chars, forallb_lstrip_chars.
Qed.

(** *** ASCII text *)

Lemma isascii_starts (s : string) : isascii s = true -> starts_continuation s = false.
Proof.
  destruct s as [|c r]; [reflexivity|]. cbn [isascii starts_continuation].
  intros H. apply andb_true_iff in H. destruct H as [H _].
  unfold is_continuation, in_range. apply Nat.ltb_lt in H.
  apply andb_false_iff. left. apply Nat.leb_gt. exact H.
Qed.

(** [int] leaves ASCII text as it is before it reads it. *)
Lemma int_text_ascii (s : string) : isascii s = true -> int_text s = s.
Proof.
  induction s as [|c r IH]; [reflexivity|]. intros H.
  pose proof H as H'. cbn [isascii] in H'. apply andb_true_iff in H'.
  destruct H' as [Hc Hr].
  unfold int_text in *. rewrite (chars_lead c r (isascii_starts r Hr)).
  cbn [map string_of_list_ascii ascii_of_char]. rewrite Hc, (IH Hr). reflexivity.
Qed.

(* ================================================================== *)
(** ** The scanner: the fuel of [json_loads] is enough *)
(* ================================================================== *)

Lemma lstrip_with_length (sp : ascii -> bool) (s : string) :
  String.length (lstrip_with sp s) <= String.length s.
Proof.
  induction s as [|c s IH]; cbn [lstrip_with String.length]; [lia|].
  destruct (sp c); cbn [String.length]; lia.
Qed.

Lemma skip_ws_length (s : string) : String.length (skip_ws s) <= String.length s.
Proof. apply lstrip_with_length. Qed.

Lemma strip_prefix_length (p s r : string) :
  strip_prefix p s = Some r ->
  String.length s = String.length p + String.length r.
Proof. intros H. apply strip_prefix_spec in H. subst. apply length_append. Qed.

Lemma keyword_length (k : string) (v v' : json) (s rest : string) :
  0 < String.length k ->
  keyword k v s = Scanned v' rest ->
  String.length rest < String.length s.
Proof.
  unfold keyword. intros Hk.
  destruct (strip_prefix k s) as [r|] eqn:E; [|discriminate].
  intros H; inversion H; subst. apply strip_prefix_length in E. lia.
Qed.

Lemma keyword_has_fuel (k : string) (v : json) (s : string) :
  keyword k v s <> Failed NoFuel.
Proof. unfold keyword. destruct (strip_prefix k s); discriminate. Qed.

Lemma prepend_inv (p : string) (r : option (string * string)) (x rest : string) :
  prepend p r = Some (x, rest) -> exists x', r = Some (x', rest).
Proof.
  destruct r as [[x' rest']|]; cbn [prepend]; [|discriminate].
  intros H; inversion H; subst. eauto.
Qed.

(** A string literal takes at least its closing quote. *)
Lemma scan_string_length (n : nat) :
  forall s x rest,
    String.length s <= n ->
    scan_string s = Some (x, rest) ->
    String.length rest < String.length s.
Proof.
  induction n as [|n IH]; intros s x rest Hn.
  - destruct s; [discriminate | cbn [String.length] in Hn; lia].
  - destruct s as [|c r]; [discriminate|]. cbn [scan_string].
    cbn [String.length] in Hn.
    assert (Hrec : forall p r' , String.length r' <= n ->
                     prepend p (scan_string r') = Some (x, rest) ->
                     String.length rest < String.length r').
    { intros p r' Hr' Hp. destruct (prepend_inv _ _ _ _ Hp) as [x' Hx'].
      eapply IH; eauto. }
    repeat match goal with
           | |- (if ?b then _ else _) = _ -> _ => destruct b
           | |- match ?t with _ => _ end = _ -> _ =>
               let E := fresh "E" in destruct t eqn:E
           | |- None = _ -> _ => discriminate
           | |- Some (_, _) = Some (_, _) -> _ =>
               let H := fresh in intros H; inversion H; subst;
               cbn [String.length]; lia
           | |- prepend _ (scan_string ?r') = _ -> _ =>
               let H := fresh in intros H; apply Hrec in H;
               cbn [String.length] in *; lia
           end.
Qed.

Lemma span_digits_length (s d r : string) :
  span_digits s = (d, r) ->
  String.length s = String.length d + String.length r.
Proof.
  revert d r; induction s as [|c s IH]; intros d r; cbn [span_digits].
  - intros H; inversion H; reflexivity.
  - destruct (isdigit c).
    + destruct (span_digits s) as [d' r'] eqn:E. intros H; inversion H; subst.
      cbn [String.length]. rewrite (IH d' r eq_refl). reflexivity.
    + intros H; inversion H; subst. reflexivity.
Qed.

Lemma scan_sign_length (s : string) (neg : bool) (s1 : string) :
  scan_sign s = (neg, s1) -> String.length s1 <= String.length s.
Proof.
  destruct s as [|c r]; cbn [scan_sign]; [|destruct (c =? "-")%char];
    intros H; inversion H; subst; cbn [String.length]; lia.
Qed.

Lemma scan_int_part_length (s ip s2 : string) :
  scan_int_part s = Some (ip, s2) -> String.length s2 < String.length s.
Proof.
  destruct s as [|c r]; cbn [scan_int_part]; [discriminate|].
  destruct (isdigit c) eqn:Ed; [|discriminate].
  destruct (c =? "0")%char.
  - intros H; inversion H; subst. cbn [String.length]. lia.
  - cbn [span_digits]. rewrite Ed.
    destruct (span_digits r) as [d r'] eqn:E. apply span_digits_length in E.
    intros H; inversion H; subst. cbn [String.length]. lia.
Qed.

Lemma scan_frac_length (s frac s3 : string) :
  scan_frac s = (frac, s3) -> String.length s3 <= String.length s.
Proof.
  destruct s as [|p t]; cbn [scan_frac].
  - intros H; inversion H; subst. lia.
  - destruct (p =? ".")%char; [|intros H; inversion H; subst; lia].
    destruct (span_digits t) as [fd t'] eqn:E. apply span_digits_length in E.
    destruct (is_empty fd); intros H; inversion H; subst;
      cbn [String.length]; lia.
Qed.

Lemma scan_exp_length (s : string) (ex : option Z) (s4 : string) :
  scan_exp s = (ex, s4) -> String.length s4 <= String.length s.
Proof.
  destruct s as [|p t]; cbn [scan_exp].
  - intros H; inversion H; subst. lia.
  - destruct ((p =? "e")%char || (p =? "E")%char);
      [|intros H; inversion H; subst; lia].
    assert (Hsign : forall eneg t1,
               match t with
               | String g t0 =>
                   if (g =? "-")%char then (true, t0)
                   else if (g =? "+")%char then (false, t0)
                   else (false, t)
               | EmptyString => (false, t)
               end = (eneg, t1) -> String.length t1 <= String.length t).
    { intros eneg t1. destruct t as [|g t0]; [|destruct (g =? "-")%char;
        [|destruct (g =? "+")%char]]; intros H; inversion H; subst;
        cbn [String.length]; lia. }
    destruct (match t with String g t0 => _ | EmptyString => _ end)
      as [eneg t1] eqn:Et.
    specialize (Hsign eneg t1 eq_refl).
    destruct (span_digits t1) as [ed t2] eqn:E. apply span_digits_length in E.
    destruct (is_empty ed); intros H; inversion H; subst;
      cbn [String.length]; lia.
Qed.

(** A number takes at least one digit. *)
Lemma scan_number_length (s : string) (v : json) (rest : string) :
  scan_number s = Scanned v rest ->
  String.length rest < String.length s.
Proof.
  unfold scan_number.
  destruct (scan_sign s) as [neg s1] eqn:E1. apply scan_sign_length in E1.
  destruct (scan_int_part s1) as [[ip s2]|] eqn:E2; [|discriminate].
  apply scan_int_part_length in E2.
  destruct (scan_frac s2) as [frac s3] eqn:E3. apply scan_frac_length in E3.
  destruct (scan_exp s3) as [ex s4] eqn:E4. apply scan_exp_length in E4.
  destruct (is_empty frac), ex;
    try destruct (max_str_digits <? String.length ip)%nat;
    intros H; inversion H; subst; lia.
Qed.

Lemma scan_number_has_fuel (s : string) : scan_number s <> Failed NoFuel.
Proof.
  unfold scan_number.
  destruct (scan_sign s) as [neg s1].
  destruct (scan_int_part s1) as [[ip s2]|]; [|discriminate].
  destruct (scan_frac s2) as [frac s3].
  destruct (scan_exp s3) as [ex s4].
  destruct (is_empty frac), ex;
    try destruct (max_str_digits <? String.length ip)%nat; discriminate.
Qed.

(** What the scanner returns it returns with any fuel that is at least the
    number of characters it has read. *)
Lemma parse_fuel (f : nat) :
  (forall d s v rest,
      parse_value f d s = Scanned v rest ->
      String.length rest < String.length s
      /\ forall f', String.length s - String.length rest <= f' ->
                    parse_value f' d s = Scanned v rest)
  /\ (forall d s vs rest,
         parse_elements f d s = Scanned vs rest ->
         String.length rest < String.length s
         /\ forall f', String.length s - String.length rest <= f' ->
                       parse_elements f' d s = Scanned vs rest)
  /\ (forall d s kvs rest,
         parse_members f d s = Scanned kvs rest ->
         String.length rest < String.length s
         /\ forall f', String.length s - String.length rest <= f' ->
                       parse_members f' d s = Scanned kvs rest).
Proof.
  induction f as [|f [IHv [IHe IHm]]]; [repeat split; discriminate|].
  split; [|split].
  - (* a value *)
    intros d s v rest H. destruct s as [|c r]; [discriminate|].
    cbn [parse_value] in H.
    assert (Hleaf :
               String.length rest < String.length (String c r) ->
               (forall f'', String.length (String c r) - String.length rest <= S f'' ->
                            parse_value (S f'') d (String c r) = Scanned v rest) ->
               String.length rest < String.length (String c r)
               /\ forall f', String.length (String c r) - String.length rest <= f' ->
                             parse_value f' d (String c r) = Scanned v rest).
    { intros Hl Hf. split; [exact Hl|]. intros [|f''] Hf'; [lia | now apply Hf]. }
    destruct (c =? quote)%char eqn:Eq.
    { destruct (scan_string r) as [[x rest0]|] eqn:Es; [|discriminate].
      inversion H; subst. pose proof (scan_string_length _ _ _ _ (le_n _) Es).
      apply Hleaf; [cbn [String.length]; lia|].
      intros f'' _. cbn [parse_value]. now rewrite Eq, Es. }
    destruct (c =? "{")%char eqn:Eo.
    { destruct d as [|d']; [discriminate|].
      pose proof (skip_ws_length r) as Hws.
      destruct (skip_ws r) as [|c' r'] eqn:Ew; [discriminate|].
      destruct (c' =? "}")%char eqn:Ec.
      - inversion H; subst. cbn [String.length] in *.
        apply Hleaf; [cbn [String.length]; lia|].
        intros f'' _. cbn [parse_value]. now rewrite Eq, Eo, Ew, Ec.
      - destruct (parse_members f d' (String c' r')) as [kvs rest0|e] eqn:Em;
          [|discriminate].
        inversion H; subst. destruct (IHm _ _ _ _ Em) as [Hl Hf].
        cbn [String.length] in *.
        apply Hleaf; [cbn [String.length]; lia|].
        intros f'' Hf''. cbn [parse_value]. rewrite Eq, Eo, Ew, Ec.
        rewrite (Hf f'') by (cbn [String.length] in *; lia). reflexivity. }
    destruct (c =? "[")%char eqn:Ea.
    { destruct d as [|d']; [discriminate|].
      pose proof (skip_ws_length r) as Hws.
      destruct (skip_ws r) as [|c' r'] eqn:Ew; [discriminate|].
      destruct (c' =? "]")%char eqn:Ec.
      - inversion H; subst. cbn [String.length] in *.
        apply Hleaf; [cbn [String.length]; lia|].
        intros f'' _. cbn [parse_value]. now rewrite Eq, Eo, Ea, Ew, Ec.
      - destruct (parse_elements f d' (String c' r')) as [vs rest0|e] eqn:Ee;
          [|discriminate].
        inversion H; subst. destruct (IHe _ _ _ _ Ee) as [Hl Hf].
        cbn [String.length] in *.
        apply Hleaf; [cbn [String.length]; lia|].
        intros f'' Hf''. cbn [parse_value]. rewrite Eq, Eo, Ea, Ew, Ec.
        rewrite (Hf f'') by (cbn [String.length] in *; lia). reflexivity. }
    assert (Hl : String.length rest < String.length (String c r)).
    { repeat match type of H with
             | (if ?b then _ else _) = _ => destruct b
             end;
        try (eapply keyword_length; [|exact H]; cbn; lia).
      eapply scan_number_length; exact H. }
    apply Hleaf; [exact Hl|].
    intros f'' _. cbn [parse_value]. rewrite Eq, Eo, Ea. exact H.
  - (* the elements of an array *)
    intros d s vs rest H. cbn [parse_elements] in H.
    destruct (parse_value f d s) as [v rest1|e] eqn:Ev; [|discriminate].
    destruct (IHv _ _ _ _ Ev) as [Hl1 Hf1].
    pose proof (skip_ws_length rest1) as Hws.
    destruct (skip_ws rest1) as [|c r] eqn:Ew; [discriminate|].
    cbn [String.length] in Hws.
    destruct (c =? "]")%char eqn:Ec.
    + inversion H; subst. split; [lia|].
      intros [|f''] Hf'; [lia|]. cbn [parse_elements].
      rewrite (Hf1 f'') by lia. now rewrite Ew, Ec.
    + destruct (c =? ",")%char eqn:Ek; [|discriminate].
      pose proof (skip_ws_length r) as Hws2.
      destruct (parse_elements f d (skip_ws r)) as [vs' rest2|e] eqn:Ee;
        [|discriminate].
      inversion H; subst. destruct (IHe _ _ _ _ Ee) as [Hl2 Hf2].
      split; [lia|].
      intros [|f''] Hf'; [lia|]. cbn [parse_elements].
      rewrite (Hf1 f'') by lia. rewrite Ew, Ec, Ek.
      rewrite (Hf2 f'') by lia. reflexivity.
  - (* the members of an object *)
    intros d s kvs rest H. cbn [parse_members] in H.
    destruct s as [|q r]; [discriminate|].
    destruct (q =? quote)%char eqn:Eq; [|discriminate].
    destruct (scan_string r) as [[k rest0]|] eqn:Es; [|discriminate].
    pose proof (scan_string_length _ _ _ _ (le_n _) Es) as Hl0.
    pose proof (skip_ws_length rest0) as Hws0.
    destruct (skip_ws rest0) as [|c r1] eqn:Ew0; [discriminate|].
    cbn [String.length] in Hws0.
    destruct (c =? ":")%char eqn:Ec; [|discriminate].
    pose proof (skip_ws_length r1) as Hws1.
    destruct (parse_value f d (skip_ws r1)) as [v rest1|e] eqn:Ev; [|discriminate].
    destruct (IHv _ _ _ _ Ev) as [Hl1 Hf1].
    pose proof (skip_ws_length rest1) as Hws2.
    destruct (skip_ws rest1) as [|c2 r2] eqn:Ew1; [discriminate|].
    cbn [String.length] in Hws2 |- *.
    destruct (c2 =? "}")%char eqn:Ec2.
    + inversion H; subst. split; [lia|].
      intros [|f''] Hf'; [lia|]. cbn [parse_members].
      rewrite Eq, Es, Ew0, Ec. rewrite (Hf1 f'') by lia.
      now rewrite Ew1, Ec2.
    + destruct (c2 =? ",")%char eqn:Ek; [|discriminate].
      pose proof (skip_ws_length r2) as Hws3.
      destruct (parse_members f d (skip_ws r2)) as [kvs' rest2|e] eqn:Em;
        [|discriminate].
      inversion H; subst. destruct (IHm _ _ _ _ Em) as [Hl2 Hf2].
      split; [lia|].
      intros [|f''] Hf'; [lia|]. cbn [parse_members].
      rewrite Eq, Es, Ew0, Ec. rewrite (Hf1 f'') by lia.
      rewrite Ew1, Ec2, Ek. rewrite (Hf2 f'') by lia. reflexivity.
Qed.

Lemma parse_value_shorter (f d : nat) (s : string) (v : json) (rest : string) :
  parse_value f d s = Scanned v rest -> String.length rest < String.length s.
Proof. intros H. destruct (parse_fuel f) as [Hv _]. now destruct (Hv _ _ _ _ H). Qed.

(** With more than twice the characters of the text for fuel, the scanner
    does not stop for want of it. *)
Lemma parse_has_fuel (f : nat) :
  (forall d s, 2 * String.length s < f -> parse_value f d s <> Failed NoFuel)
  /\ (forall d s, 2 * String.length s + 1 < f -> parse_elements f d s <> Failed NoFuel)
  /\ (forall d s, 2 * String.length s < f -> parse_members f d s <> Failed NoFuel).
Proof.
  induction f as [|f [IHv [IHe IHm]]]; [repeat split; intros; lia|].
  split; [|split].
  - intros d s Hf. destruct s as [|c r]; [discriminate|].
    cbn [parse_value]. cbn [String.length] in Hf.
    destruct (c =? quote)%char.
    { destruct (scan_string r) as [[x rest0]|]; discriminate. }
    destruct (c =? "{")%char.
    { destruct d as [|d']; [discriminate|].
      pose proof (skip_ws_length r) as Hws.
      destruct (skip_ws r) as [|c' r'] eqn:Ew; [discriminate|].
      destruct (c' =? "}")%char; [discriminate|].
      pose proof (IHm d' (String c' r')) as Hm.
      destruct (parse_members f d' (String c' r')) as [kvs rest0|e]; [discriminate|].
      intros H; inversion H; subst. apply Hm; [lia | reflexivity]. }
    destruct (c =? "[")%char.
    { destruct d as [|d']; [discriminate|].
      pose proof (skip_ws_length r) as Hws.
      destruct (skip_ws r) as [|c' r'] eqn:Ew; [discriminate|].
      destruct (c' =? "]")%char; [discriminate|].
      pose proof (IHe d' (String c' r')) as He.
      destruct (parse_elements f d' (String c' r')) as [vs rest0|e]; [discriminate|].
      intros H; inversion H; subst. apply He; [lia | reflexivity]. }
    repeat match goal with
           | |- (if ?b then _ else _) <> _ => destruct b
           end;
      try apply keyword_has_fuel.
    apply scan_number_has_fuel.
  - intros d s Hf. cbn [parse_elements].
    pose proof (IHv d s) as Hv.
    destruct (parse_value f d s) as [v rest1|e] eqn:Ev;
      [|intros H; inversion H; subst; apply Hv; [lia | reflexivity]].
    apply parse_value_shorter in Ev.
    pose proof (skip_ws_length rest1) as Hws.
    destruct (skip_ws rest1) as [|c r] eqn:Ew; [discriminate|].
    cbn [String.length] in Hws.
    destruct (c =? "]")%char; [discriminate|].
    destruct (c =? ",")%char; [|discriminate].
    pose proof (skip_ws_length r) as Hws2.
    pose proof (IHe d (skip_ws r)) as He.
    destruct (parse_elements f d (skip_ws r)) as [vs' rest2|e]; [discriminate|].
    intros H; inversion H; subst. apply He; [lia | reflexivity].
  - intros d s Hf. cbn [parse_members].
    destruct s as [|q r]; [discriminate|]. cbn [String.length] in Hf.
    destruct (q =? quote)%char; [|discriminate].
    destruct (scan_string r) as [[k rest0]|] eqn:Es; [|discriminate].
    pose proof (scan_string_length _ _ _ _ (le_n _) Es) as Hl0.
    pose proof (skip_ws_length rest0) as Hws0.
    destruct (skip_ws rest0) as [|c r1] eqn:Ew0; [discriminate|].
    cbn [String.length] in Hws0.
    destruct (c =? ":")%char; [|discriminate].
    pose proof (skip_ws_length r1) as Hws1.
    pose proof (IHv d (skip_ws r1)) as Hv.
    destruct (parse_value f d (skip_ws r1)) as [v rest1|e] eqn:Ev;
      [|intros H; inversion H; subst; apply Hv; [lia | reflexivity]].
    apply parse_value_shorter in Ev.
    pose proof (skip_ws_length rest1) as Hws2.
    destruct (skip_ws rest1) as [|c2 r2] eqn:Ew1; [discriminate|].
    cbn [String.length] in Hws2.
    destruct (c2 =? "}")%char; [discriminate|].
    destruct (c2 =? ",")%char; [|discriminate].
    pose proof (skip_ws_length r2) as Hws3.
    pose proof (IHm d (skip_ws r2)) as Hm.
    destruct (parse_members f d (skip_ws r2)) as [kvs' rest2|e]; [discriminate|].
    intros H; inversion H; subst. apply Hm; [lia | reflexivity].
Qed.

(** The scanner on a whole text does not fail for want of fuel: what it
    returns with any fuel, it returns with the fuel [scan_text] gives it, and
    it never stops for want of it. *)
Lemma scan_text_fuel (f limit : nat) (s : string) (v : json) (rest : string) :
  parse_value f limit (skip_ws s) = Scanned v rest ->
  parse_value (S (2 * String.length s)) limit (skip_ws s) = Scanned v rest.
Proof.
  intros H. destruct (parse_fuel f) as [Hv _].
  destruct (Hv _ _ _ _ H) as [_ Hf]. apply Hf.
  pose proof (skip_ws_length s). lia.
Qed.

Lemma scan_text_has_fuel (limit : nat) (s : string) : scan_text limit s <> inr NoFuel.
Proof.
  unfold scan_text.
  destruct (parse_has_fuel (S (2 * String.length s))) as [Hv _].
  pose proof (Hv limit (skip_ws s)) as H. pose proof (skip_ws_length s) as Hl.
  destruct (parse_value (S (2 * String.length s)) limit (skip_ws s)) as [v rest|e].
  - destruct (is_empty (skip_ws rest)); discriminate.
  - intros He. inversion He; subst. apply H; [lia | reflexivity].
Qed.

(* ================================================================== *)
(** ** What the serializer writes, the scanner reads back *)
(* ================================================================== *)

(** One escaped character is read back as that character. *)
Lemma scan_string_escape_char (c : ascii) (t : string) :
  scan_string (escape_char c ++ t) = prepend (String c "") (scan_string t).
Proof.
  destruct c as [[] [] [] [] [] [] [] []]; reflexivity.
Qed.

Lemma scan_string_escape (s rest : string) :
  scan_string (escape s ++ String quote rest) = Some (s, rest).
Proof.
  induction s as [|c s IH]; [reflexivity|].
  cbn [escape]. rewrite append_assoc, scan_string_escape_char, IH.
  reflexivity.
Qed.

(** A song written at depth one is read back, whatever follows it, when one
    more object may be entered. *)
Lemma parse_value_song (s : song) (rest : string) (fuel depth : nat) :
  parse_value (S (S (S (S fuel)))) (S depth) (encode 1 (song_json s) ++ rest)
  = Scanned (song_json s) rest.
Proof.
  destruct s as [t n]. unfold song_json, title, number.
  cbn [encode map join].
  unfold encode_string.
  repeat rewrite append_assoc.
  cbn [append newline_indent spaces Nat.mul Nat.add].
  repeat rewrite append_assoc.
  cbn [append].
  simpl. rewrite scan_string_escape.
  simpl. rewrite scan_string_escape.
  simpl. reflexivity.
Qed.

Lemma skip_ws_spaces (n : nat) (s : string) : skip_ws (spaces n ++ s) = skip_ws s.
Proof. induction n as [|n IH]; [reflexivity | exact IH]. Qed.

Lemma skip_ws_newline_indent (level : nat) (s : string) :
  skip_ws (newline_indent level ++ s) = skip_ws s.
Proof. unfold newline_indent. simpl. apply skip_ws_spaces. Qed.

Lemma elements_text_cons (s s' : song) (l : list song) :
  elements_text (s :: s' :: l)
  = encode 1 (song_json s) ++ "," ++ newline_indent 1 ++ elements_text (s' :: l).
Proof. unfold elements_text. cbn [map join]. now rewrite append_assoc. Qed.

Lemma elements_text_head (s : song) (l : list song) :
  exists t, elements_text (s :: l) = String "{" t.
Proof.
  destruct l as [|s' l].
  - unfold elements_text. cbn [map join]. destruct s as [t n]. simpl. eauto.
  - rewrite elements_text_cons. destruct s as [t n]. simpl. eauto.
Qed.

Lemma parse_elements_songs (l : list song) :
  forall (s : song) (rest : string) (fuel depth : nat),
    length l + 5 <= fuel ->
    parse_elements fuel (S depth)
      (elements_text (s :: l) ++ newline_indent 0 ++ String "]" rest)
    = Scanned (map song_json (s :: l)) rest.
Proof.
  induction l as [|s' l IH]; intros s rest fuel depth Hfuel.
  - do 5 (destruct fuel as [|fuel]; [simpl in Hfuel; lia|]).
    unfold elements_text. cbn [map join].
    cbn [parse_elements]. rewrite parse_value_song.
    reflexivity.
  - destruct fuel as [|fuel]; [simpl in Hfuel; lia|].
    assert (Hf : length l + 5 <= fuel) by (simpl in Hfuel; lia).
    rewrite elements_text_cons. repeat rewrite append_assoc.
    cbn [parse_elements].
    destruct fuel as [|[|[|[|fuel']]]]; try lia.
    rewrite parse_value_song.
    cbn [append skip_ws lstrip_with].
    change (is_json_ws ",") with false. cbv beta iota.
    change ("," =? "]")%char with false. change ("," =? ",")%char with true.
    cbv beta iota.
    fold (skip_ws (newline_indent 1 ++
         elements_text (s' :: l) ++ newline_indent 0 ++ String "]" rest)).
    rewrite skip_ws_newline_indent.
    destruct (elements_text_head s' l) as [t Ht].
    assert (Hskip : forall X, skip_ws (elements_text (s' :: l) ++ X)
                              = elements_text (s' :: l) ++ X)
      by (intros X; rewrite Ht; reflexivity).
    rewrite Hskip, IH by exact Hf. reflexivity.
Qed.

Lemma elements_text_length (l : list song) :
  length l <= String.length (elements_text l).
Proof.
  induction l as [|s l IH]; [simpl; lia|].
  destruct l as [|s' l].
  - destruct (elements_text_head s []) as [t ->]. simpl. lia.
  - rewrite elements_text_cons, !length_append.
    cbn [String.length length] in *. lia.
Qed.

Lemma json_dumps_catalog (s : song) (l : list song) :
  json_dumps (catalog_json (s :: l))
  = String "[" (newline_indent 1 ++ elements_text (s :: l) ++ newline_indent 0 ++ "]").
Proof. reflexivity. Qed.

Lemma parse_value_catalog (s : song) (l : list song) (rest : string) (fuel depth : nat) :
  length l + 5 <= fuel ->
  parse_value (S fuel) (S (S depth))
    (String "[" (newline_indent 1 ++ elements_text (s :: l)
                 ++ newline_indent 0 ++ String "]" rest))
  = Scanned (catalog_json (s :: l)) rest.
Proof.
  intros Hfuel.
  cbn [parse_value].
  change ("[" =? quote)%char with false. change ("[" =? "{")%char with false.
  change ("[" =? "[")%char with true. cbv beta iota.
  rewrite skip_ws_newline_indent.
  pose proof (parse_elements_songs l s rest fuel depth Hfuel) as Hp.
  destruct (elements_text_head s l) as [t Ht]. rewrite Ht in *.
  cbn [append skip_ws lstrip_with] in *.
  change (is_json_ws "{") with false. cbv beta iota.
  change ("{" =? "]")%char with false. cbv beta iota.
  rewrite Hp. reflexivity.
Qed.

(** What [json.dump] writes for a catalog, [json.load] reads back: a catalog
    is nested two deep, which the scanner can always enter. *)
Lemma json_loads_dumps_catalog (songs : list song) :
  json_loads (json_dumps (catalog_json songs)) = inl (catalog_json songs).
Proof.
  destruct songs as [|s l]; [reflexivity|].
  rewrite json_dumps_catalog. unfold json_loads, scan_text.
  set (text := String "[" _).
  assert (Hlen : length l + 5 <= 2 * String.length text).
  { subst text. cbn [String.length]. rewrite !length_append.
    pose proof (elements_text_length (s :: l)) as H. cbn [length] in H.
    cbn [newline_indent spaces Nat.mul Nat.add String.length]. lia. }
  subst text. cbn [skip_ws lstrip_with].
  change (is_json_ws "[") with false. cbv beta iota.
  rewrite parse_value_catalog by exact Hlen. reflexivity.
Qed.

(** [json_loads] never stops for want of fuel. *)
Lemma json_loads_has_fuel (s : string) : json_loads s <> inr NoFuel.
Proof. apply scan_text_has_fuel. Qed.

(** *** The chunks of a catalog *)

Lemma iterencode_song (s : song) :
  iterencode 1 (song_json s)
  = ["{"; newline_indent 2; encode_string "title"; ": "; encode_string (title s);
     "," ++ newline_indent 2; encode_string "number"; ": "; encode_string (number s);
     newline_indent 1; "}"].
Proof. reflexivity. Qed.

Lemma flat_map_items (buf : string) (l : list song) :
  flat_map (fun y => match y with
                     | JList _ | JDict _ => buf :: iterencode 1 y
                     | _ => [buf ++ encode_scalar y]
                     end) (map song_json l)
  = flat_map (fun s => buf :: iterencode 1 (song_json s)) l.
Proof.
  induction l as [|s l IH]; [reflexivity|]. cbn [map flat_map]. now rewrite IH.
Qed.

Lemma iterencode_catalog (s : song) (l : list song) :
  iterencode 0 (catalog_json (s :: l))
  = (("[" ++ newline_indent 1)%string :: iterencode 1 (song_json s)
     ++ more_chunks l ++ [newline_indent 0; "]"])%list.
Proof.
  unfold catalog_json, more_chunks. cbn [map].
  change (iterencode 0 (JList (song_json s :: map song_json l)))
    with ((("[" ++ newline_indent 1)%string :: iterencode 1 (song_json s))
          ++ flat_map (fun y => match y with
                                | JList _ | JDict _ =>
                                    ("," ++ newline_indent 1)%string :: iterencode 1 y
                                | _ => [(("," ++ newline_indent 1) ++ encode_scalar y)%string]
                                end) (map song_json l)
          ++ [newline_indent 0; "]"])%list.
  now rewrite flat_map_items.
Qed.

Lemma cat_iterencode_song (s : song) :
  cat (iterencode 1 (song_json s)) = encode 1 (song_json s).
Proof.
  rewrite iterencode_song. destruct s as [t n]. cbn [title number cat].
  unfold song_json. cbn [encode map join title number].
  repeat rewrite append_assoc. rewrite append_nil_r. reflexivity.
Qed.

Lemma more_chunks_cons (s : song) (l : list song) :
  more_chunks (s :: l)
  = (("," ++ newline_indent 1)%string :: iterencode 1 (song_json s) ++ more_chunks l)%list.
Proof. reflexivity. Qed.

Lemma cat_cons (x : string) (l : list string) : cat (x :: l) = x ++ cat l.
Proof. reflexivity. Qed.

Lemma cat_more_chunks (s : song) (l : list song) :
  encode 1 (song_json s) ++ cat (more_chunks l) = elements_text (s :: l).
Proof.
  revert s; induction l as [|s' l IH]; intros s.
  - unfold elements_text. cbn [more_chunks flat_map cat map join].
    apply append_nil_r.
  - rewrite elements_text_cons, <- IH, more_chunks_cons, cat_cons.
    rewrite cat_app, cat_iterencode_song, !append_assoc. reflexivity.
Qed.

(** The chunks of a catalog make up its text. *)
Lemma cat_iterencode_catalog (l : list song) :
  cat (iterencode 0 (catalog_json l)) = json_dumps (catalog_json l).
Proof.
  destruct l as [|s l]; [reflexivity|].
  rewrite iterencode_catalog, json_dumps_catalog, cat_cons.
  rewrite !cat_app, cat_iterencode_song, !cat_cons.
  rewrite <- (cat_more_chunks s l), !append_assoc. cbn [cat].
  rewrite append_nil_r. reflexivity.
Qed.

Lemma valid_iterencode_song (s : song) :
  forallb valid_utf8 (iterencode 1 (song_json s)) = encodable_song s.
Proof.
  rewrite iterencode_song. unfold encodable_song. cbn [forallb].
  rewrite !valid_utf8_encode_string.
  destruct (valid_utf8 (title s)), (valid_utf8 (number s)); reflexivity.
Qed.

Lemma valid_more_chunks (l : list song) :
  forallb valid_utf8 (more_chunks l) = encodable l.
Proof.
  induction l as [|s l IH]; [reflexivity|].
  rewrite more_chunks_cons. cbn [encodable forallb].
  rewrite forallb_app, valid_iterencode_song, IH. reflexivity.
Qed.

(** The chunks of a catalog encode exactly when its titles and numbers do. *)
Lemma valid_iterencode_catalog (l : list song) :
  forallb valid_utf8 (iterencode 0 (catalog_json l)) = encodable l.
Proof.
  destruct l as [|s l]; [reflexivity|].
  rewrite iterencode_catalog. cbn [forallb encodable].
  rewrite !forallb_app, valid_iterencode_song, valid_more_chunks.
  cbn [forallb]. change (valid_utf8 ("[" ++ newline_indent 1)) with true.
  change (valid_utf8 (newline_indent 0)) with true.
  change (valid_utf8 "]") with true.
  now rewrite !andb_true_r.
Qed.

Lemma encodable_chunks_all (chunks : list string) :
  forallb valid_utf8 chunks = true -> encodable_chunks chunks = chunks.
Proof.
  induction chunks as [|x l IH]; [reflexivity|]. cbn [forallb encodable_chunks].
  intros H. apply andb_true_iff in H. destruct H as [-> Hl]. now rewrite IH.
Qed.

(** A text of which a valid part is written encodes as a whole. *)
Lemma valid_json_dumps_catalog (l : list song) :
  encodable l = true -> valid_utf8 (json_dumps (catalog_json l)) = true.
Proof.
  intros H. rewrite <- cat_iterencode_catalog. apply valid_utf8_cat.
  now rewrite valid_iterencode_catalog.
Qed.

(* ================================================================== *)
(** ** The storage adapter: loading and saving *)
(* ================================================================== *)

(** The loop of [load_songs] keeps what it has and appends, entry by entry. *)
Lemma normalize_item_app (acc : list song) (item : json) :
  normalize_item acc item = (acc ++ normalize_item [] item)%list.
Proof.
  destruct item; simpl; try reflexivity; now rewrite app_nil_r.
Qed.

Lemma fold_normalize_flat_map (items : list json) (acc : list song) :
  fold_left normalize_item items acc
  = (acc ++ flat_map (normalize_item []) items)%list.
Proof.
  revert acc; induction items as [|item items IH]; intros acc; simpl.
  - now rewrite app_nil_r.
  - rewrite IH, (normalize_item_app acc item), app_assoc. reflexivity.
Qed.

(** A song that was saved needs no normalization. *)
Lemma normalize_item_song (s : song) : normalize_item [] (song_json s) = [s].
Proof.
  destruct s as [[|c t] [|d n]]; reflexivity.
Qed.

Lemma fold_normalize_songs (songs : list song) :
  fold_left normalize_item (map song_json songs) [] = songs.
Proof.
  rewrite fold_normalize_flat_map. simpl.
  induction songs as [|s l IH]; [reflexivity|].
  cbn [map flat_map]. rewrite normalize_item_song, IH. reflexivity.
Qed.

(** What [load_songs] does on a file that is there, can be read and decodes,
    by what the text parses to. *)
Lemma load_songs_present (w : world) (text : string) :
  file w = Some text ->
  read_error w = None ->
  valid_utf8 text = true ->
  load_songs w =
  match json_loads text with
  | inl (JList items) => (Returned (fold_left normalize_item items []), w)
  | inl _ => (Returned [], w)
  | inr e =>
      (Returned [],
       shown (ShowError "Error" ("Failed to load songs.json: " ++ exn_str (scan_exn e))) w)
  end.
Proof.
  destruct w as [f re we ds out]. cbn [file read_error]. intros -> -> Hv.
  unfold load_songs, json_load, read_text. run. rewrite Hv.
  destruct (json_loads text) as [[]|e]; reflexivity.
Qed.

(** A backing file that is there and cannot be read: the failure is shown and
    the catalog is empty. *)
Lemma load_songs_unreadable (w : world) (text msg : string) :
  file w = Some text ->
  read_error w = Some msg ->
  load_songs w
  = (Returned [], shown (ShowError "Error" ("Failed to load songs.json: " ++ msg)) w).
Proof.
  destruct w as [f re we ds out]. cbn [file read_error]. intros -> ->.
  reflexivity.
Qed.

(** A backing file whose bytes do not decode: the failure is shown and the
    catalog is empty. *)
Lemma load_songs_undecodable (w : world) (text : string) :
  file w = Some text ->
  read_error w = None ->
  valid_utf8 text = false ->
  load_songs w
  = (Returned [],
     shown (ShowError "Error" "Failed to load songs.json: invalid start byte") w).
Proof.
  destruct w as [f re we ds out]. cbn [file read_error]. intros -> -> Hv.
  unfold load_songs, json_load, read_text. run. rewrite Hv. reflexivity.
Qed.

(** What [save_songs] does, by what the host lets be done and by whether the
    catalog encodes. *)
Lemma save_songs_run (songs : list song) (w : world) :
  save_songs songs w
  = match write_error w with
    | Some msg =>
        (Returned tt, shown (ShowError "Error" ("Failed to save songs.json: " ++ msg)) w)
    | None =>
        if encodable songs
        then (Returned tt, written (json_dumps (catalog_json songs)) w)
        else
          (Returned tt,
           shown (ShowError "Error" "Failed to save songs.json: surrogates not allowed")
             (written (cat (encodable_chunks (iterencode 0 (catalog_json songs)))) w))
    end.
Proof.
  destruct w as [f re [msg|] ds out]; [reflexivity|].
  unfold save_songs, json_dump, write_chunks, try_except.
  cbn [write_error read_error dialogs stdout].
  fold (catalog_json songs). rewrite valid_iterencode_catalog.
  destruct (encodable songs) eqn:E; [|reflexivity].
  rewrite encodable_chunks_all by now rewrite valid_iterencode_catalog.
  now rewrite cat_iterencode_catalog.
Qed.

(** [save_songs] on a file that can be written, of a catalog that encodes. *)
Lemma save_songs_ok (songs : list song) (w : world) :
  write_error w = None ->
  encodable songs = true ->
  save_songs songs w = (Returned tt, written (json_dumps (catalog_json songs)) w).
Proof. intros Hw He. now rewrite save_songs_run, Hw, He. Qed.

(** [save_songs] on a file that cannot be written: the failure is shown, the
    file stays as it is and [save_songs] returns. *)
Lemma save_songs_failure (songs : list song) (w : world) (msg : string) :
  write_error w = Some msg ->
  save_songs songs w
  = (Returned tt, shown (ShowError "Error" ("Failed to save songs.json: " ++ msg)) w).
Proof. intros Hw. now rewrite save_songs_run, Hw. Qed.

(** [save_songs] returns whatever the host answers: a failure is shown and,
    when the host refuses the file, the file is left as it was. *)
Lemma save_songs_returns (songs : list song) (w : world) :
  exists w', save_songs songs w = (Returned tt, w') /\
             (write_error w <> None -> file w' = file w).
Proof.
  rewrite save_songs_run. destruct (write_error w) as [msg|].
  - eexists. split; [reflexivity|]. reflexivity.
  - destruct (encodable songs); eexists; (split; [reflexivity | congruence]).
Qed.

(** What a failed [write] leaves is a part of the text, short of it. *)
Lemma encodable_chunks_prefix (chunks : list string) :
  forallb valid_utf8 chunks = false ->
  exists q, cat chunks = cat (encodable_chunks chunks) ++ q /\ q <> "".
Proof.
  induction chunks as [|x l IH]; [discriminate|]. cbn [forallb encodable_chunks cat].
  destruct (valid_utf8 x) eqn:Ex; cbn [andb].
  - intros H. destruct (IH H) as [q [Hq Hne]]. exists q.
    split; [|exact Hne]. cbn [cat]. now rewrite Hq, append_assoc.
  - intros _. exists (x ++ cat l). split; [reflexivity|].
    destruct x; [discriminate Ex | discriminate].
Qed.

(** [load_songs] returns whenever the backing file is there. *)
Lemma load_songs_returns_when_present (w : world) (text : string) :
  file w = Some text ->
  exists records w', load_songs w = (Returned records, w').
Proof.
  intros Hf. destruct (read_error w) as [msg|] eqn:Er.
  - rewrite (load_songs_unreadable w text msg Hf Er). eauto.
  - destruct (valid_utf8 text) eqn:Ev.
    + rewrite (load_songs_present w text Hf Er Ev).
      destruct (json_loads text) as [[]|e]; eauto.
    + rewrite (load_songs_undecodable w text Hf Er Ev). eauto.
Qed.

(** What was saved is what the next load returns. *)
Lemma load_saved (l : list song) (w : world) :
  read_error w = None ->
  encodable l = true ->
  load_songs (written (json_dumps (catalog_json l)) w)
  = (Returned l, written (json_dumps (catalog_json l)) w).
Proof.
  intros Hr He.
  rewrite (load_songs_present _ (json_dumps (catalog_json l)));
    [|reflexivity | exact Hr | now apply valid_json_dumps_catalog].
  rewrite json_loads_dumps_catalog. unfold catalog_json.
  now rewrite fold_normalize_songs.
Qed.

(** C1, amended.  For every catalog of [{title, number}] records whose
    titles and numbers encode in UTF-8, that is, hold no surrogate, [save] and
    then [load], on a backing file the host lets be written and read, returns
    the same records in the same order; no message box is shown. *)
Theorem save_then_load_roundtrip (catalog : list song) (w : world) :
  write_error w = None ->
  read_error w = None ->
  encodable catalog = true ->
  (save_songs catalog ;; load_songs) w
  = (Returned catalog,
     mkWorld (Some (json_dumps (catalog_json catalog)))
       None None (dialogs w) (stdout w)).
Proof.
  destruct w as [f re we ds out]. cbn [write_error read_error]. intros -> -> He.
  unfold bind at 1. rewrite save_songs_ok by (reflexivity || exact He).
  now rewrite load_saved.
Qed.

(** C7. When the backing file is absent and the host lets it be created,
    [load] creates it holding the serialization of the empty list, which is
    the text [[]], and returns the empty catalog. *)
Theorem load_creates_missing_file (w : world) :
  file w = None ->
  write_error w = None ->
  load_songs w
  = (Returned [],
     mkWorld (Some (json_dumps (JList []))) (read_error w) None (dialogs w) (stdout w))
  /\ json_dumps (JList []) = "[]".
Proof.
  destruct w as [f re we ds out]. cbn [file write_error]. intros -> ->.
  split; reflexivity.
Qed.

(** C8, at the input where it fails.  The backing file is absent and the host
    refuses to create it: the error of [open] leaves [load_songs], since the
    creation of the file stands before the [try]. *)
Theorem load_raises_when_creation_fails :
  load_songs (mkWorld None None (Some "Permission denied") [] [])
  = (Raised (OSError "Permission denied"),
     mkWorld None None (Some "Permission denied") [] []).
Proof. reflexivity. Qed.

(** *** Normalization *)

Lemma py_or_true (a b : json) : truthy a = true -> py_or a b = a.
Proof. unfold py_or. now intros ->. Qed.

Lemma py_or_false (a b : json) : truthy a = false -> py_or a b = b.
Proof. unfold py_or. now intros ->. Qed.

Lemma py_or_chain (d : list (string * json)) (k fallback : string) :
  py_str (py_or (py_or (dict_get d k) (dict_get d fallback)) (JStr ""))
  = field_value d k fallback.
Proof.
  assert (Hlast : forall v' : option json,
             py_str (py_or match v' with Some x => x | None => JNull end (JStr ""))
             = match v' with
               | Some x => if truthy x then py_str x else ""
               | None => ""
               end).
  { intros [x|]; [|reflexivity].
    destruct (truthy x) eqn:Ex;
      [rewrite py_or_true | rewrite py_or_false]; auto. }
  unfold field_value, dict_get.
  destruct (dict_lookup d k) as [v|].
  - destruct (truthy v) eqn:Ev.
    + rewrite (py_or_true v _ Ev), (py_or_true v _ Ev). reflexivity.
    + rewrite (py_or_false v _ Ev). apply Hlast.
  - rewrite (py_or_false JNull _ eq_refl). apply Hlast.
Qed.

Lemma normalize_item_records (item : json) :
  normalize_item [] item = entry_records item.
Proof.
  destruct item; try reflexivity.
  cbn [normalize_item entry_records app]. now rewrite !py_or_chain.
Qed.

Lemma fold_normalize_records (items : list json) :
  fold_left normalize_item items [] = flat_map entry_records items.
Proof.
  rewrite fold_normalize_flat_map. cbn [app].
  induction items as [|item items IH]; [reflexivity|].
  cbn [flat_map]. now rewrite normalize_item_records, IH.
Qed.

(** C2, amended.  On a backing file that holds a JSON list (its bytes decode
    and [json.load] reads them as a list: no integer of more than 4300 digits,
    no nesting beyond what the interpreter follows), [load] gives for each
    mapping the record whose title is the [title] field when it is present
    and true, else the [name] field when it is present and true, else the
    empty string, and likewise the number from [number] and [num], both made
    strings by [str]; for each string the record with that title and an empty
    number; a top-level value that is no list gives the empty catalog.
    Nothing else changes. *)
Theorem load_normalizes_entries (w : world) (text : string) (data : json) :
  file w = Some text ->
  read_error w = None ->
  valid_utf8 text = true ->
  json_loads text = inl data ->
  load_songs w
  = (Returned
       match data with
       | JList items => flat_map entry_records items
       | _ => []
       end, w).
Proof.
  intros Hf Hr Hv Hd. rewrite (load_songs_present w text Hf Hr Hv), Hd.
  destruct data; try reflexivity. now rewrite fold_normalize_records.
Qed.

Lemma entry_records_recognized (item : json) :
  entry_records item = if recognized item then entry_records item else [].
Proof. destruct item; reflexivity. Qed.

Lemma flat_map_entry_records (items : list json) :
  Forall2 (fun item r => entry_records item = [r])
    (filter recognized items) (flat_map entry_records items).
Proof.
  induction items as [|item items IH]; [constructor|].
  cbn [filter flat_map].
  destruct item; cbn [recognized entry_records app]; try exact IH;
    constructor; try reflexivity; exact IH.
Qed.

(** C10, amended.  On a backing file from which [json.load] reads a list (its
    bytes decode, no integer in it has more than 4300 digits and its nesting
    stays within what the interpreter follows), [load] returns one record for
    each entry that is a mapping or a string, in the order of the entries, and
    drops every other entry without a message; each record is a mapping with
    exactly the fields [title] and [number], both strings. *)
Theorem load_keeps_recognized_entries (w : world) (text : string) (items : list json) :
  file w = Some text ->
  read_error w = None ->
  valid_utf8 text = true ->
  json_loads text = inl (JList items) ->
  exists records,
    load_songs w = (Returned records, w)
    /\ Forall2 (fun item r => entry_records item = [r])
         (filter recognized items) records
    /\ length records = length (filter recognized items)
    /\ Forall (fun r => song_json r
                        = JDict [("title", JStr (title r)); ("number", JStr (number r))])
         records.
Proof.
  intros Hf Hr Hv Hd. exists (flat_map entry_records items).
  rewrite (load_songs_present w text Hf Hr Hv), Hd, fold_normalize_records.
  pose proof (flat_map_entry_records items) as H2.
  repeat split.
  - exact H2.
  - symmetry. eapply Forall2_length. exact H2.
  - apply Forall_forall. intros r _. reflexivity.
Qed.


(* ================================================================== *)
(** ** The entry form and the catalog editor *)
(* ================================================================== *)

(** The form gives a record only with a title that is not empty once
    trimmed, and shows nothing then. *)
Lemma AddEditDialog_result (user : form_input) (w w' : world) (r : song) :
  AddEditDialog user w = (Returned (Some r), w') ->
  py_strip (title r) <> "" /\ w' = w.
Proof.
  destruct user as [|t n]; cbn [AddEditDialog]; [discriminate|].
  unfold AddEditDialog_apply. destruct (py_strip t) as [|c t'] eqn:E; run.
  - discriminate.
  - intros H. inversion H; subst. cbn [title]. split; [|reflexivity].
    rewrite <- E, py_strip_idem, E. discriminate.
Qed.

(** A form confirmed with a blank title is refused: a warning, no record. *)
Lemma AddEditDialog_blank (t n : string) (w : world) :
  py_strip t = "" ->
  AddEditDialog (Submit t n) w
  = (Returned None, shown (ShowWarning "Validation" "Title cannot be empty") w).
Proof.
  intros E. cbn [AddEditDialog]. unfold AddEditDialog_apply. rewrite E.
  reflexivity.
Qed.

(** Adding with a blank title changes neither the catalog nor the file. *)
Lemma _on_add_blank (t n : string) (app : SongApp) (w : world) :
  py_strip t = "" ->
  _on_add (Submit t n) app w
  = (Returned app, shown (ShowWarning "Validation" "Title cannot be empty") w).
Proof.
  intros E. unfold _on_add, bind. rewrite (AddEditDialog_blank t n w E).
  reflexivity.
Qed.

(** Adding with a title that is not blank appends the trimmed record and
    saves the catalog. *)
Lemma _on_add_record (t n : string) (app : SongApp) (w : world) :
  py_strip t <> "" ->
  let app1 := _on_search (set_songs (songs app ++ [mkSong (py_strip t) (py_strip n)]) app) in
  _on_add (Submit t n) app w = (Returned app1, snd (save_songs (songs app1) w)).
Proof.
  intros Hne. cbn zeta. unfold _on_add, bind at 1.
  cbn [AddEditDialog]. unfold AddEditDialog_apply.
  destruct (py_strip t) as [|c t'] eqn:E; [congruence|]. cbn [is_empty]. run.
  unfold _auto_save, try_except.
  destruct (save_songs_returns
              (songs (_on_search (set_songs (songs app ++ [mkSong (String c t') (py_strip n)]) app)))
              w) as [w' [Hs _]].
  rewrite Hs. reflexivity.
Qed.

(** Editing with a blank title changes neither the catalog nor the file,
    whatever is selected. *)
Lemma _on_edit_blank (sel : option nat) (t n : string) (app : SongApp) (w : world) :
  py_strip t = "" ->
  exists r w',
    _on_edit sel (Submit t n) app w = (r, w')
    /\ file w' = file w
    /\ forall app', r = Returned app' -> app' = app.
Proof.
  intros E. unfold _on_edit, bind at 1, _selected_index.
  destruct sel as [idx|]; run.
  - destruct (nth_error (filtered app) idx) as [item|]; run.
    + destruct (index_of item (songs app)) as [i|]; run.
      * destruct (nth_error (songs app) i) as [s|]; run.
        -- rewrite (AddEditDialog_blank t n w E).
           do 2 eexists. split; [reflexivity|]. split; [reflexivity|].
           intros app' H; now inversion H.
        -- do 2 eexists. split; [reflexivity|]. split; [reflexivity|].
           discriminate.
      * do 2 eexists. split; [reflexivity|]. split; [reflexivity|].
        intros app' H; now inversion H.
    + do 2 eexists. split; [reflexivity|]. split; [reflexivity|]. discriminate.
  - do 2 eexists. split; [reflexivity|]. split; [reflexivity|].
    intros app' H; now inversion H.
Qed.

Lemma _auto_save_save (app : SongApp) (w : world) :
  _auto_save app w = save_songs (songs app) w.
Proof.
  unfold _auto_save, try_except.
  destruct (save_songs_returns (songs app) w) as [w' [-> _]]. reflexivity.
Qed.

(** *** Search *)

Lemma filter_all {A : Type} (f : A -> bool) (l : list A) :
  (forall x, f x = true) -> filter f l = l.
Proof.
  intros H. induction l as [|x l IH]; [reflexivity|].
  cbn [filter]. now rewrite H, IH.
Qed.

(** With an empty key every record is selected. *)
Lemma selects_empty (s : song) : selects "" s = true.
Proof. unfold selects. now rewrite py_in_empty. Qed.

(** The filtered view [_on_search] computes. *)
Lemma _on_search_filtered (a : SongApp) :
  filtered (_on_search a) = view_of (search_var a) (songs a).
Proof.
  unfold _on_search, _refresh_list, view_of, search_key. cbn [filtered].
  destruct (py_strip (py_lower py (search_var a))) as [|c q] eqn:E; cbn [is_empty].
  - symmetry. apply filter_all. exact selects_empty.
  - reflexivity.
Qed.

(** C4, amended.  For every catalog and every text typed in the search box,
    the filtered view is made of the records, in catalog order, whose
    lower-cased title or lower-cased number contains the text, lower-cased and
    then trimmed of the white space around it; when that is empty, this is the
    whole catalog.  The catalog is left as it is and the list box shows the
    filtered view. *)
Theorem search_filters_by_trimmed_query (text : string) (app : SongApp) :
  filtered (type_search text app) = view_of text (songs app)
  /\ (search_key text = "" -> filtered (type_search text app) = songs app)
  /\ songs (type_search text app) = songs app
  /\ listbox (type_search text app) = map _format_item (filtered (type_search text app))
  /\ total_lbl (type_search text app) = str_nat (length (filtered (type_search text app))).
Proof.
  assert (H : filtered (type_search text app) = view_of text (songs app))
    by (unfold type_search; now rewrite _on_search_filtered).
  split; [exact H|]. split; [|repeat split].
  intros Hk. rewrite H. unfold view_of. rewrite Hk.
  apply filter_all. exact selects_empty.
Qed.

(** *** Import *)

(** One turn of the loop of [_on_import]. *)
Lemma import_line_record (new : list song) (l : string) (w : world) :
  exists p, line_record l p
            /\ import_line new l w = (Returned (new ++ p)%list, w).
Proof.
  unfold import_line.
  destruct (py_strip l) as [|c r] eqn:E; cbn [is_empty].
  - exists []. split; [now constructor | now rewrite app_nil_r].
  - rewrite <- E. destruct (py_in " - " (py_strip l)) eqn:Hin.
    + destruct (py_split1_in _ _ Hin) as [a [b Hs]]. rewrite Hs.
      exists [mkSong (py_strip a) (py_strip b)]. split; [|reflexivity].
      constructor. now apply py_split1_first.
    + exists [mkSong (py_strip l) ""]. split; [|reflexivity].
      constructor; [rewrite E; discriminate | exact Hin].
Qed.

Lemma import_lines_records (lines : list string) :
  forall (new : list song) (w : world),
  exists parsed,
    Forall2 line_record lines parsed
    /\ for_each import_line lines new w = (Returned (new ++ concat parsed)%list, w).
Proof.
  induction lines as [|l lines IH]; intros new w.
  - exists []. split; [constructor | cbn; now rewrite app_nil_r].
  - destruct (import_line_record new l w) as [p [Hp Hl]].
    destruct (IH (new ++ p)%list w) as [parsed [Hall Hrest]].
    exists (p :: parsed). split; [now constructor|].
    cbn [for_each]. unfold bind. rewrite Hl, Hrest.
    cbn [concat]. now rewrite app_assoc.
Qed.

(** Every imported record has a title that is not empty once trimmed. *)
Lemma line_record_title (l : string) (p : list song) (r : song) :
  line_record l p -> In r p -> py_strip (title r) <> "".
Proof.
  intros Hl Hr. destruct Hl as [l E | l a b [Hab Hmin] | l Hne Hnot];
    cbn [In] in Hr; [contradiction | |]; destruct Hr as [<-|[]]; cbn [title].
  - rewrite py_strip_idem. eapply py_strip_before_separator. exact Hab.
  - now rewrite py_strip_idem.
Qed.

(** C5, amended.  For every import text that is not empty, each line is
    trimmed; a blank one gives no record; one whose trimmed form contains the
    separator [" - "] is split at the first occurrence into a title and a
    number, both trimmed; any other gives its trimmed form as title and an
    empty number.  The records are appended to the catalog in line order, the
    filtered view is recomputed, the catalog is saved and the count of records
    is reported.  On an empty text, or when the dialog is closed, nothing is
    imported, saved or reported. *)
Theorem import_appends_parsed_lines (text : string) (app : SongApp) (w : world) :
  text <> "" ->
  (exists parsed : list (list song),
     Forall2 line_record (py_splitlines text) parsed
     /\ let new := concat parsed in
        let app1 := _on_search (set_songs (songs app ++ new) app) in
        let w1 := snd (save_songs (songs app ++ new) w) in
        _on_import (Some text) app w
        = (Returned app1,
           shown (ShowInfo "Import" ("Imported " ++ str_nat (length new) ++ " songs")) w1)
        /\ songs app1 = (songs app ++ new)%list)
  /\ _on_import (Some "") app w = (Returned app, w)
  /\ _on_import None app w = (Returned app, w).
Proof.
  intros Hne. split; [|split; reflexivity].
  destruct (import_lines_records (py_splitlines text) [] w) as [parsed [Hall Hrun]].
  exists parsed. split; [exact Hall|]. cbn zeta. split; [|reflexivity].
  unfold _on_import. destruct text as [|c t]; [congruence|]. cbn [is_empty].
  unfold bind at 1. rewrite Hrun. cbn [List.app].
  unfold bind at 1. rewrite _auto_save_save.
  destruct (save_songs_returns (songs app ++ concat parsed) w) as [w' [Hs _]].
  cbn [songs _on_search _refresh_list set_songs] in *.
  rewrite Hs. reflexivity.
Qed.

(* ================================================================== *)
(** ** The batch interface *)
(* ================================================================== *)

(** *** Printing *)

Lemma print_ok (text : string) (w : world) :
  can_print text = true -> print text w = (Returned tt, printed [text] w).
Proof. unfold print. now intros ->. Qed.

Lemma print_ascii (text : string) (w : world) :
  isascii text = true -> print text w = (Returned tt, printed [text] w).
Proof. intros H. apply print_ok. unfold can_print. now rewrite H. Qed.

Lemma print_fails (text : string) (w : world) :
  can_print text = false ->
  print text w = (Raised (UnicodeEncodeError "character maps to <undefined>"), w).
Proof. unfold print. now intros ->. Qed.

Lemma printed_nil (w : world) : printed [] w = w.
Proof. destruct w. unfold printed. cbn. now rewrite app_nil_r. Qed.

Lemma printed_printed (a b : list string) (w : world) :
  printed b (printed a w) = printed (a ++ b) w.
Proof. unfold printed. cbn. now rewrite app_assoc. Qed.

(** [run_cli] once the catalog is loaded. *)
Lemma run_cli_loaded (args : list string) (w w1 : world) (catalog : list song) :
  load_songs w = (Returned catalog, w1) ->
  run_cli args w
  = match args with
    | [] => print usage
    | arg0 :: rest =>
        if (arg0 =? "--list")%string then print_songs 0 catalog
        else if (arg0 =? "--add")%string && (2 <=? length args)%nat then
          save_songs (catalog ++ [mkSong (nth 1 args "")
                                    (if (3 <=? length args)%nat then nth 2 args "" else "")]) ;;
          print ("Added: " ++ nth 1 args "")
        else if (arg0 =? "--remove")%string && (length args =? 2)%nat then
          try_except_ValueError
            (match py_int (nth 1 args "") with
             | None => raise (ValueError "invalid literal for int() with base 10")
             | Some idx =>
                 if (0 <=? idx)%Z && (idx <? Z.of_nat (length catalog))%Z then
                   match nth_error catalog (Z.to_nat idx) with
                   | Some removed =>
                       save_songs (del_nth (Z.to_nat idx) catalog) ;;
                       print ("Removed: " ++ title removed)
                   | None => raise (IndexError "pop index out of range")
                   end
                 else print "Index out of range"
             end)
            (print "Invalid index")
        else print "Unknown CLI command"
    end w1.
Proof.
  intros Hl. unfold run_cli, bind at 1. rewrite Hl. reflexivity.
Qed.

(** [--list] on songs whose lines the standard output can encode. *)
Lemma print_songs_ok (l : list song) :
  forall (i : nat) (w : world),
    forallb can_print (list_lines i l) = true ->
    print_songs i l w = (Returned tt, printed (list_lines i l) w).
Proof.
  induction l as [|s l IH]; intros i w; cbn [list_lines forallb print_songs].
  - intros _. now rewrite printed_nil.
  - intros H. apply andb_true_iff in H. destruct H as [Hs Hl].
    unfold bind. rewrite (print_ok _ _ Hs), (IH _ _ Hl), printed_printed.
    reflexivity.
Qed.

(** [--list] in general: it prints the lines up to the first the standard
    output cannot encode, at which it raises. *)
Lemma print_songs_run (l : list song) :
  forall (i : nat) (w : world),
  exists (r : result unit) (lines : list string),
    print_songs i l w = (r, printed lines w)
    /\ (r = Returned tt \/ exists msg, r = Raised (UnicodeEncodeError msg)).
Proof.
  induction l as [|s l IH]; intros i w; cbn [print_songs].
  - exists (Returned tt), []. rewrite printed_nil. split; [reflexivity | now left].
  - unfold bind. destruct (can_print (list_line i s)) eqn:E.
    + rewrite (print_ok _ _ E).
      destruct (IH (S i) (printed [list_line i s] w)) as [r [lines [Hrun Hr]]].
      rewrite Hrun, printed_printed. eauto.
    + rewrite (print_fails _ _ E). exists (Raised (UnicodeEncodeError "character maps to <undefined>")), [].
      rewrite printed_nil. split; [reflexivity | right; eauto].
Qed.

Lemma list_lines_nth (l : list song) :
  forall (i k : nat) (s : song),
    nth_error l k = Some s -> nth_error (list_lines i l) k = Some (list_line (i + k) s).
Proof.
  induction l as [|x l IH]; intros i [|k] s Hk; cbn in Hk |- *; try discriminate.
  - inversion Hk; subst. now rewrite Nat.add_0_r.
  - rewrite (IH (S i) k s Hk). now rewrite Nat.add_succ_r.
Qed.

Lemma list_lines_length (l : list song) (i : nat) :
  length (list_lines i l) = length l.
Proof. revert i; induction l as [|x l IH]; intros i; cbn; [reflexivity | now rewrite IH]. Qed.

Lemma list_lines_printable (l : list song) :
  forall i : nat,
    (forall k s, nth_error l k = Some s -> can_print (list_line (i + k) s) = true) ->
    forallb can_print (list_lines i l) = true.
Proof.
  induction l as [|x l IH]; intros i H; [reflexivity|]. cbn [list_lines forallb].
  rewrite <- (Nat.add_0_r i) at 1. rewrite (H 0 x eq_refl). cbn [andb].
  apply IH. intros k s Hk. rewrite Nat.add_succ_l, <- Nat.add_succ_r.
  apply H. exact Hk.
Qed.

(** *** Line feeds in what is printed *)

Lemma py_in_char_app (c : ascii) (a b : string) :
  py_in (String c "") (a ++ b) = py_in (String c "") a || py_in (String c "") b.
Proof.
  induction a as [|x a IH].
  - cbn [append py_in startswith strip_prefix orb]. reflexivity.
  - cbn [append py_in]. rewrite IH. unfold startswith. cbn [strip_prefix].
    destruct (c =? x)%char; cbn [orb]; [reflexivity|].
    reflexivity.
Qed.

Lemma string_of_uint_no_line_feed (d : Decimal.uint) :
  py_in LF (NilEmpty.string_of_uint d) = false.
Proof.
  induction d; cbn [NilEmpty.string_of_uint]; [reflexivity | ..];
    change (String ?c ?r) with (String c "" ++ r);
    unfold LF; rewrite py_in_char_app; unfold LF in *; rewrite IHd; reflexivity.
Qed.

(** A line of [--list] holds a line feed only if the title or the number
    does. *)
Lemma list_line_one_line (i : nat) (s : song) :
  py_in LF (title s) = false ->
  py_in LF (number s) = false ->
  py_in LF (list_line i s) = false.
Proof.
  intros Ht Hn. unfold list_line, LF in *.
  rewrite !py_in_char_app, Ht.
  change (py_in (String "010" "") (str_nat i)) with (py_in LF (str_nat i)).
  unfold str_nat. rewrite string_of_uint_no_line_feed.
  destruct (number s) as [|c n]; [reflexivity|]. cbn [is_empty negb].
  rewrite py_in_char_app, Hn. reflexivity.
Qed.

(** C9, amended.  For every catalog whose lines the standard output can
    encode, the batch [list] command prints one text for each record, in
    catalog order: the index, a colon and a blank, the title, a blank, and
    then a dash, a blank and the number when the number is not empty (nothing
    when it is empty).  The text of a record is one line of output when
    neither its title nor its number holds a line feed. *)
Theorem cli_list_prints_catalog (w w1 : world) (catalog : list song) :
  load_songs w = (Returned catalog, w1) ->
  (forall i s, nth_error catalog i = Some s -> can_print (list_line i s) = true) ->
  exists lines,
    run_cli ["--list"] w = (Returned tt, printed lines w1)
    /\ length lines = length catalog
    /\ forall i s, nth_error catalog i = Some s ->
         nth_error lines i
         = Some (str_nat i ++ ": " ++ title s ++ " "
                 ++ (if is_empty (number s) then "" else "- " ++ number s))
         /\ (py_in LF (title s) = false -> py_in LF (number s) = false ->
             py_in LF (list_line i s) = false).
Proof.
  intros Hl Hp. rewrite (run_cli_loaded _ _ _ _ Hl).
  change ("--list" =? "--list")%string with true. cbv iota.
  exists (list_lines 0 catalog).
  rewrite print_songs_ok by (apply list_lines_printable; exact Hp).
  split; [reflexivity|]. split; [apply list_lines_length|].
  intros i s Hi. split; [|apply list_line_one_line].
  rewrite (list_lines_nth catalog 0 i s Hi). unfold list_line. cbn [Nat.add].
  destruct (number s); reflexivity.
Qed.

Lemma del_nth_firstn_skipn (i : nat) (l : list song) :
  del_nth i l = (firstn i l ++ skipn (S i) l)%list.
Proof.
  revert i; induction l as [|x l IH]; intros [|i]; try reflexivity.
  cbn [del_nth firstn skipn List.app]. now rewrite IH.
Qed.

(** The run of [--remove] with one argument, once the catalog is loaded. *)
Lemma run_cli_remove_run (w w1 : world) (catalog : list song) (arg : string) :
  load_songs w = (Returned catalog, w1) ->
  run_cli ["--remove"; arg] w
  = match py_int arg with
    | Some idx =>
        if (0 <=? idx)%Z && (idx <? Z.of_nat (length catalog))%Z then
          let i := Z.to_nat idx in
          let rest := (firstn i catalog ++ skipn (S i) catalog)%list in
          let line := "Removed: " ++ title (nth i catalog (mkSong "" "")) in
          (Returned tt,
           printed [if can_print line then line else "Invalid index"]
             (snd (save_songs rest w1)))
        else (Returned tt, printed ["Index out of range"] w1)
    | None => (Returned tt, printed ["Invalid index"] w1)
    end.
Proof.
  intros Hl. rewrite (run_cli_loaded _ _ _ _ Hl).
  change ("--remove" =? "--list")%string with false.
  change ("--remove" =? "--add")%string with false.
  change ("--remove" =? "--remove")%string with true.
  cbn [andb length Nat.eqb nth]. cbv iota.
  unfold try_except_ValueError.
  destruct (py_int arg) as [idx|];
    [|unfold raise; cbn [is_ValueError]; now rewrite print_ascii].
  destruct ((0 <=? idx)%Z && (idx <? Z.of_nat (length catalog))%Z) eqn:Hrange;
    [|now rewrite print_ascii].
  apply andb_true_iff in Hrange. destruct Hrange as [H0 Hlt].
  apply Z.leb_le in H0. apply Z.ltb_lt in Hlt.
  assert (Hi : Z.to_nat idx < length catalog) by lia.
  destruct (nth_error catalog (Z.to_nat idx)) as [removed|] eqn:Hn;
    [|apply nth_error_None in Hn; lia].
  rewrite (nth_error_nth _ _ (mkSong "" "") Hn).
  unfold bind. rewrite del_nth_firstn_skipn.
  destruct (save_songs_returns
              (firstn (Z.to_nat idx) catalog ++ skipn (S (Z.to_nat idx)) catalog) w1)
    as [w' [Hs _]].
  cbn zeta. rewrite Hs. cbn [snd].
  destruct (can_print ("Removed: " ++ title removed)) eqn:Ep.
  - now rewrite (print_ok _ _ Ep).
  - rewrite (print_fails _ _ Ep). cbn [is_ValueError]. now rewrite print_ascii.
Qed.


(** C3, at the input where it fails.  The batch [add] command given an empty
    title, or a blank one, on a fresh world: the record is appended and
    saved as it is, and the next [load] returns it. *)
Theorem cli_add_persists_blank_title :
  let w0 := mkWorld None None None [] [] in
  let w1 := snd (run_cli ["--add"; ""] w0) in
  let w2 := snd (run_cli ["--add"; "  "] w0) in
  file w1 = Some (json_dumps (catalog_json [mkSong "" ""]))
  /\ load_songs w1 = (Returned [mkSong "" ""], w1)
  /\ py_strip (title (mkSong "" "")) = ""
  /\ file w2 = Some (json_dumps (catalog_json [mkSong "  " ""]))
  /\ load_songs w2 = (Returned [mkSong "  " ""], w2)
  /\ py_strip (title (mkSong "  " "")) = "".
Proof. repeat split; vm_compute; reflexivity. Qed.


(* ================================================================== *)
(** ** Further properties of the storage adapter *)
(* ================================================================== *)

(** X1. [save_songs] never raises and prints nothing.  When the host lets the
    file be written and the titles and numbers of the catalog encode in UTF-8,
    the file holds the serialized catalog afterwards and no message box is
    shown.  When the host lets the file be written and a title or a number
    does not encode, one error box is shown and the file is left holding a
    part of the text, short of the whole.  When the host refuses, the file is
    left as it was and one error box names the failure. *)
Theorem save_songs_never_raises (catalog : list song) (w : world) :
  exists w',
    save_songs catalog w = (Returned tt, w')
    /\ stdout w' = stdout w
    /\ read_error w' = read_error w
    /\ write_error w' = write_error w
    /\ match write_error w with
       | None =>
           if encodable catalog then
             file w' = Some (json_dumps (catalog_json catalog))
             /\ dialogs w' = dialogs w
           else
             (exists part rest,
                 file w' = Some part
                 /\ json_dumps (catalog_json catalog) = part ++ rest
                 /\ rest <> "")
             /\ exists msg, dialogs w' = (dialogs w ++ [ShowError "Error" msg])%list
       | Some msg =>
           file w' = file w
           /\ dialogs w'
              = (dialogs w ++ [ShowError "Error" ("Failed to save songs.json: " ++ msg)])%list
       end.
Proof.
  rewrite save_songs_run. destruct w as [f re [msg|] ds out]; cbn [write_error].
  - eexists. repeat split; reflexivity.
  - destruct (encodable catalog) eqn:E.
    + eexists. repeat split; reflexivity.
    + eexists. split; [reflexivity|]. repeat split; [|eexists; reflexivity].
      destruct (encodable_chunks_prefix (iterencode 0 (catalog_json catalog)))
        as [q [Hq Hne]]; [now rewrite valid_iterencode_catalog|].
      rewrite cat_iterencode_catalog in Hq.
      eexists. exists q. split; [reflexivity|]. split; assumption.
Qed.

(** [load_songs] on a backing file that is there. *)
Lemma load_songs_present_outcome (w : world) (text : string) :
  file w = Some text ->
  exists records w',
    load_songs w = (Returned records, w')
    /\ file w' = Some text
    /\ stdout w' = stdout w
    /\ read_error w' = read_error w
    /\ write_error w' = write_error w
    /\ match read_error w, valid_utf8 text, json_loads text with
       | None, true, inl _ => dialogs w' = dialogs w
       | _, _, _ =>
           records = []
           /\ exists msg, dialogs w' = (dialogs w ++ [ShowError "Error" msg])%list
       end.
Proof.
  intros Hf. destruct (read_error w) as [m|] eqn:Er.
  - rewrite (load_songs_unreadable w text m Hf Er).
    do 2 eexists. split; [reflexivity|]. cbn [shown file stdout read_error write_error dialogs].
    repeat split; auto. eexists; reflexivity.
  - destruct (valid_utf8 text) eqn:Ev.
    + rewrite (load_songs_present w text Hf Er Ev).
      destruct (json_loads text) as [[]|e]; do 2 eexists;
        (split; [reflexivity|]);
        cbn [shown file stdout read_error write_error dialogs];
        repeat split; auto; eexists; reflexivity.
    + rewrite (load_songs_undecodable w text Hf Er Ev).
      do 2 eexists. split; [reflexivity|].
      cbn [shown file stdout read_error write_error dialogs].
      repeat split; auto. eexists; reflexivity.
Qed.

(** X2. On a backing file that is there, [load_songs] never raises, prints
    nothing and leaves the file as it is.  It shows no message box, or it
    returns the empty catalog and shows one error box: the latter exactly when
    the file cannot be read, or its bytes do not decode, or [json.load] gives
    up on the text (which is no JSON, or holds an integer of more than 4300
    digits, or is nested deeper than the interpreter follows). *)
Theorem load_songs_on_present_file (w : world) (text : string) :
  file w = Some text ->
  exists records w',
    load_songs w = (Returned records, w')
    /\ file w' = Some text
    /\ stdout w' = stdout w
    /\ read_error w' = read_error w
    /\ write_error w' = write_error w
    /\ match read_error w, valid_utf8 text, json_loads text with
       | None, true, inl _ => dialogs w' = dialogs w
       | _, _, _ =>
           records = []
           /\ exists msg, dialogs w' = (dialogs w ++ [ShowError "Error" msg])%list
       end.
Proof. apply load_songs_present_outcome. Qed.

(** The catalog [load_songs] returns depends on the file and on what the
    host lets be done with it, not on the boxes shown or the texts printed. *)
Lemma load_songs_frame (w w' : world) :
  file w' = file w ->
  read_error w' = read_error w ->
  write_error w' = write_error w ->
  fst (load_songs w') = fst (load_songs w).
Proof.
  destruct w as [f re we ds out], w' as [f' re' we' ds' out'].
  cbn [file read_error write_error]. intros -> -> ->.
  unfold load_songs, json_load, read_text, json_dump, write_chunks. run.
  destruct f as [text|]; run.
  - destruct re as [msg|]; run; [reflexivity|].
    destruct (valid_utf8 text); [|reflexivity].
    destruct (json_loads text) as [[]|e]; reflexivity.
  - destruct we; reflexivity.
Qed.

Lemma load_songs_again (w w1 : world) (records : list song) :
  load_songs w = (Returned records, w1) ->
  fst (load_songs w1) = Returned records.
Proof.
  destruct w as [[text|] re we ds out].
  - intros H.
    destruct (load_songs_present_outcome (mkWorld (Some text) re we ds out) text eq_refl)
      as [r [w' [Hl [Hf [_ [Hr [Hw _]]]]]]].
    rewrite H in Hl. inversion Hl; subst.
    rewrite (load_songs_frame (mkWorld (Some text) re we ds out) w'); auto.
    now rewrite H.
  - unfold load_songs at 1, json_dump, write_chunks. run.
    destruct we as [msg|]; [discriminate|].
    intros H; inversion H; subst.
    unfold load_songs, json_load, read_text. run.
    destruct re; reflexivity.
Qed.

(** X3. Loading is stable: on the world a [load_songs] that returned has
    left, the next [load_songs] returns the same catalog. *)
Theorem load_songs_stable (w w1 : world) (records : list song) :
  load_songs w = (Returned records, w1) ->
  fst (load_songs w1) = Returned records.
Proof. apply load_songs_again. Qed.

(* ================================================================== *)
(** ** Further properties of the catalog editor *)
(* ================================================================== *)

Lemma song_eqb_spec (a b : song) : song_eqb a b = true <-> a = b.
Proof.
  destruct a as [t n], b as [t' n']. unfold song_eqb. cbn [title number].
  rewrite andb_true_iff, !String.eqb_eq. split; [intros [-> ->] | intros H];
    [reflexivity | inversion H; auto].
Qed.

(** [l.index(x)] is the first place where [x] stands. *)
Lemma index_of_first (x : song) (l : list song) (i : nat) :
  index_of x l = Some i ->
  nth_error l i = Some x
  /\ forall j, j < i -> nth_error l j <> Some x.
Proof.
  revert i; induction l as [|y l IH]; intros i; cbn [index_of]; [discriminate|].
  destruct (song_eqb y x) eqn:E.
  - intros H; inversion H; subst. apply song_eqb_spec in E. subst.
    split; [reflexivity | intros j Hj; lia].
  - destruct (index_of x l) as [k|]; [|discriminate].
    intros H; inversion H; subst. destruct (IH k eq_refl) as [Hk Hmin].
    split; [exact Hk|]. intros [|j] Hj; cbn [nth_error].
    + intros Hy; inversion Hy; subst.
      assert (song_eqb x x = true) by now apply song_eqb_spec. congruence.
    + apply Hmin. lia.
Qed.

Lemma index_of_In (x : song) (l : list song) :
  In x l -> exists i, index_of x l = Some i.
Proof.
  induction l as [|y l IH]; cbn [In index_of]; [contradiction|].
  destruct (song_eqb y x) eqn:E; [eauto|].
  intros [->|H].
  - assert (song_eqb x x = true) by now apply song_eqb_spec. congruence.
  - destruct (IH H) as [i ->]. cbn. eauto.
Qed.

Lemma index_of_length (x : song) (l : list song) (i : nat) :
  index_of x l = Some i -> i < length l.
Proof.
  intros H. apply index_of_first in H. destruct H as [H _].
  apply nth_error_Some. congruence.
Qed.

(** X4. When the rows of the filtered view are records of the catalog, a
    selected row resolves to the first place of the catalog where a record
    equal to it stands, and nothing is shown. *)
Theorem _selected_index_resolves (idx : nat) (item : song) (app : SongApp) (w : world) :
  (forall s, In s (filtered app) -> In s (songs app)) ->
  nth_error (filtered app) idx = Some item ->
  exists i,
    _selected_index (Some idx) app w = (Returned (Some i), w)
    /\ nth_error (songs app) i = Some item
    /\ forall j, j < i -> nth_error (songs app) j <> Some item.
Proof.
  intros Hsub Hn. unfold _selected_index. rewrite Hn.
  destruct (index_of_In item (songs app)) as [i Hi];
    [apply Hsub; eapply nth_error_In; eauto|].
  rewrite Hi. exists i. split; [reflexivity|]. now apply index_of_first.
Qed.

(** *** What a handler can have done *)

Lemma notice_refl (w : world) : notice w w.
Proof. repeat split. Qed.

Lemma notice_shown (d : dialog) (w : world) : notice w (shown d w).
Proof. repeat split. Qed.

Lemma notice_trans (w1 w2 w3 : world) : notice w1 w2 -> notice w2 w3 -> notice w1 w3.
Proof. unfold notice. intuition congruence. Qed.

Lemma show_run (d : dialog) (w : world) : show d w = (Returned tt, shown d w).
Proof. reflexivity. Qed.

Lemma saved_here (l : list song) (w : world) :
  saved l w (snd (save_songs l w)).
Proof.
  destruct (save_songs_returns l w) as [w' [Hs _]].
  exists w, w'. rewrite Hs. split; [apply notice_refl|].
  split; [reflexivity | apply notice_refl].
Qed.

Lemma saved_after_notice (l : list song) (w w1 w' : world) :
  notice w w1 -> saved l w1 w' -> saved l w w'.
Proof.
  intros Hn [wa [wb [Ha [Hs Hb]]]]. exists wa, wb.
  split; [eapply notice_trans; eauto | auto].
Qed.

Lemma saved_then_notice (l : list song) (w w1 w' : world) :
  saved l w w1 -> notice w1 w' -> saved l w w'.
Proof.
  intros [wa [wb [Ha [Hs Hb]]]] Hn. exists wa, wb.
  split; [exact Ha|]. split; [exact Hs|]. eapply notice_trans; eauto.
Qed.

(** The run of a handler that goes on to change the catalog to [l]. *)
Lemma mutate_run (l : list song) (app : SongApp) (w : world) :
  (let app1 := _on_search (set_songs l app) in
   _auto_save app1 ;; ret app1) w
  = (Returned (_on_search (set_songs l app)), snd (save_songs l w)).
Proof.
  cbn zeta. unfold bind. rewrite _auto_save_save.
  destruct (save_songs_returns (songs (_on_search (set_songs l app))) w) as [w' [Hs _]].
  rewrite Hs. cbn [songs _on_search _refresh_list set_songs] in *. rewrite Hs.
  reflexivity.
Qed.

Lemma songs_on_search (a : SongApp) : songs (_on_search a) = songs a.
Proof. reflexivity. Qed.

(** The run of [_on_add]. *)
Lemma _on_add_run (user : form_input) (app : SongApp) (w : world) :
  _on_add user app w
  = match user with
    | Cancel => (Returned app, w)
    | Submit t n =>
        if is_empty (py_strip t)
        then (Returned app, shown (ShowWarning "Validation" "Title cannot be empty") w)
        else
          let l := (songs app ++ [mkSong (py_strip t) (py_strip n)])%list in
          (Returned (_on_search (set_songs l app)), snd (save_songs l w))
    end.
Proof.
  destruct user as [|t n]; [reflexivity|].
  destruct (py_strip t) as [|c t'] eqn:E; cbn [is_empty].
  - now apply _on_add_blank.
  - unfold _on_add, bind at 1. cbn [AddEditDialog]. unfold AddEditDialog_apply.
    rewrite E. cbn [is_empty]. run.
    apply (mutate_run (songs app ++ [mkSong (String c t') (py_strip n)]) app w).
Qed.

(** The run of [_on_edit]. *)
Lemma _on_edit_run (sel : option nat) (user : form_input) (app : SongApp) (w : world) :
  _on_edit sel user app w
  = let pick := shown (ShowInfo "Edit" "Select a song to edit (double-click or select + Edit)") w in
    match sel with
    | None => (Returned app, pick)
    | Some idx =>
        match nth_error (filtered app) idx with
        | None => (Raised (IndexError "list index out of range"), w)
        | Some item =>
            match index_of item (songs app) with
            | None => (Returned app, pick)
            | Some i =>
                match user with
                | Cancel => (Returned app, w)
                | Submit t n =>
                    if is_empty (py_strip t)
                    then (Returned app,
                          shown (ShowWarning "Validation" "Title cannot be empty") w)
                    else
                      let l := set_nth i (mkSong (py_strip t) (py_strip n)) (songs app) in
                      (Returned (_on_search (set_songs l app)), snd (save_songs l w))
                end
            end
        end
    end.
Proof.
  cbn zeta. unfold _on_edit, bind at 1, _selected_index.
  destruct sel as [idx|]; [|reflexivity].
  destruct (nth_error (filtered app) idx) as [item|]; [|reflexivity].
  destruct (index_of item (songs app)) as [i|] eqn:Ei; [|reflexivity].
  run. pose proof (index_of_length _ _ _ Ei) as Hi.
  destruct (nth_error (songs app) i) as [s|] eqn:En;
    [|apply nth_error_None in En; lia].
  destruct user as [|t n]; [reflexivity|].
  cbn [AddEditDialog]. unfold AddEditDialog_apply.
  destruct (py_strip t) as [|c t'] eqn:E; cbn [is_empty]; [reflexivity|]. run.
  apply (mutate_run (set_nth i (mkSong (String c t') (py_strip n)) (songs app)) app w).
Qed.

(** The run of [_on_delete]. *)
Lemma _on_delete_run (sel : option nat) (confirm : bool) (app : SongApp) (w : world) :
  _on_delete sel confirm app w
  = let pick := shown (ShowInfo "Delete" "Select a song to delete") w in
    match sel with
    | None => (Returned app, pick)
    | Some idx =>
        match nth_error (filtered app) idx with
        | None => (Raised (IndexError "list index out of range"), w)
        | Some item =>
            match index_of item (songs app) with
            | None => (Returned app, pick)
            | Some i =>
                let asked := shown (AskYesNo "Delete" ("Delete '" ++ title item ++ "'?")) w in
                if confirm then
                  let l := del_nth i (songs app) in
                  (Returned (_on_search (set_songs l app)), snd (save_songs l asked))
                else (Returned app, asked)
            end
        end
    end.
Proof.
  cbn zeta. unfold _on_delete, bind at 1, _selected_index.
  destruct sel as [idx|]; [|reflexivity].
  destruct (nth_error (filtered app) idx) as [item|]; [|reflexivity].
  destruct (index_of item (songs app)) as [i|] eqn:Ei; [|reflexivity].
  run. destruct (index_of_first _ _ _ Ei) as [En _]. rewrite En.
  destruct confirm; [|reflexivity].
  apply (mutate_run (del_nth i (songs app)) app
           (shown (AskYesNo "Delete" ("Delete '" ++ title item ++ "'?")) w)).
Qed.

(** The run of [_on_save]. *)
Lemma _on_save_run (app : SongApp) (w : world) :
  _on_save app w
  = (Returned tt,
     shown (ShowInfo "Save"
              ("Saved " ++ str_nat (length (songs app)) ++ " songs to songs.json"))
       (snd (save_songs (songs app) w))).
Proof.
  unfold _on_save, bind.
  destruct (save_songs_returns (songs app) w) as [w' [Hs _]]. rewrite Hs.
  reflexivity.
Qed.

(** The run of [_on_import] on a text that is not empty. *)
Lemma _on_import_run (c : ascii) (t : string) (app : SongApp) (w : world) :
  exists parsed,
    Forall2 line_record (py_splitlines (String c t)) parsed
    /\ _on_import (Some (String c t)) app w
       = (Returned (_on_search (set_songs (songs app ++ concat parsed) app)),
          shown (ShowInfo "Import"
                   ("Imported " ++ str_nat (length (concat parsed)) ++ " songs"))
            (snd (save_songs (songs app ++ concat parsed) w))).
Proof.
  destruct (import_lines_records (py_splitlines (String c t)) [] w)
    as [parsed [Hall Hrun]].
  exists parsed. split; [exact Hall|].
  unfold _on_import. cbn [is_empty]. unfold bind at 1. rewrite Hrun.
  cbn [List.app]. unfold bind at 1. rewrite _auto_save_save.
  destruct (save_songs_returns (songs app ++ concat parsed) w) as [w' [Hs _]].
  cbn [songs _on_search _refresh_list set_songs] in *. rewrite Hs. reflexivity.
Qed.

Lemma _on_search_view (a : SongApp) : view_ok (_on_search a).
Proof.
  unfold view_ok. split; [|split; reflexivity].
  rewrite _on_search_filtered. reflexivity.
Qed.

(** What a handler does: it raises before anything is done, or it returns;
    the editor it returns is the one it got or comes out of [_on_search];
    and either the catalog is the same and only message boxes were shown, or
    the catalog it returns was saved. *)
Lemma handle_outcome (e : event) (app : SongApp) (w : world)
      (r : result SongApp) (w' : world) :
  handle e app w = (r, w') ->
  (exists x, r = Raised x /\ w' = w)
  \/ (exists app',
         r = Returned app'
         /\ (app' = app \/ exists a, app' = _on_search a)
         /\ ((songs app' = songs app /\ notice w w') \/ saved (songs app') w w')).
Proof.
  assert (Hsame : forall d, (Returned app, shown d w) = (r, w') ->
            exists app', r = Returned app'
              /\ (app' = app \/ exists a, app' = _on_search a)
              /\ ((songs app' = songs app /\ notice w w') \/ saved (songs app') w w')).
  { intros d H; inversion H; subst. exists app.
    split; [reflexivity|]. split; [now left|]. left.
    split; [reflexivity | apply notice_shown]. }
  assert (Hnone : (Returned app, w) = (r, w') ->
            exists app', r = Returned app'
              /\ (app' = app \/ exists a, app' = _on_search a)
              /\ ((songs app' = songs app /\ notice w w') \/ saved (songs app') w w')).
  { intros H; inversion H; subst. exists app.
    split; [reflexivity|]. split; [now left|]. left.
    split; [reflexivity | apply notice_refl]. }
  assert (Hmut : forall l w1 d,
            notice w w1 ->
            (Returned (_on_search (set_songs l app)), d (snd (save_songs l w1))) = (r, w') ->
            (forall v, notice v (d v)) ->
            exists app', r = Returned app'
              /\ (app' = app \/ exists a, app' = _on_search a)
              /\ ((songs app' = songs app /\ notice w w') \/ saved (songs app') w w')).
  { intros l w1 d Hn H Hd; inversion H; subst. eexists.
    split; [reflexivity|]. split; [right; eauto|]. right.
    rewrite songs_on_search. cbn [songs set_songs].
    eapply saved_after_notice; [exact Hn|].
    eapply saved_then_notice; [apply saved_here | apply Hd]. }
  destruct e as [text | user | sel user | sel confirm | | text]; cbn [handle].
  - (* the search box *)
    intros H; inversion H; subst. right. eexists.
    split; [reflexivity|]. split; [right; unfold type_search; eauto|]. left.
    split; [reflexivity | apply notice_refl].
  - (* Add *)
    rewrite _on_add_run. destruct user as [|t n]; [right; auto|].
    destruct (is_empty (py_strip t)); [right; eauto|]. cbn zeta.
    intros H. right.
    apply (Hmut _ w (fun v => v) (notice_refl w) H notice_refl).
  - (* Edit *)
    rewrite _on_edit_run. cbn zeta. destruct sel as [idx|]; [|right; eauto].
    destruct (nth_error (filtered app) idx) as [item|];
      [|intros H; inversion H; subst; left; eauto].
    destruct (index_of item (songs app)) as [i|]; [|right; eauto].
    destruct user as [|t n]; [right; auto|].
    destruct (is_empty (py_strip t)); [right; eauto|].
    intros H. right.
    apply (Hmut _ w (fun v => v) (notice_refl w) H notice_refl).
  - (* Delete *)
    rewrite _on_delete_run. cbn zeta. destruct sel as [idx|]; [|right; eauto].
    destruct (nth_error (filtered app) idx) as [item|];
      [|intros H; inversion H; subst; left; eauto].
    destruct (index_of item (songs app)) as [i|]; [|right; eauto].
    destruct confirm; [|right; eauto].
    intros H. right.
    apply (Hmut _ _ (fun v => v) (notice_shown _ w) H notice_refl).
  - (* Save *)
    unfold bind. rewrite _on_save_run. intros H; inversion H; subst.
    right. exists app. split; [reflexivity|]. split; [now left|]. right.
    eapply saved_then_notice; [apply saved_here | apply notice_shown].
  - (* Import *)
    destruct text as [[|c t]|]; [right; auto | | right; auto].
    destruct (_on_import_run c t app w) as [parsed [_ Hrun]]. rewrite Hrun.
    intros H. right.
    apply (Hmut _ w (shown _) (notice_refl w) H (notice_shown _)).
Qed.

Lemma _on_search_rows (a : SongApp) : rows_ok (_on_search a).
Proof.
  unfold rows_ok. split; [|reflexivity].
  rewrite _on_search_filtered. unfold view_of. intros s Hs.
  apply filter_In in Hs. tauto.
Qed.

(** What the list box shows are records of the catalog, in every state the
    editor reaches. *)
Lemma reachable_rows (w0 : world) (app : SongApp) (w : world) :
  reachable w0 app w -> rows_ok app.
Proof.
  induction 1 as [app w Hinit | app w e app' w' _ IH Hstep | app w e x w' _ IH _];
    [| |exact IH].
  - unfold SongApp_init, bind in Hinit.
    destruct (load_songs w0) as [[l|x] w1]; [|discriminate].
    inversion Hinit; subst. split; [auto | reflexivity].
  - destruct (handle_outcome _ _ _ _ _ Hstep) as [[x [Hx _]] | [a' [Hr [Hv _]]]];
      [discriminate|].
    inversion Hr; subst. destruct Hv as [->|[a ->]]; [exact IH|].
    apply _on_search_rows.
Qed.

Lemma reachable_view (w0 : world) (app : SongApp) (w : world) :
  py_lower py "" = "" ->
  reachable w0 app w -> view_ok app.
Proof.
  intros Hlow.
  induction 1 as [app w Hinit | app w e app' w' _ IH Hstep | app w e x w' _ IH _];
    [| |exact IH].
  - unfold SongApp_init, bind in Hinit.
    destruct (load_songs w0) as [[l|x] w1]; [|discriminate].
    inversion Hinit; subst.
    unfold view_ok, _refresh_list. cbn [filtered songs search_var listbox total_lbl].
    split; [|split; reflexivity].
    symmetry. unfold view_of, search_key. rewrite Hlow.
    apply filter_all. exact selects_empty.
  - destruct (handle_outcome _ _ _ _ _ Hstep) as [[x [Hx _]] | [a' [Hr [Hv _]]]];
      [discriminate|].
    inversion Hr; subst. destruct Hv as [->|[a ->]]; [exact IH|].
    apply _on_search_view.
Qed.

(** X5. The list box always shows the filtered view, and the filtered view is
    always what the text of the search box selects from the catalog (the
    records whose lower-cased title or number contains the text, lower-cased
    and trimmed): this holds once the editor is built, on whatever file, and
    after every handler.  The empty string is taken to be its own lower
    case. *)
Theorem editor_view_invariant (w0 : world) (app : SongApp) (w : world) :
  py_lower py "" = "" ->
  reachable w0 app w -> view_ok app.
Proof. apply reachable_view. Qed.

(** [load_songs] and [save_songs] do not change what the host lets be done
    with the file. *)
Lemma load_songs_io (w w' : world) (r : result (list song)) :
  load_songs w = (r, w') ->
  read_error w' = read_error w /\ write_error w' = write_error w.
Proof.
  destruct w as [[text|] re we ds out];
    unfold load_songs, json_load, read_text, json_dump, write_chunks; run.
  - destruct re as [msg|]; run; [intros H; inversion H; subst; auto|].
    destruct (valid_utf8 text); [|intros H; inversion H; subst; auto].
    destruct (json_loads text) as [[]|e]; intros H; inversion H; subst; auto.
  - destruct we; intros H; inversion H; subst; auto.
Qed.

Lemma save_songs_io (l : list song) (w w' : world) (r : result unit) :
  save_songs l w = (r, w') ->
  read_error w' = read_error w /\ write_error w' = write_error w.
Proof.
  rewrite save_songs_run. destruct w as [f re [msg|] ds out]; cbn [write_error];
    [|destruct (encodable l)]; intros H; inversion H; subst; split; reflexivity.
Qed.

(** What was saved is what the next load returns. *)
Lemma load_after_save (l : list song) (w w2 : world) :
  write_error w = None ->
  read_error w = None ->
  encodable l = true ->
  save_songs l w = (Returned tt, w2) ->
  load_songs w2 = (Returned l, w2).
Proof.
  intros Hw Hr He. rewrite (save_songs_ok _ _ Hw He). intros H; inversion H; subst.
  now apply load_saved.
Qed.

Lemma reachable_mirror (w0 : world) (app : SongApp) (w : world) :
  write_error w0 = None ->
  read_error w0 = None ->
  reachable w0 app w ->
  (encodable (songs app) = true -> fst (load_songs w) = Returned (songs app))
  /\ write_error w = None /\ read_error w = None.
Proof.
  intros Hw0 Hr0.
  induction 1 as [app w Hinit | app w e app' w' _ IH Hstep | app w e x w' _ IH Hstep].
  - unfold SongApp_init, bind in Hinit.
    destruct (load_songs w0) as [[l|x] w1] eqn:El; [|discriminate].
    inversion Hinit; subst. cbn [songs _refresh_list].
    destruct (load_songs_io _ _ _ El) as [Hr Hw].
    split; [intros _; exact (load_songs_again _ _ _ El) | split; congruence].
  - destruct IH as [Hl [Hw Hr]].
    destruct (handle_outcome _ _ _ _ _ Hstep) as [[x [Hx _]] | [a' [Hret [_ Hs]]]];
      [discriminate|].
    inversion Hret; subst a'.
    destruct Hs as [[Hsongs [Hf [Hre [Hwe _]]]] | [w1 [w2 [[Hf1 [Hr1 [Hw1 _]]] [Hsave [Hf2 [Hr2 [Hw2 _]]]]]]]].
    + split; [|split; congruence]. intros He.
      rewrite (load_songs_frame w w') by assumption.
      rewrite Hsongs in *. auto.
    + destruct (save_songs_io _ _ _ _ Hsave) as [Hr3 Hw3].
      split; [|split; congruence]. intros He.
      rewrite (load_songs_frame w2 w') by assumption.
      rewrite (load_after_save (songs app') w1 w2); [reflexivity | congruence | congruence | exact He | exact Hsave].
  - destruct (handle_outcome _ _ _ _ _ Hstep) as [[y [_ ->]] | [a' [Hret _]]];
      [exact IH | discriminate].
Qed.

(** X6. While the host lets the backing file be written and read, the file
    mirrors the editor: in every state the editor reaches in which the titles
    and numbers of the catalog encode in UTF-8, a fresh load of the file
    returns the catalog the editor holds. *)
Theorem editor_mirrors_file (w0 : world) (app : SongApp) (w : world) :
  write_error w0 = None ->
  read_error w0 = None ->
  reachable w0 app w ->
  encodable (songs app) = true ->
  fst (load_songs w) = Returned (songs app).
Proof. intros Hw Hr H He. now apply (reachable_mirror w0 app w Hw Hr H). Qed.

(** *** Records stay trimmed *)

Lemma trimmed_form_record (t n : string) :
  py_strip t <> "" -> trimmed_record (mkSong (py_strip t) (py_strip n)).
Proof.
  intros H. unfold trimmed_record. cbn [title number].
  split; [exact H | split; apply py_strip_idem].
Qed.

Lemma line_record_trimmed (l : string) (p : list song) :
  line_record l p -> Forall trimmed_record p.
Proof.
  intros Hl. apply Forall_forall. intros r Hr.
  pose proof (line_record_title _ _ _ Hl Hr) as Ht.
  destruct Hl as [l E | l a b Hab | l Hne Hnot]; cbn [In] in Hr;
    [contradiction | |]; destruct Hr as [<-|[]].
  - cbn [title] in Ht. apply trimmed_form_record.
    rewrite py_strip_idem in Ht. exact Ht.
  - unfold trimmed_record. cbn [title number].
    split; [exact Hne | split; [apply py_strip_idem | reflexivity]].
Qed.

Lemma Forall_set_nth (P : song -> Prop) (i : nat) (x : song) (l : list song) :
  P x -> Forall P l -> Forall P (set_nth i x l).
Proof.
  intros Hx Hl. revert i; induction Hl as [|y l Hy Hl IH]; intros [|i];
    cbn [set_nth]; constructor; auto.
Qed.

Lemma Forall_del_nth (P : song -> Prop) (i : nat) (l : list song) :
  Forall P l -> Forall P (del_nth i l).
Proof.
  intros Hl. revert i; induction Hl as [|y l Hy Hl IH]; intros [|i];
    cbn [del_nth]; try constructor; auto.
Qed.

(** X7. The editor keeps records trimmed: when every record of the catalog
    has a title that is not empty and a title and a number without white space
    around them, the same holds of the catalog after any handler. *)
Theorem editor_keeps_records_trimmed (e : event) (app app' : SongApp) (w w' : world) :
  Forall trimmed_record (songs app) ->
  handle e app w = (Returned app', w') ->
  Forall trimmed_record (songs app').
Proof.
  intros Hall.
  destruct e as [text | user | sel user | sel confirm | | text]; cbn [handle].
  - intros H; inversion H; subst. exact Hall.
  - rewrite _on_add_run. destruct user as [|t n];
      [intros H; inversion H; subst; exact Hall|].
    destruct (py_strip t) as [|c t'] eqn:E; cbn [is_empty];
      intros H; inversion H; subst; [exact Hall|].
    rewrite songs_on_search. cbn [songs set_songs].
    apply Forall_app. split; [exact Hall|]. constructor; [|constructor].
    rewrite <- E. apply trimmed_form_record. rewrite E. discriminate.
  - rewrite _on_edit_run. cbn zeta.
    destruct sel as [idx|]; [|intros H; inversion H; subst; exact Hall].
    destruct (nth_error (filtered app) idx) as [item|]; [|discriminate].
    destruct (index_of item (songs app)) as [i|];
      [|intros H; inversion H; subst; exact Hall].
    destruct user as [|t n]; [intros H; inversion H; subst; exact Hall|].
    destruct (py_strip t) as [|c t'] eqn:E; cbn [is_empty];
      intros H; inversion H; subst; [exact Hall|].
    rewrite songs_on_search. cbn [songs set_songs].
    apply Forall_set_nth; [|exact Hall].
    rewrite <- E. apply trimmed_form_record. rewrite E. discriminate.
  - rewrite _on_delete_run. cbn zeta.
    destruct sel as [idx|]; [|intros H; inversion H; subst; exact Hall].
    destruct (nth_error (filtered app) idx) as [item|]; [|discriminate].
    destruct (index_of item (songs app)) as [i|];
      [|intros H; inversion H; subst; exact Hall].
    destruct confirm; intros H; inversion H; subst; [|exact Hall].
    rewrite songs_on_search. cbn [songs set_songs].
    now apply Forall_del_nth.
  - unfold bind. rewrite _on_save_run. intros H; inversion H; subst. exact Hall.
  - destruct text as [[|c t]|]; try (intros H; inversion H; subst; exact Hall).
    destruct (_on_import_run c t app w) as [parsed [Hp Hrun]]. rewrite Hrun.
    intros H; inversion H; subst.
    rewrite songs_on_search. cbn [songs set_songs].
    apply Forall_app. split; [exact Hall|].
    clear Hrun H. induction Hp as [|l p ls ps Hl _ IH]; cbn [concat];
      [constructor|].
    apply Forall_app. split; [eapply line_record_trimmed; eauto | exact IH].
Qed.

(** *** No handler fails on a row of the list box *)

Lemma view_rows (app : SongApp) (idx : nat) :
  rows_ok app ->
  idx < length (listbox app) ->
  exists item i,
    nth_error (filtered app) idx = Some item
    /\ index_of item (songs app) = Some i.
Proof.
  intros [Hf Hl] Hidx. rewrite Hl, length_map in Hidx.
  destruct (nth_error (filtered app) idx) as [item|] eqn:En;
    [|apply nth_error_None in En; lia].
  assert (Hin : In item (songs app)) by (apply Hf; eapply nth_error_In; eauto).
  destruct (index_of_In _ _ Hin) as [i Hi]. eauto.
Qed.

(** X8. No handler of the editor raises: in every state the editor reaches,
    whatever the user types, confirms or closes, and whichever row of the list
    box is selected, if any, the handler returns. *)
Theorem editor_handlers_return (w0 : world) (app : SongApp) (w : world) (e : event) :
  reachable w0 app w ->
  event_ok e app ->
  exists app' w', handle e app w = (Returned app', w').
Proof.
  intros Hreach Hok. pose proof (reachable_rows _ _ _ Hreach) as Hview.
  destruct e as [text | user | sel user | sel confirm | | text]; cbn [handle event_ok] in *.
  - exists (type_search text app), w. reflexivity.
  - rewrite _on_add_run. destruct user as [|t n]; [eauto|].
    destruct (is_empty (py_strip t)); eauto.
  - rewrite _on_edit_run. cbn zeta. destruct sel as [idx|]; [|eauto].
    destruct (view_rows app idx Hview Hok) as [item [i [-> ->]]].
    destruct user as [|t n]; [eauto|].
    destruct (is_empty (py_strip t)); eauto.
  - rewrite _on_delete_run. cbn zeta. destruct sel as [idx|]; [|eauto].
    destruct (view_rows app idx Hview Hok) as [item [i [-> ->]]].
    destruct confirm; eauto.
  - unfold bind. rewrite _on_save_run. do 2 eexists. reflexivity.
  - destruct text as [[|c t]|]; [exists app, w; reflexivity | |
                                 exists app, w; reflexivity].
    destruct (_on_import_run c t app w) as [parsed [_ ->]]. eauto.
Qed.

Lemma set_nth_firstn_skipn (i : nat) (x : song) (l : list song) :
  i < length l ->
  set_nth i x l = (firstn i l ++ x :: skipn (S i) l)%list.
Proof.
  revert i; induction l as [|y l IH]; intros [|i] Hi; cbn [length] in Hi;
    try lia; [reflexivity|].
  cbn [set_nth firstn skipn List.app]. rewrite IH by lia. reflexivity.
Qed.

Lemma length_without (i : nat) (l : list song) :
  i < length l -> length (firstn i l ++ skipn (S i) l) + 1 = length l.
Proof.
  intros Hi. rewrite length_app, length_firstn, length_skipn. lia.
Qed.

(** X9. Delete removes one record, the first of the catalog that is equal to
    the selected row: when the rows of the filtered view are records of the
    catalog and the user confirms, the catalog loses that record and no other,
    the view is recomputed and the catalog is saved; when the user declines,
    nothing changes but for the question asked. *)
Theorem _on_delete_removes_first_match
        (idx : nat) (item : song) (app : SongApp) (w : world) :
  (forall s, In s (filtered app) -> In s (songs app)) ->
  nth_error (filtered app) idx = Some item ->
  exists i,
    nth_error (songs app) i = Some item
    /\ (forall j, j < i -> nth_error (songs app) j <> Some item)
    /\ let asked := shown (AskYesNo "Delete" ("Delete '" ++ title item ++ "'?")) w in
       let rest := (firstn i (songs app) ++ skipn (S i) (songs app))%list in
       _on_delete (Some idx) true app w
       = (Returned (_on_search (set_songs rest app)), snd (save_songs rest asked))
       /\ _on_delete (Some idx) false app w = (Returned app, asked)
       /\ length rest + 1 = length (songs app).
Proof.
  intros Hsub Hn.
  destruct (index_of_In item (songs app)) as [i Hi];
    [apply Hsub; eapply nth_error_In; eauto|].
  destruct (index_of_first _ _ _ Hi) as [Hi1 Hi2].
  exists i. split; [exact Hi1|]. split; [exact Hi2|]. cbn zeta.
  rewrite !_on_delete_run. cbn zeta. rewrite Hn, Hi, del_nth_firstn_skipn.
  split; [reflexivity|]. split; [reflexivity|].
  apply length_without. now apply index_of_length in Hi.
Qed.

(** X10. Edit replaces one record in place, the first of the catalog that is
    equal to the selected row: when the rows of the filtered view are records
    of the catalog and the form is confirmed with a title that is not blank,
    that record becomes the trimmed title and number, every other record stays
    where it is, the view is recomputed and the catalog is saved. *)
Theorem _on_edit_replaces_first_match
        (idx : nat) (item : song) (t n : string) (app : SongApp) (w : world) :
  (forall s, In s (filtered app) -> In s (songs app)) ->
  nth_error (filtered app) idx = Some item ->
  py_strip t <> "" ->
  exists i,
    nth_error (songs app) i = Some item
    /\ (forall j, j < i -> nth_error (songs app) j <> Some item)
    /\ let edited :=
         (firstn i (songs app) ++ mkSong (py_strip t) (py_strip n)
            :: skipn (S i) (songs app))%list in
       _on_edit (Some idx) (Submit t n) app w
       = (Returned (_on_search (set_songs edited app)), snd (save_songs edited w))
       /\ length edited = length (songs app).
Proof.
  intros Hsub Hn Ht.
  destruct (index_of_In item (songs app)) as [i Hi];
    [apply Hsub; eapply nth_error_In; eauto|].
  destruct (index_of_first _ _ _ Hi) as [Hi1 Hi2].
  pose proof (index_of_length _ _ _ Hi) as Hlen.
  exists i. split; [exact Hi1|]. split; [exact Hi2|]. cbn zeta.
  rewrite _on_edit_run. cbn zeta. rewrite Hn, Hi.
  apply is_empty_false in Ht. rewrite Ht.
  rewrite set_nth_firstn_skipn by exact Hlen.
  split; [reflexivity|].
  rewrite length_app, length_firstn. cbn [length]. rewrite length_skipn. lia.
Qed.

(** X11. The Save button reports a save whether or not there was one: when the
    host refuses the write, the file is left as it was, and the error box is
    followed by the box that tells how many songs were saved. *)
Theorem _on_save_reports_after_failure (app : SongApp) (w : world) (msg : string) :
  write_error w = Some msg ->
  exists w',
    _on_save app w = (Returned tt, w')
    /\ file w' = file w
    /\ dialogs w'
       = (dialogs w
          ++ [ShowError "Error" ("Failed to save songs.json: " ++ msg);
              ShowInfo "Save"
                ("Saved " ++ str_nat (length (songs app)) ++ " songs to songs.json")])%list.
Proof.
  intros Hw. rewrite _on_save_run, (save_songs_failure _ _ _ Hw).
  eexists. split; [reflexivity|]. split; [reflexivity|].
  cbn [snd shown dialogs]. now rewrite <- app_assoc.
Qed.

(** X12. A backing file that does not load as a list is lost at the first
    change: when the file is there but cannot be read, or its bytes do not
    decode, or [json.load] does not read a list from it, the editor starts on
    an empty catalog, and the first song added (its title not blank, title and
    number encoding in UTF-8), on a host that lets the file be written, leaves
    the file holding that song alone. *)
Theorem add_after_failed_load_replaces_file (w0 : world) (text t n : string) :
  file w0 = Some text ->
  write_error w0 = None ->
  (read_error w0 <> None \/ valid_utf8 text = false
   \/ forall items, json_loads text <> inl (JList items)) ->
  py_strip t <> "" ->
  valid_utf8 t = true ->
  valid_utf8 n = true ->
  exists app w,
    (app0 <- SongApp_init ;; _on_add (Submit t n) app0) w0 = (Returned app, w)
    /\ songs app = [mkSong (py_strip t) (py_strip n)]
    /\ file w = Some (json_dumps (catalog_json [mkSong (py_strip t) (py_strip n)])).
Proof.
  intros Hf Hw Hbad Ht Hvt Hvn.
  destruct (load_songs_present_outcome w0 text Hf)
    as [records [w1 [Hl [_ [_ [_ [Hw1 Hd]]]]]]].
  assert (Hempty : records = []).
  { destruct (read_error w0) as [m|] eqn:Er; [tauto|].
    destruct (valid_utf8 text) eqn:Ev; [|tauto].
    destruct Hbad as [Hbad|[Hbad|Hbad]]; [congruence | congruence |].
    destruct (json_loads text) as [data|e] eqn:Ej; [|tauto].
    rewrite (load_songs_present w0 text Hf Er Ev), Ej in Hl.
    destruct data; inversion Hl; subst; try reflexivity.
    exfalso. eapply Hbad. reflexivity. }
  subst records.
  unfold bind at 1, SongApp_init, bind at 1. rewrite Hl.
  cbn [ret]. unfold ret. rewrite _on_add_run.
  apply is_empty_false in Ht. rewrite Ht. cbn zeta.
  cbn [songs _refresh_list List.app].
  rewrite save_songs_ok;
    [|congruence | cbn [encodable forallb]; unfold encodable_song; cbn [title number];
       now rewrite !valid_utf8_strip].
  do 2 eexists. split; [reflexivity|]. split; reflexivity.
Qed.

(** *** Search within search, and the count of an import *)

Lemma py_in_trans (a b c : string) :
  py_in a b = true -> py_in b c = true -> py_in a c = true.
Proof.
  rewrite !py_in_spec. intros [u [v ->]] [x [y ->]].
  exists (x ++ u), (v ++ y). now rewrite !append_assoc.
Qed.

Lemma filter_refines {A : Type} (f g : A -> bool) (l : list A) :
  (forall x, f x = true -> g x = true) ->
  filter f (filter g l) = filter f l.
Proof.
  intros H. induction l as [|x l IH]; [reflexivity|]. cbn [filter].
  destruct (g x) eqn:Eg; cbn [filter].
  - now rewrite IH.
  - destruct (f x) eqn:Ef; [rewrite (H x Ef) in Eg; discriminate | exact IH].
Qed.

Lemma type_search_filtered (q : string) (app : SongApp) :
  filtered (type_search q app) = view_of q (songs app).
Proof. unfold type_search. now rewrite _on_search_filtered. Qed.

(** X17. Refining a query searches within the previous result: when the
    processed text of one query (lower-cased, trimmed) occurs in that of
    another, the view for the latter is the view for the former, filtered by
    the latter; no record comes back that the shorter query had left out. *)
Theorem search_refines_previous_view (q1 q2 : string) (app : SongApp) :
  py_in (search_key q1) (search_key q2) = true ->
  filtered (type_search q2 app) = view_of q2 (filtered (type_search q1 app)).
Proof.
  intros Hin. rewrite !type_search_filtered. unfold view_of.
  symmetry. apply filter_refines. intros s.
  unfold selects. rewrite !orb_true_iff.
  intros [H|H]; [left | right]; eapply py_in_trans; eauto.
Qed.

Lemma line_record_count (lines : list string) (parsed : list (list song)) :
  Forall2 line_record lines parsed ->
  length (concat parsed)
  = length (filter (fun l => negb (is_empty (py_strip l))) lines).
Proof.
  induction 1 as [|l p ls ps Hl _ IH]; [reflexivity|].
  cbn [concat filter]. rewrite length_app, IH.
  destruct Hl as [l E | l a b [Hab _] | l Hne Hnot].
  - rewrite E. reflexivity.
  - rewrite Hab. destruct a; reflexivity.
  - apply is_empty_false in Hne. rewrite Hne. reflexivity.
Qed.

(** X18. An import adds one record for each line of the text that is not
    blank, after the records the catalog had, which stay as they were, and the
    count it reports is the number of those lines. *)
Theorem _on_import_one_record_per_line (text : string) (app : SongApp) (w : world) :
  text <> "" ->
  exists app' w' ds,
    _on_import (Some text) app w = (Returned app', w')
    /\ length (songs app') = length (songs app) + length (nonblank_lines text)
    /\ firstn (length (songs app)) (songs app') = songs app
    /\ dialogs w'
       = (ds ++ [ShowInfo "Import"
                   ("Imported " ++ str_nat (length (nonblank_lines text)) ++ " songs")])%list.
Proof.
  intros Hne. destruct text as [|c t]; [congruence|].
  destruct (_on_import_run c t app w) as [parsed [Hp Hrun]].
  pose proof (line_record_count _ _ Hp) as Hcount.
  fold (nonblank_lines (String c t)) in Hcount.
  rewrite Hrun. do 3 eexists. split; [reflexivity|].
  rewrite songs_on_search. cbn [songs set_songs].
  split; [now rewrite length_app, Hcount|].
  split; [now rewrite firstn_app, Nat.sub_diag, firstn_all, app_nil_r|].
  rewrite Hcount. reflexivity.
Qed.

(* ================================================================== *)
(** ** Further properties of the batch interface *)
(* ================================================================== *)

(** *** [int] reads what [str] writes *)

Lemma int_digits_uint (d : Decimal.uint) :
  forall (acc : nat) (b : bool),
    d <> Decimal.Nil \/ b = true ->
    int_digits (Z.of_nat acc) b (NilEmpty.string_of_uint d)
    = Some (Z.of_nat (Nat.of_uint_acc d acc)).
Proof.
  induction d as [|d IH|d IH|d IH|d IH|d IH|d IH|d IH|d IH|d IH|d IH];
    intros acc b Hb;
    [destruct Hb as [Hb | ->]; [congruence | reflexivity] | ..];
    cbn [NilEmpty.string_of_uint Nat.of_uint_acc];
    match goal with
    | |- int_digits ?a ?b (String ?c ?r) = _ =>
        change (int_digits a b (String c r))
          with (int_digits (10 * a + Z.of_nat (code c - 48)) true r)
    end;
    match goal with
    | |- int_digits ?z true _ = Some (Z.of_nat (Nat.of_uint_acc _ ?k)) =>
        replace z with (Z.of_nat k)
          by (rewrite Nat.tail_mul_spec;
              match goal with
              | |- context [(code ?c - 48)%nat] =>
                  let v := eval vm_compute in (code c - 48)%nat in
                  change (code c - 48)%nat with v
              end; lia)
    end;
    apply IH; now right.
Qed.

Lemma uint_no_space (d : Decimal.uint) :
  lstrip_with isspace_int (NilEmpty.string_of_uint d) = NilEmpty.string_of_uint d
  /\ rstrip_with isspace_int (NilEmpty.string_of_uint d) = NilEmpty.string_of_uint d.
Proof.
  split; [destruct d; reflexivity|].
  induction d as [|d IH|d IH|d IH|d IH|d IH|d IH|d IH|d IH|d IH|d IH];
    [reflexivity | ..];
    cbn [NilEmpty.string_of_uint rstrip_with]; rewrite IH;
    destruct (NilEmpty.string_of_uint d); reflexivity.
Qed.

Lemma uint_isascii (d : Decimal.uint) : isascii (NilEmpty.string_of_uint d) = true.
Proof.
  induction d; cbn [NilEmpty.string_of_uint isascii]; [reflexivity | ..];
    rewrite IHd; reflexivity.
Qed.

Lemma uint_count_digits (d : Decimal.uint) :
  count_digits (NilEmpty.string_of_uint d) = String.length (NilEmpty.string_of_uint d).
Proof.
  induction d; cbn [NilEmpty.string_of_uint count_digits String.length];
    [reflexivity | ..]; rewrite IHd; reflexivity.
Qed.

Lemma to_uint_nonnil (n : nat) : Nat.to_uint n <> Decimal.Nil.
Proof.
  rewrite <- (DecimalNat.Unsigned.of_to n) at 1. rewrite DecimalNat.Unsigned.to_of.
  unfold Decimal.unorm. destruct (Decimal.nzhead (Nat.to_uint n)); discriminate.
Qed.

(** [int(str(n))] is [n], as long as [n] has no more digits than [int]
    converts. *)
Lemma py_int_str_nat (n : nat) :
  String.length (str_nat n) <= max_str_digits ->
  py_int (str_nat n) = Some (Z.of_nat n).
Proof.
  intros Hlen. unfold py_int, str_nat in *.
  rewrite (int_text_ascii _ (uint_isascii (Nat.to_uint n))).
  destruct (uint_no_space (Nat.to_uint n)) as [-> ->].
  rewrite uint_count_digits.
  replace (max_str_digits <? String.length (NilEmpty.string_of_uint (Nat.to_uint n)))%nat
    with false by (symmetry; apply Nat.ltb_ge; exact Hlen).
  pose proof (to_uint_nonnil n) as Hn.
  pose proof (int_digits_uint (Nat.to_uint n) 0 false (or_introl Hn)) as H.
  fold (Nat.of_uint (Nat.to_uint n)) in H. rewrite DecimalNat.Unsigned.of_to in H.
  destruct (Nat.to_uint n); [congruence | ..]; exact H.
Qed.

(** *** The commands *)

(** The run of [--add] with a title, once the catalog is loaded: the record
    is saved, and then the confirmation is printed, which raises when the
    standard output cannot encode the title. *)
Lemma run_cli_add_run (w w1 : world) (catalog : list song) (t : string) (more : list string) :
  load_songs w = (Returned catalog, w1) ->
  run_cli ("--add" :: t :: more) w
  = print ("Added: " ++ t) (snd (save_songs (catalog ++ [mkSong t (hd "" more)]) w1)).
Proof.
  intros Hl. rewrite (run_cli_loaded _ _ _ _ Hl).
  change ("--add" =? "--list")%string with false.
  change ("--add" =? "--add")%string with true.
  cbn [andb length Nat.leb nth]. cbv iota.
  assert (Hn : (if (3 <=? S (S (length more)))%nat then nth 0 more "" else "")
               = hd "" more) by (destruct more; reflexivity).
  cbn [Nat.leb] in Hn |- *. rewrite Hn. unfold bind.
  destruct (save_songs_returns (catalog ++ [mkSong t (hd "" more)]) w1)
    as [w' [Hs _]].
  rewrite Hs. reflexivity.
Qed.

(** X13. The batch [add] command takes the title as it is given, with the
    next argument as number or an empty number, whatever follows: it appends
    that record to the catalog, saves, and confirms; on a backing file the
    host lets be written and read, when the titles and numbers of the
    catalog and of the new record encode in UTF-8 and the standard output can
    encode the confirmation, the next load returns the catalog with the record
    at its end. *)
Theorem run_cli_add_appends
        (w w1 : world) (catalog : list song) (t : string) (more : list string) :
  load_songs w = (Returned catalog, w1) ->
  write_error w1 = None ->
  read_error w1 = None ->
  encodable (catalog ++ [mkSong t (hd "" more)]) = true ->
  can_print ("Added: " ++ t) = true ->
  exists w2,
    run_cli ("--add" :: t :: more) w = (Returned tt, w2)
    /\ stdout w2 = (stdout w1 ++ [("Added: " ++ t)%string])%list
    /\ dialogs w2 = dialogs w1
    /\ load_songs w2 = (Returned (catalog ++ [mkSong t (hd "" more)])%list, w2).
Proof.
  intros Hl Hw Hr He Hp. rewrite (run_cli_add_run _ _ _ _ _ Hl).
  rewrite (save_songs_ok _ _ Hw He), (print_ok _ _ Hp). eexists. split; [reflexivity|].
  cbn [snd printed written stdout dialogs]. split; [reflexivity|]. split; [reflexivity|].
  rewrite (load_songs_present _ (json_dumps (catalog_json (catalog ++ [mkSong t (hd "" more)]))));
    [|reflexivity | exact Hr | now apply valid_json_dumps_catalog].
  rewrite json_loads_dumps_catalog. unfold catalog_json.
  now rewrite fold_normalize_songs.
Qed.

Lemma run_cli_rejects_without_saving_aux
        (w w1 : world) (catalog : list song) (args : list string) :
  load_songs w = (Returned catalog, w1) ->
  mutating args = false ->
  hd "" args <> "--list" ->
  run_cli args w
  = (Returned tt,
     printed [match args with [] => usage | _ :: _ => "Unknown CLI command" end] w1).
Proof.
  intros Hl Hm Hlist. rewrite (run_cli_loaded _ _ _ _ Hl).
  destruct args as [|arg0 rest]; [now rewrite print_ascii|].
  cbn [hd] in Hlist. apply String.eqb_neq in Hlist. rewrite Hlist.
  cbn [mutating] in Hm. apply orb_false_iff in Hm. destruct Hm as [-> ->].
  now rewrite print_ascii.
Qed.

(** X14. A command that is not known, or that lacks or exceeds its arguments,
    changes nothing: no argument at all gets the usage text, and [--add]
    without a title, [--remove] without or with more than one argument, and
    any other first argument but [--list] get the unknown-command message;
    nothing is saved. *)
Theorem run_cli_rejects_without_saving
        (w w1 : world) (catalog : list song) (args : list string) :
  load_songs w = (Returned catalog, w1) ->
  mutating args = false ->
  hd "" args <> "--list" ->
  run_cli args w
  = (Returned tt,
     printed [match args with [] => usage | _ :: _ => "Unknown CLI command" end] w1).
Proof. apply run_cli_rejects_without_saving_aux. Qed.

(** X15. Once the backing file is there, the batch interface raises nothing
    but the error of a [print] whose text the standard output cannot encode,
    and that only under [--list] and [--add]: whatever its arguments,
    [--remove] returns, and so does a command that is not known. *)
Theorem run_cli_raises_only_from_print (w : world) (text : string) (args : list string) :
  file w = Some text ->
  exists r w',
    run_cli args w = (r, w')
    /\ (r = Returned tt
        \/ (exists msg, r = Raised (UnicodeEncodeError msg))
           /\ (hd "" args = "--list" \/ hd "" args = "--add")).
Proof.
  intros Hf.
  destruct (load_songs_present_outcome w text Hf) as [catalog [w1 [Hl _]]].
  destruct args as [|arg0 rest].
  - rewrite (run_cli_loaded _ _ _ _ Hl), print_ascii by reflexivity. eauto.
  - destruct (String.eqb_spec arg0 "--list") as [->|Hlist].
    + rewrite (run_cli_loaded _ _ _ _ Hl).
      change ("--list" =? "--list")%string with true. cbv iota.
      destruct (print_songs_run catalog 0 w1) as [r [lines [-> Hr]]].
      do 2 eexists. split; [reflexivity|].
      destruct Hr as [->|Hr]; [now left | right; split; [exact Hr | now left]].
    + destruct (mutating (arg0 :: rest)) eqn:Hm.
      * cbn [mutating] in Hm. apply orb_true_iff in Hm.
        destruct Hm as [Hm|Hm]; apply andb_true_iff in Hm; destruct Hm as [Ha Hlen];
          apply String.eqb_eq in Ha; subst arg0.
        -- destruct rest as [|t more]; [discriminate|].
           rewrite (run_cli_add_run _ _ _ _ _ Hl).
           destruct (can_print ("Added: " ++ t)) eqn:Ep.
           ++ rewrite (print_ok _ _ Ep). eauto.
           ++ rewrite (print_fails _ _ Ep). do 2 eexists. split; [reflexivity|].
              right. split; [eauto | now right].
        -- destruct rest as [|arg [|x more]]; try discriminate.
           rewrite (run_cli_remove_run _ _ _ _ Hl).
           destruct (py_int arg) as [idx|]; [|eauto].
           destruct ((0 <=? idx)%Z && (idx <? Z.of_nat (length catalog))%Z); eauto.
      * rewrite (run_cli_rejects_without_saving_aux w w1 catalog (arg0 :: rest) Hl Hm Hlist).
        eauto.
Qed.

(** X16. The index [--list] prints before a record is the argument with which
    [--remove] removes that record: given the decimal text of the place of a
    record (of no more digits than [int] converts), [--remove] saves the
    catalog without that record and, when the standard output can encode it,
    prints its title. *)
Theorem run_cli_remove_listed_index
        (w w1 : world) (catalog : list song) (i : nat) (s : song) :
  load_songs w = (Returned catalog, w1) ->
  nth_error catalog i = Some s ->
  String.length (str_nat i) <= max_str_digits ->
  can_print ("Removed: " ++ title s) = true ->
  run_cli ["--remove"; str_nat i] w
  = (Returned tt,
     printed ["Removed: " ++ title s]
       (snd (save_songs (firstn i catalog ++ skipn (S i) catalog) w1))).
Proof.
  intros Hl Hn Hlen Hp.
  rewrite (run_cli_remove_run _ _ _ _ Hl), (py_int_str_nat _ Hlen).
  assert (Hi : i < length catalog) by (apply nth_error_Some; congruence).
  replace ((0 <=? Z.of_nat i)%Z && (Z.of_nat i <? Z.of_nat (length catalog))%Z)
    with true
    by (symmetry; apply andb_true_iff; split;
        [apply Z.leb_le | apply Z.ltb_lt]; lia).
  cbn zeta. rewrite Nat2Z.id, (nth_error_nth _ _ (mkSong "" "") Hn), Hp.
  reflexivity.
Qed.

Lemma without_last (catalog : list song) (r : song) :
  nth_error (catalog ++ [r]) (length catalog) = Some r
  /\ (firstn (length catalog) (catalog ++ [r])
      ++ skipn (S (length catalog)) (catalog ++ [r]))%list = catalog.
Proof.
  split.
  - rewrite nth_error_app2, Nat.sub_diag by lia. reflexivity.
  - rewrite firstn_app, Nat.sub_diag, firstn_all. cbn [firstn].
    rewrite skipn_all2 by (rewrite length_app; cbn [length]; lia).
    now rewrite !app_nil_r.
Qed.

Lemma encodable_app (a b : list song) :
  encodable (a ++ b) = encodable a && encodable b.
Proof. unfold encodable. apply forallb_app. Qed.

(** X19. Adding a song and then removing the index just past the old
    catalog undoes the addition: on a backing file the host lets be written
    and read, when the titles and numbers of the catalog and of the new record
    encode in UTF-8, the standard output can encode the two confirmations and
    the old length has no more digits than [int] converts, [--add] followed
    by [--remove] with the old length leaves a file from which the next load
    returns the old catalog, and the two commands print their
    confirmations. *)
Theorem run_cli_add_then_remove
        (w w1 : world) (catalog : list song) (t : string) (more : list string) :
  load_songs w = (Returned catalog, w1) ->
  write_error w1 = None ->
  read_error w1 = None ->
  encodable (catalog ++ [mkSong t (hd "" more)]) = true ->
  can_print ("Added: " ++ t) = true ->
  can_print ("Removed: " ++ t) = true ->
  String.length (str_nat (length catalog)) <= max_str_digits ->
  exists w2 w3,
    run_cli ("--add" :: t :: more) w = (Returned tt, w2)
    /\ run_cli ["--remove"; str_nat (length catalog)] w2 = (Returned tt, w3)
    /\ load_songs w3 = (Returned catalog, w3)
    /\ stdout w3
       = (stdout w1 ++ [("Added: " ++ t)%string; ("Removed: " ++ t)%string])%list.
Proof.
  intros Hl Hw Hr He Hpa Hpr Hlen. rewrite (run_cli_add_run _ _ _ _ _ Hl).
  rewrite (save_songs_ok _ _ Hw He), (print_ok _ _ Hpa). cbn [snd].
  set (r := mkSong t (hd "" more)) in *.
  set (w2 := printed ["Added: " ++ t] (written (json_dumps (catalog_json (catalog ++ [r]))) w1)).
  assert (Hl2 : load_songs w2 = (Returned (catalog ++ [r])%list, w2)).
  { rewrite (load_songs_present w2 (json_dumps (catalog_json (catalog ++ [r]))));
      [|reflexivity | exact Hr | now apply valid_json_dumps_catalog].
    rewrite json_loads_dumps_catalog. unfold catalog_json.
    now rewrite fold_normalize_songs. }
  destruct (without_last catalog r) as [Hn Hrest].
  rewrite encodable_app in He. apply andb_true_iff in He. destruct He as [Hec _].
  exists w2. eexists. split; [reflexivity|].
  rewrite (run_cli_remove_run _ _ _ _ Hl2), (py_int_str_nat _ Hlen).
  replace ((0 <=? Z.of_nat (length catalog))%Z
           && (Z.of_nat (length catalog) <? Z.of_nat (length (catalog ++ [r])))%Z)
    with true
    by (symmetry; apply andb_true_iff; split;
        [apply Z.leb_le | apply Z.ltb_lt]; rewrite ?length_app; cbn [length]; lia).
  cbn zeta. rewrite Nat2Z.id, Hrest, (nth_error_nth _ _ (mkSong "" "") Hn).
  cbn [title r]. rewrite Hpr.
  rewrite save_songs_ok by (cbn; auto). cbn [snd].
  split; [reflexivity|]. split.
  - rewrite (load_songs_present _ (json_dumps (catalog_json catalog)));
      [|reflexivity | exact Hr | now apply valid_json_dumps_catalog].
    rewrite json_loads_dumps_catalog. unfold catalog_json.
    now rewrite fold_normalize_songs.
  - cbn [stdout printed written w2]. now rewrite <- app_assoc.
Qed.

End Runtime.

(* ================================================================== *)
(** ** The theorems at concrete inputs *)
(* ================================================================== *)

(** C1 at a catalog of two songs, on a fresh world without a file. *)
Lemma save_then_load_roundtrip_witness :
  (save_songs example_runtime two_songs ;; load_songs example_runtime) (fresh None)
  = (Returned two_songs,
     mkWorld (Some (json_dumps example_runtime (catalog_json two_songs))) None None [] []).
Proof.
  apply (save_then_load_roundtrip example_runtime two_songs (fresh None)); reflexivity.
Defined.

(** C1 as it is worded fails on a title that is a surrogate, such as [load]
    returns from the text [["\ud800", "A"]]: the title does not encode, so
    [save] shows an error and leaves the file holding the start of the text,
    and [load] then shows another and returns the empty catalog. *)
Lemma save_fails_on_lone_surrogate :
  fst (load_songs example_runtime (fresh (Some surrogate_text)))
  = Returned [mkSong lone_surrogate ""; mkSong "A" ""]
  /\ fst ((save_songs example_runtime [mkSong lone_surrogate ""; mkSong "A" ""] ;; load_songs example_runtime)
            (fresh None))
     = Returned []
  /\ file (snd ((save_songs example_runtime [mkSong lone_surrogate ""; mkSong "A" ""]
                 ;; load_songs example_runtime) (fresh None)))
     = Some ("[" ++ newline_indent 1 ++ "{" ++ newline_indent 2
             ++ encode_string "title" ++ ": ")
  /\ length (dialogs (snd ((save_songs example_runtime [mkSong lone_surrogate ""; mkSong "A" ""]
                            ;; load_songs example_runtime) (fresh None))))
     = 2
  /\ fst ((save_songs example_runtime [mkSong lone_surrogate ""; mkSong "A" ""] ;; load_songs example_runtime)
            (fresh None))
     <> Returned [mkSong lone_surrogate ""; mkSong "A" ""].
Proof.
  repeat split; try (vm_compute; reflexivity).
  vm_compute. discriminate.
Qed.

(** C2 at the legacy fields of the specification's example. *)
Lemma load_normalizes_entries_witness :
  load_songs example_runtime (fresh (Some legacy_text))
  = (Returned [mkSong "Amazing Grace" "12"], fresh (Some legacy_text)).
Proof.
  apply (load_normalizes_entries example_runtime (fresh (Some legacy_text)) legacy_text
           (JList [JDict [("name", JStr "Amazing Grace"); ("num", JStr "12")]]));
    reflexivity.
Defined.

(** C2 as it is worded fails on a number that is zero: the field is there,
    yet the record gets the empty string, not ["0"]. *)
Lemma load_drops_false_field :
  json_loads example_runtime zero_number_text
  = inl (JList [JDict [("title", JStr "A"); ("number", JInt 0)]])
  /\ load_songs example_runtime (fresh (Some zero_number_text))
     = (Returned [mkSong "A" ""], fresh (Some zero_number_text))
  /\ spec_load example_runtime (JList [JDict [("title", JStr "A"); ("number", JInt 0)]])
     = [mkSong "A" "0"]
  /\ load_songs example_runtime (fresh (Some zero_number_text))
     <> (Returned
           (spec_load example_runtime (JList [JDict [("title", JStr "A"); ("number", JInt 0)]])),
         fresh (Some zero_number_text)).
Proof.
  repeat split; try (vm_compute; reflexivity).
  vm_compute. discriminate.
Qed.

(** C4 at a query with blanks around it and a capital, and at a query of
    blanks. *)
Lemma search_filters_by_trimmed_query_witness :
  filtered (type_search example_runtime " Grace " (set_songs two_songs empty_app))
  = [mkSong "Amazing Grace" "12"]
  /\ filtered (type_search example_runtime "  " (set_songs two_songs empty_app))
     = two_songs.
Proof.
  split.
  - apply (proj1 (search_filters_by_trimmed_query example_runtime " Grace "
                    (set_songs two_songs empty_app))).
  - apply (proj1 (proj2 (search_filters_by_trimmed_query example_runtime "  "
                           (set_songs two_songs empty_app)))).
    reflexivity.
Defined.

(** C4 as it is worded fails on a query with a blank at its end: the view
    keeps a record that does not contain the query. *)
Lemma search_trims_query :
  filtered (type_search example_runtime "a " (set_songs [mkSong "a" ""] empty_app))
  = [mkSong "a" ""]
  /\ spec_search example_runtime "a " [mkSong "a" ""] = []
  /\ filtered (type_search example_runtime "a " (set_songs [mkSong "a" ""] empty_app))
     <> spec_search example_runtime "a " (songs (set_songs [mkSong "a" ""] empty_app)).
Proof.
  repeat split; try (vm_compute; reflexivity).
  vm_compute. discriminate.
Qed.

(** C5 as it is worded fails on a line that ends with the separator: the
    line contains it, its trimmed form does not, and the whole trimmed line
    becomes the title. *)
Lemma import_trims_before_splitting :
  fst (_on_import example_runtime (Some "abc - ") empty_app (fresh None))
  = Returned (mkSongApp [mkSong "abc -" ""] [mkSong "abc -" ""] "" ["abc -"] "1")
  /\ spec_import "abc - " = [mkSong "abc" ""]
  /\ fst (_on_import example_runtime (Some "abc - ") empty_app (fresh None))
     <> Returned (_on_search example_runtime
                    (set_songs (songs empty_app ++ spec_import "abc - ") empty_app)).
Proof.
  repeat split; try (vm_compute; reflexivity).
  vm_compute. discriminate.
Qed.

(** C5 at the import text of the specification's example. *)
Lemma import_appends_parsed_lines_witness :
  (exists parsed : list (list song),
     Forall2 line_record (py_splitlines import_text) parsed
     /\ let new := concat parsed in
        let app1 := _on_search example_runtime (set_songs (songs empty_app ++ new) empty_app) in
        let w1 := snd (save_songs example_runtime (songs empty_app ++ new) (fresh None)) in
        _on_import example_runtime (Some import_text) empty_app (fresh None)
        = (Returned app1,
           shown (ShowInfo "Import" ("Imported " ++ str_nat (length new) ++ " songs")) w1)
        /\ songs app1 = (songs empty_app ++ new)%list)
  /\ _on_import example_runtime (Some "") empty_app (fresh None) = (Returned empty_app, fresh None)
  /\ _on_import example_runtime None empty_app (fresh None) = (Returned empty_app, fresh None).
Proof.
  apply (import_appends_parsed_lines example_runtime import_text empty_app (fresh None)).
  discriminate.
Defined.


(** C6 at the specification's example: [remove 5] on a catalog of three. *)
Example remove_out_of_range :
  run_cli example_runtime ["--remove"; "5"]
    (fresh (Some (json_dumps example_runtime (catalog_json three_songs))))
  = (Returned tt,
     printed ["Index out of range"]
       (fresh (Some (json_dumps example_runtime (catalog_json three_songs))))).
Proof. vm_compute. reflexivity. Qed.


(** C7 on a fresh world without a file. *)
Lemma load_creates_missing_file_witness :
  load_songs example_runtime (fresh None)
  = (Returned [], mkWorld (Some (json_dumps example_runtime (JList []))) None None [] [])
  /\ json_dumps example_runtime (JList []) = "[]".
Proof.
  apply (load_creates_missing_file example_runtime (fresh None)); reflexivity.
Defined.

(** C9 at a catalog of three songs. *)
Lemma cli_list_prints_catalog_witness :
  exists lines,
    run_cli example_runtime ["--list"]
      (fresh (Some (json_dumps example_runtime (catalog_json three_songs))))
    = (Returned tt,
       printed lines (fresh (Some (json_dumps example_runtime (catalog_json three_songs)))))
    /\ length lines = length three_songs
    /\ forall i s, nth_error three_songs i = Some s ->
         nth_error lines i
         = Some (str_nat i ++ ": " ++ title s ++ " "
                 ++ (if is_empty (number s) then "" else "- " ++ number s))
         /\ (py_in LF (title s) = false -> py_in LF (number s) = false ->
             py_in LF (list_line i s) = false).
Proof.
  apply (cli_list_prints_catalog example_runtime
           (fresh (Some (json_dumps example_runtime (catalog_json three_songs))))
           (fresh (Some (json_dumps example_runtime (catalog_json three_songs))))
           three_songs); [reflexivity|].
  intros [|[|[|i]]] s H; cbn in H; try (destruct i; discriminate H);
    inversion H; subst; reflexivity.
Defined.

(** C9 as it is worded fails on a title that holds a line feed, such as
    [load] returns from the text [["a\nb"]]: the one record is printed on two
    lines. *)
Lemma list_prints_two_lines :
  fst (load_songs example_runtime (fresh (Some two_line_text)))
  = Returned [mkSong ("a" ++ newline ++ "b") ""]
  /\ stdout (snd (run_cli example_runtime ["--list"] (fresh (Some two_line_text))))
     = ["0: a" ++ newline ++ "b "]
  /\ py_splitlines (output (snd (run_cli example_runtime ["--list"] (fresh (Some two_line_text)))))
     = ["0: a"; "b "]
  /\ length (py_splitlines
               (output (snd (run_cli example_runtime ["--list"] (fresh (Some two_line_text))))))
     <> length [mkSong ("a" ++ newline ++ "b") ""].
Proof.
  repeat split; try (vm_compute; reflexivity).
  vm_compute. discriminate.
Qed.

(** C10 at a list of a string, a number, a mapping and a null. *)
Lemma load_keeps_recognized_entries_witness :
  exists records,
    load_songs example_runtime (fresh (Some mixed_text))
    = (Returned records, fresh (Some mixed_text))
    /\ Forall2 (fun item r => entry_records example_runtime item = [r])
         (filter recognized
            [JStr "Rock of Ages"; JInt 5; JDict [("title", JStr "A")]; JNull])
         records
    /\ length records
       = length (filter recognized
                   [JStr "Rock of Ages"; JInt 5; JDict [("title", JStr "A")]; JNull])
    /\ Forall (fun r => song_json r
                        = JDict [("title", JStr (title r)); ("number", JStr (number r))])
         records.
Proof.
  apply (load_keeps_recognized_entries example_runtime (fresh (Some mixed_text)) mixed_text
           [JStr "Rock of Ages"; JInt 5; JDict [("title", JStr "A")]; JNull]);
    reflexivity.
Defined.

(** C10 as it is worded fails on a list that holds an integer of more than
    4300 digits: the text is a JSON list whose first entry is a string, yet
    [json.load] raises on the integer, and [load] shows an error and returns
    the empty catalog; the string is lost with the integer. *)
Lemma load_rejects_long_integer :
  valid_utf8 long_integer_text = true
  /\ json_loads example_runtime long_integer_text = inr (IntTooLong 4301)
  /\ fst (load_songs example_runtime (fresh (Some long_integer_text))) = Returned []
  /\ length (dialogs (snd (load_songs example_runtime (fresh (Some long_integer_text))))) = 1
  /\ fst (load_songs example_runtime (fresh (Some long_integer_text)))
     <> Returned [mkSong "A" ""].
Proof.
  repeat split; try (vm_compute; reflexivity).
  vm_compute. discriminate.
Qed.

(** *** The examples of the specification *)

(** The text [["Rock of Ages"]]. *)
Example load_plain_string :
  load_songs example_runtime (fresh (Some ("[" ++ encode_string "Rock of Ages" ++ "]")))
  = (Returned [mkSong "Rock of Ages" ""],
     fresh (Some ("[" ++ encode_string "Rock of Ages" ++ "]"))).
Proof. vm_compute. reflexivity. Qed.

Example search_by_number :
  filtered (type_search example_runtime "12" (set_songs two_songs empty_app))
  = [mkSong "Amazing Grace" "12"].
Proof. vm_compute. reflexivity. Qed.

Example import_two_lines :
  fst (_on_import example_runtime (Some import_text) empty_app (fresh None))
  = Returned (_on_search example_runtime
                (set_songs [mkSong "Holy Holy Holy" "100"; mkSong "Just As I Am" ""]
                   empty_app)).
Proof. vm_compute. reflexivity. Qed.

Example remove_second_of_three :
  run_cli example_runtime ["--remove"; "1"]
    (fresh (Some (json_dumps example_runtime (catalog_json three_songs))))
  = (Returned tt,
     mkWorld
       (Some (json_dumps example_runtime
                (catalog_json [mkSong "Amazing Grace" "12"; mkSong "Rock of Ages" "7"])))
       None None [] ["Removed: How Great"]).
Proof. vm_compute. reflexivity. Qed.

Example list_three :
  stdout (snd (run_cli example_runtime ["--list"]
                 (fresh (Some (json_dumps example_runtime (catalog_json three_songs))))))
  = ["0: Amazing Grace - 12"; "1: How Great "; "2: Rock of Ages - 7"].
Proof. vm_compute. reflexivity. Qed.

(** *** The built-ins beyond ASCII *)

(** A no-break space and an em space are white space to [strip]; a line
    separator is a line boundary; an Arabic-Indic digit is a digit to [int],
    which takes a no-break space for white space and a file separator for
    none. *)
Example strip_unicode_space :
  py_strip (utf8 160 ++ " a b " ++ utf8 8195) = "a b"
  /\ py_strip (utf8 160 ++ utf8 8195) = "".
Proof. split; vm_compute; reflexivity. Qed.

Example splitlines_line_separator :
  py_splitlines ("A" ++ utf8 8232 ++ "B") = ["A"; "B"].
Proof. vm_compute. reflexivity. Qed.

Example int_unicode_digit :
  py_int (utf8 1633) = Some 1%Z
  /\ py_int (utf8 160 ++ "5") = Some 5%Z
  /\ py_int (String "028" "5") = None.
Proof. repeat split; vm_compute; reflexivity. Qed.

(** A form confirmed with a title of a no-break space and an em space is
    refused. *)
Example add_unicode_blank_title :
  _on_add example_runtime (Submit (utf8 160 ++ utf8 8195) "1") empty_app (fresh None)
  = (Returned empty_app, shown (ShowWarning "Validation" "Title cannot be empty") (fresh None)).
Proof. vm_compute. reflexivity. Qed.

(* ================================================================== *)
(** ** The further properties at concrete inputs *)
(* ================================================================== *)

Lemma load_mixed :
  load_songs example_runtime (fresh (Some mixed_text))
  = (Returned mixed_catalog, fresh (Some mixed_text)).
Proof. vm_compute. reflexivity. Qed.

(** The editor started without a file, after [Amazing Grace] is added. *)
Lemma reachable_added :
  reachable example_runtime (fresh None) (added_app example_runtime)
    (written (json_dumps example_runtime (catalog_json [grace])) (fresh (Some "[]"))).
Proof.
  eapply reach_step with (e := ClickAdd (Submit " Amazing Grace " "12"));
    [apply reach_init; reflexivity | vm_compute; reflexivity].
Qed.

(** X1 needs no input: a catalog with a surrogate for a title, as [load]
    returns it from the text [["\ud800", "A"]], shows its third case. *)
Example save_songs_surrogate :
  save_songs example_runtime [mkSong lone_surrogate ""; mkSong "A" ""] (fresh (Some "[]"))
  = (Returned tt,
     mkWorld (Some ("[" ++ newline_indent 1 ++ "{" ++ newline_indent 2
                    ++ encode_string "title" ++ ": "))
       None None
       [ShowError "Error" "Failed to save songs.json: surrogates not allowed"] []).
Proof. vm_compute. reflexivity. Qed.

(** X2 at a file of mixed entries. *)
Lemma load_songs_on_present_file_witness :
  exists records w',
    load_songs example_runtime (fresh (Some mixed_text)) = (Returned records, w')
    /\ file w' = Some mixed_text.
Proof.
  destruct (load_songs_on_present_file example_runtime (fresh (Some mixed_text))
              mixed_text eq_refl)
    as [records [w' [Hl [Hf _]]]].
  exists records, w'. split; assumption.
Defined.

(** X2 on bytes that do not decode, on an integer of 4301 digits and on a
    text that is no JSON: each time the empty catalog and one error box. *)
Example load_songs_failures :
  load_songs example_runtime (fresh (Some (String "255" "")))
  = (Returned [],
     shown (ShowError "Error" "Failed to load songs.json: invalid start byte")
       (fresh (Some (String "255" ""))))
  /\ fst (load_songs example_runtime (fresh (Some long_integer_text))) = Returned []
  /\ fst (load_songs example_runtime (fresh (Some "{"))) = Returned [].
Proof. repeat split; vm_compute; reflexivity. Qed.

(** X3 on a world without a file. *)
Lemma load_songs_stable_witness :
  fst (load_songs example_runtime (fresh (Some "[]"))) = Returned [].
Proof.
  apply (load_songs_stable example_runtime (fresh None) (fresh (Some "[]")) []).
  reflexivity.
Defined.

Lemma searched_rows :
  forall s, In s (filtered (searched_app example_runtime)) ->
            In s (songs (searched_app example_runtime)).
Proof. intros s [<-|[]]. right. left. reflexivity. Qed.

(** X4 at the one row of a filtered view. *)
Lemma _selected_index_resolves_witness :
  exists i,
    _selected_index (Some 0) (searched_app example_runtime) (fresh None)
    = (Returned (Some i), fresh None)
    /\ nth_error (songs (searched_app example_runtime)) i = Some (mkSong "How Great" "")
    /\ forall j, j < i ->
         nth_error (songs (searched_app example_runtime)) j <> Some (mkSong "How Great" "").
Proof.
  apply (_selected_index_resolves 0 (mkSong "How Great" "")
           (searched_app example_runtime) (fresh None) searched_rows eq_refl).
Defined.

(** X5 after the first song is added. *)
Lemma editor_view_invariant_witness : view_ok example_runtime (added_app example_runtime).
Proof.
  apply (editor_view_invariant example_runtime (fresh None) (added_app example_runtime) _
           eq_refl reachable_added).
Defined.

(** X6 after the first song is added. *)
Lemma editor_mirrors_file_witness :
  fst (load_songs example_runtime
         (written (json_dumps example_runtime (catalog_json [grace])) (fresh (Some "[]"))))
  = Returned (songs (added_app example_runtime)).
Proof.
  apply (editor_mirrors_file example_runtime (fresh None) (added_app example_runtime) _
           eq_refl eq_refl reachable_added).
  reflexivity.
Defined.

(** X7 at the first song added. *)
Lemma editor_keeps_records_trimmed_witness :
  Forall trimmed_record (songs (added_app example_runtime)).
Proof.
  apply (editor_keeps_records_trimmed example_runtime
           (ClickAdd (Submit " Amazing Grace " "12")) started_app
           (added_app example_runtime)
           (fresh (Some "[]"))
           (written (json_dumps example_runtime (catalog_json [grace])) (fresh (Some "[]")))).
  - constructor.
  - vm_compute. reflexivity.
Defined.

(** X8: deleting the row of the song just added. *)
Lemma editor_handlers_return_witness :
  exists app' w',
    handle example_runtime (ClickDelete (Some 0) true) (added_app example_runtime)
      (written (json_dumps example_runtime (catalog_json [grace])) (fresh (Some "[]")))
    = (Returned app', w').
Proof.
  apply (editor_handlers_return example_runtime (fresh None) (added_app example_runtime) _
           (ClickDelete (Some 0) true) reachable_added).
  cbn. lia.
Defined.

(** X9 at the one row of a filtered view. *)
Lemma _on_delete_removes_first_match_witness :
  exists i,
    nth_error (songs (searched_app example_runtime)) i = Some (mkSong "How Great" "")
    /\ _on_delete example_runtime (Some 0) false (searched_app example_runtime) (fresh None)
       = (Returned (searched_app example_runtime),
          shown (AskYesNo "Delete" "Delete 'How Great'?") (fresh None)).
Proof.
  destruct (_on_delete_removes_first_match example_runtime 0 (mkSong "How Great" "")
              (searched_app example_runtime) (fresh None) searched_rows eq_refl)
    as [i [Hi [_ [_ [Hno _]]]]].
  exists i. split; assumption.
Defined.

(** X10 at the one row of a filtered view. *)
Lemma _on_edit_replaces_first_match_witness :
  exists i,
    nth_error (songs (searched_app example_runtime)) i = Some (mkSong "How Great" "")
    /\ _on_edit example_runtime (Some 0) (Submit " How Great Thou Art" "86 ")
         (searched_app example_runtime) (fresh None)
       = (Returned
            (_on_search example_runtime
               (set_songs
                  (firstn i (songs (searched_app example_runtime))
                   ++ mkSong (py_strip " How Great Thou Art") (py_strip "86 ")
                   :: skipn (S i) (songs (searched_app example_runtime)))
                  (searched_app example_runtime))),
          snd (save_songs example_runtime
                 (firstn i (songs (searched_app example_runtime))
                  ++ mkSong (py_strip " How Great Thou Art") (py_strip "86 ")
                  :: skipn (S i) (songs (searched_app example_runtime)))
                 (fresh None))).
Proof.
  destruct (_on_edit_replaces_first_match example_runtime 0 (mkSong "How Great" "")
              " How Great Thou Art" "86 " (searched_app example_runtime) (fresh None)
              searched_rows eq_refl)
    as [i [Hi [_ [Hrun _]]]]; [vm_compute; discriminate|].
  exists i. split; assumption.
Defined.

(** A form confirmed with a title of one no-break space changes nothing: the
    title is blank to [strip]. *)
Example _on_edit_unicode_blank :
  _on_edit example_runtime (Some 0) (Submit (utf8 160) "86")
    (searched_app example_runtime) (fresh None)
  = (Returned (searched_app example_runtime),
     shown (ShowWarning "Validation" "Title cannot be empty") (fresh None)).
Proof. vm_compute. reflexivity. Qed.

(** X11 on a host that refuses the write. *)
Lemma _on_save_reports_after_failure_witness :
  exists w',
    _on_save example_runtime (added_app example_runtime) refused = (Returned tt, w')
    /\ file w' = file refused
    /\ dialogs w'
       = (dialogs refused
          ++ [ShowError "Error" "Failed to save songs.json: Permission denied";
              ShowInfo "Save"
                ("Saved " ++ str_nat (length (songs (added_app example_runtime)))
                 ++ " songs to songs.json")])%list.
Proof.
  apply (_on_save_reports_after_failure example_runtime (added_app example_runtime)
           refused "Permission denied").
  reflexivity.
Defined.

(** X12 on a file that holds an opening brace and nothing else. *)
Lemma add_after_failed_load_replaces_file_witness :
  exists app w,
    (app0 <- SongApp_init example_runtime ;;
     _on_add example_runtime (Submit "Amazing Grace" "12") app0)
      (fresh (Some "{"))
    = (Returned app, w)
    /\ songs app = [mkSong (py_strip "Amazing Grace") (py_strip "12")]
    /\ file w
       = Some (json_dumps example_runtime
                 (catalog_json [mkSong (py_strip "Amazing Grace") (py_strip "12")])).
Proof.
  apply (add_after_failed_load_replaces_file example_runtime (fresh (Some "{")) "{"
           "Amazing Grace" "12"); try reflexivity.
  - right. right. intros items. vm_compute. discriminate.
  - vm_compute. discriminate.
Defined.

(** X13 on a file of mixed entries. *)
Lemma run_cli_add_appends_witness :
  exists w2,
    run_cli example_runtime ["--add"; "How Great"; "86"] (fresh (Some mixed_text))
    = (Returned tt, w2)
    /\ stdout w2 = (stdout (fresh (Some mixed_text)) ++ [("Added: " ++ "How Great")%string])%list
    /\ dialogs w2 = dialogs (fresh (Some mixed_text))
    /\ load_songs example_runtime w2
       = (Returned (mixed_catalog ++ [mkSong "How Great" (hd "" ["86"])])%list, w2).
Proof.
  apply (run_cli_add_appends example_runtime (fresh (Some mixed_text))
           (fresh (Some mixed_text)) mixed_catalog "How Great" ["86"] load_mixed);
    reflexivity.
Defined.

(** The batch [add] with a surrogate for a title: the save fails on the
    title, and the print of the confirmation raises. *)
Example run_cli_add_surrogate :
  fst (run_cli example_runtime ["--add"; lone_surrogate] (fresh (Some "[]")))
  = Raised (UnicodeEncodeError "character maps to <undefined>")
  /\ file (snd (run_cli example_runtime ["--add"; lone_surrogate] (fresh (Some "[]"))))
     = Some ("[" ++ newline_indent 1 ++ "{" ++ newline_indent 2
             ++ encode_string "title" ++ ": ").
Proof. split; vm_compute; reflexivity. Qed.

(** X14 at [--add] without a title. *)
Lemma run_cli_rejects_without_saving_witness :
  run_cli example_runtime ["--add"] (fresh (Some mixed_text))
  = (Returned tt, printed ["Unknown CLI command"] (fresh (Some mixed_text))).
Proof.
  apply (run_cli_rejects_without_saving example_runtime (fresh (Some mixed_text))
           (fresh (Some mixed_text)) mixed_catalog ["--add"] load_mixed).
  - reflexivity.
  - cbn. discriminate.
Defined.

(** X15 at an argument that is no index. *)
Lemma run_cli_raises_only_from_print_witness :
  exists r w',
    run_cli example_runtime ["--remove"; "first"] (fresh (Some mixed_text)) = (r, w')
    /\ (r = Returned tt
        \/ (exists msg, r = Raised (UnicodeEncodeError msg))
           /\ (hd "" ["--remove"; "first"] = "--list"
               \/ hd "" ["--remove"; "first"] = "--add")).
Proof.
  apply (run_cli_raises_only_from_print example_runtime (fresh (Some mixed_text))
           mixed_text ["--remove"; "first"]).
  reflexivity.
Defined.

(** The batch [list] on the text [["\ud800", "A"]] raises at the first
    record. *)
Example run_cli_list_surrogate :
  run_cli example_runtime ["--list"] (fresh (Some surrogate_text))
  = (Raised (UnicodeEncodeError "character maps to <undefined>"),
     fresh (Some surrogate_text)).
Proof. vm_compute. reflexivity. Qed.

(** X16 at the second record of a file of mixed entries. *)
Lemma run_cli_remove_listed_index_witness :
  run_cli example_runtime ["--remove"; str_nat 1] (fresh (Some mixed_text))
  = (Returned tt,
     printed ["Removed: " ++ title (mkSong "A" "")]
       (snd (save_songs example_runtime (firstn 1 mixed_catalog ++ skipn 2 mixed_catalog)
               (fresh (Some mixed_text))))).
Proof.
  apply (run_cli_remove_listed_index example_runtime (fresh (Some mixed_text))
           (fresh (Some mixed_text)) mixed_catalog 1 (mkSong "A" "") load_mixed).
  - reflexivity.
  - vm_compute. lia.
  - reflexivity.
Defined.

(** X17 at a query and a longer one. *)
Lemma search_refines_previous_view_witness :
  filtered (type_search example_runtime "Great " (set_songs two_songs empty_app))
  = view_of example_runtime "Great "
      (filtered (type_search example_runtime "gr" (set_songs two_songs empty_app))).
Proof.
  apply (search_refines_previous_view example_runtime "gr" "Great "
           (set_songs two_songs empty_app)).
  vm_compute. reflexivity.
Defined.

(** X18 at the import text of the specification's example. *)
Lemma _on_import_one_record_per_line_witness :
  exists app' w' ds,
    _on_import example_runtime (Some import_text) (set_songs two_songs empty_app) (fresh None)
    = (Returned app', w')
    /\ length (songs app')
       = length (songs (set_songs two_songs empty_app)) + length (nonblank_lines import_text)
    /\ firstn (length (songs (set_songs two_songs empty_app))) (songs app')
       = songs (set_songs two_songs empty_app)
    /\ dialogs w'
       = (ds ++ [ShowInfo "Import"
                   ("Imported " ++ str_nat (length (nonblank_lines import_text)) ++ " songs")])%list.
Proof.
  apply (_on_import_one_record_per_line example_runtime import_text
           (set_songs two_songs empty_app) (fresh None)).
  discriminate.
Defined.

(** An import of two lines parted by a line separator, and of a line that is
    one no-break space. *)
Example _on_import_unicode_lines :
  songs (match fst (_on_import example_runtime (Some ("A" ++ utf8 8232 ++ "B")) empty_app
                      (fresh None)) with
         | Returned app => app
         | Raised _ => empty_app
         end)
  = [mkSong "A" ""; mkSong "B" ""]
  /\ nonblank_lines (utf8 160) = [].
Proof. split; vm_compute; reflexivity. Qed.

(** X19 on a file of mixed entries. *)
Lemma run_cli_add_then_remove_witness :
  exists w2 w3,
    run_cli example_runtime ["--add"; "How Great"] (fresh (Some mixed_text))
    = (Returned tt, w2)
    /\ run_cli example_runtime ["--remove"; str_nat (length mixed_catalog)] w2
       = (Returned tt, w3)
    /\ load_songs example_runtime w3 = (Returned mixed_catalog, w3)
    /\ stdout w3
       = (stdout (fresh (Some mixed_text))
          ++ [("Added: " ++ "How Great")%string; ("Removed: " ++ "How Great")%string])%list.
Proof.
  apply (run_cli_add_then_remove example_runtime (fresh (Some mixed_text))
           (fresh (Some mixed_text)) mixed_catalog "How Great" [] load_mixed);
    try reflexivity.
  vm_compute. lia.
Defined.
